(** * thinkbayes: histograms, PMFs, CDFs and Bayesian suites

    A shallow embedding of [ThinkStats/thinkbayes.py] and the proofs of its
    specification.

    Modelling choices.
    - Numbers.  Frequencies (Python ints) and probabilities (Python floats)
      are both embedded in the canonical rationals [Qc]: all arithmetic is
      exact, and every division of the source has a float operand, so no
      Python 2 integer division is involved.  The exact numbers leave out
      the rounding and the bounded range of floats.  Where the range
      decides what a call does, in the un-normalised weights that
      [Suite.UpdateSet] builds up, the suite is modelled a second time on
      binary64 floats (module [Binary64]).
    - Dictionaries.  A Python dict is an association list with pairwise
      distinct keys, listed in iteration order.  Assigning to a stored key
      keeps its position.  Where a new key lands is up to the interpreter
      (by hash in the Python 2 this module is written for); the model puts
      it at the end, and no statement below is about that position.
    - Mutation and exceptions.  A method that mutates [self.d] is a function
      from the dictionary before the call to the dictionary after it; a
      method that can raise returns the dictionary it leaves behind together
      with an [outcome].
    - The [name] attribute is a plotting label which no computation reads;
      it is not part of the model. *)

From Stdlib Require Import Floats.PrimFloat.
From Stdlib Require Import String.
From Stdlib Require Import List ZArith QArith Qcanon Bool Lia Lqa.
From Stdlib Require Import Sorting.Sorted Sorting.Permutation.
Import ListNotations.

Local Open Scope Qc_scope.

(** ** The Python runtime: exceptions, sequences, [sorted], [bisect] *)

Inductive exn : Type :=
| ValueError (msg : string)
| IndexError
| KeyError
| ZeroDivisionError
| AttributeError (attr : string).

Inductive outcome (A : Type) : Type :=
| Ok (a : A)
| Raise (e : exn).

Arguments Ok {A} a.
Arguments Raise {A} e.

Definition raises {A : Type} (o : outcome A) : Prop :=
  exists e, o = Raise e.

(** The two messages of the source's [ValueError]s. *)
Definition ZeroTotal : exn := ValueError "total probability is zero.".
Definition OutOfRange : exn := ValueError "Probability p must be in range [0, 1]".

(** Comparisons on numbers, as booleans. *)
Definition Qc_eqb (x y : Qc) : bool := Qeq_bool x y.
Definition Qc_ltb (x y : Qc) : bool :=
  match x ?= y with Lt => true | _ => false end.
Definition Qc_leb (x y : Qc) : bool :=
  match x ?= y with Gt => false | _ => true end.

Definition half : Qc := Q2Qc (1 # 2).
Definition Qc_of_Z (z : Z) : Qc := Q2Qc (inject_Z z).

(** [l[i]] with Python's negative indices; [None] stands for IndexError. *)
Definition py_index {A : Type} (l : list A) (i : Z) : option A :=
  let n := Z.of_nat (length l) in
  if (0 <=? i)%Z then nth_error l (Z.to_nat i)
  else if (- n <=? i)%Z then nth_error l (Z.to_nat (n + i))
  else None.

Definition subscript {A : Type} (l : list A) (i : Z) : outcome A :=
  match py_index l i with
  | Some a => Ok a
  | None => Raise IndexError
  end.

(** [bisect.bisect] is [bisect_right] of the standard library:
<<
    lo, hi = 0, len(a)
    while lo < hi:
        mid = (lo+hi)//2
        if x < a[mid]: hi = mid
        else: lo = mid+1
    return lo
>>
    Every turn of the loop shrinks [hi - lo], so [S (length a)] turns are
    enough; [mid < hi <= len(a)] makes the subscript safe. *)
Section Bisect.
Context {A : Type} (ltb : A -> A -> bool).

Fixpoint bisect_loop (a : list A) (x : A) (fuel lo hi : nat) : nat :=
  match fuel with
  | O => lo
  | S fuel' =>
      if (lo <? hi)%nat then
        let mid := ((lo + hi) / 2)%nat in
        match nth_error a mid with
        | Some am =>
            if ltb x am then bisect_loop a x fuel' lo mid
            else bisect_loop a x fuel' (mid + 1) hi
        | None => lo
        end
      else lo
  end.

Definition bisect (a : list A) (x : A) : nat :=
  bisect_loop a x (S (length a)) 0 (length a).
End Bisect.

(** [sorted] on (value, weight) tuples: tuples compare lexicographically.
    The model is a stable insertion sort. *)
Definition item_ltb (a b : Z * Qc) : bool :=
  (fst a <? fst b)%Z || ((fst a =? fst b)%Z && Qc_ltb (snd a) (snd b)).

Fixpoint insert_item (x : Z * Qc) (l : list (Z * Qc)) : list (Z * Qc) :=
  match l with
  | [] => [x]
  | y :: l' => if item_ltb y x then y :: insert_item x l' else x :: l
  end.

Fixpoint sorted (l : list (Z * Qc)) : list (Z * Qc) :=
  match l with
  | [] => []
  | x :: l' => insert_item x (sorted l')
  end.

(** [max(iterable)]: the first item is the running maximum, and a later
    item takes its place when [item > maximum]; an empty iterable raises
    ValueError. *)
Section PyMax.
Context {A : Type} (ltb : A -> A -> bool).

Fixpoint py_max_from (m : A) (l : list A) : A :=
  match l with
  | [] => m
  | x :: l' => py_max_from (if ltb m x then x else m) l'
  end.

Definition py_max (l : list A) : outcome A :=
  match l with
  | [] => Raise (ValueError "max() arg is an empty sequence")
  | x :: l' => Ok (py_max_from x l')
  end.
End PyMax.

(** ** Dictionaries *)

Class Hashable (K : Type) : Type := {
  key_eqb : K -> K -> bool;
  key_eqb_eq : forall a b, key_eqb a b = true <-> a = b
}.

#[export] Instance Hashable_Z : Hashable Z :=
  {| key_eqb := Z.eqb; key_eqb_eq := Z.eqb_eq |}.

#[export] Instance Hashable_string : Hashable string :=
  {| key_eqb := String.eqb; key_eqb_eq := String.eqb_eq |}.

Definition dict (K : Type) : Type := list (K * Qc).

Section DictOps.
Context {K : Type} `{Hashable K}.

Definition keys (d : dict K) : list K := map fst d.
Definition values (d : dict K) : list Qc := map snd d.

(** [d[x]]; [None] stands for KeyError. *)
Fixpoint dict_lookup (d : dict K) (x : K) : option Qc :=
  match d with
  | [] => None
  | (k, v) :: d' => if key_eqb x k then Some v else dict_lookup d' x
  end.

(** [d.get(x, default)] *)
Definition dict_get (d : dict K) (x : K) (default : Qc) : Qc :=
  match dict_lookup d x with
  | Some v => v
  | None => default
  end.

(** [d[x] = y] *)
Fixpoint dict_set (d : dict K) (x : K) (y : Qc) : dict K :=
  match d with
  | [] => [(x, y)]
  | (k, v) :: d' =>
      if key_eqb x k then (k, y) :: d' else (k, v) :: dict_set d' x y
  end.

(** [del d[x]], on a stored key *)
Fixpoint dict_del (d : dict K) (x : K) : dict K :=
  match d with
  | [] => []
  | (k, v) :: d' => if key_eqb x k then d' else (k, v) :: dict_del d' x
  end.

(** Two views of "rewrite the weight of every entry": one assignment
    [d[x] = g(x, d.get(x, 0))] of a loop over keys, and the whole
    dictionary rewritten at once. *)
Definition update_entry (g : K -> Qc -> Qc) (d : dict K) (x : K) : dict K :=
  dict_set d x (g x (dict_get d x 0)).

Definition map_entries (g : K -> Qc -> Qc) (d : dict K) : dict K :=
  map (fun kv => (fst kv, g (fst kv) (snd kv))) d.
End DictOps.

(** [sum] starts from 0 and adds from the left. *)
Definition py_sum (l : list Qc) : Qc := fold_left Qcplus l 0.

(** ** class _DictWrapper *)

Module DictWrapper.
Section Methods.
Context {K : Type} `{Hashable K}.

Definition Values (d : dict K) : list K := keys d.
Definition Items (d : dict K) : list (K * Qc) := d.

Definition Set_ (x : K) (y : Qc) (d : dict K) : dict K := dict_set d x y.

Definition Incr (x : K) (term : Qc) (d : dict K) : dict K :=
  dict_set d x (dict_get d x 0 + term).

Definition Mult (x : K) (factor : Qc) (d : dict K) : dict K :=
  dict_set d x (dict_get d x 0 * factor).

Definition Remove (x : K) (d : dict K) : dict K * outcome unit :=
  match dict_lookup d x with
  | Some _ => (dict_del d x, Ok tt)
  | None => (d, Raise KeyError)
  end.

Definition Total (d : dict K) : Qc := py_sum (values d).

Definition MaxLike (d : dict K) : outcome Qc := py_max Qc_ltb (values d).
End Methods.

(** [zip] of the unpacked [sorted(self.Items())]: the list of two tuples,
    (values, weights), or the empty list when there is no item to unzip. *)
Inductive rendered : Type :=
| NoPoints
| Points (vals : list Z) (weights : list Qc).

Definition Render (d : dict Z) : rendered :=
  match sorted (Items d) with
  | [] => NoPoints
  | l => Points (map fst l) (map snd l)
  end.
End DictWrapper.

(** ** class Hist *)

Module Hist.
Section Methods.
Context {K : Type} `{Hashable K}.

Definition Copy (d : dict K) : dict K := d.
Definition Freq (d : dict K) (x : K) : Qc := dict_get d x 0.

Definition Freqs (d : dict K) : list Qc := values d.

(** [for val, freq in self.Items(): if freq > other.Freq(val): return False] *)
Fixpoint IsSubset_loop (items : list (K * Qc)) (other : dict K) : bool :=
  match items with
  | [] => true
  | (val, freq) :: rest =>
      if Qc_ltb (Freq other val) freq then false
      else IsSubset_loop rest other
  end.

Definition IsSubset (self other : dict K) : bool :=
  IsSubset_loop (DictWrapper.Items self) other.

(** [for val, freq in other.Items(): self.Incr(val, -freq)] *)
Definition Subtract (other self : dict K) : dict K :=
  fold_left (fun d it => DictWrapper.Incr (fst it) (- snd it) d)
            (DictWrapper.Items other) self.
End Methods.
End Hist.

(** ** class Pmf *)

Module Pmf.
Section Methods.
Context {K : Type} `{Hashable K}.

Definition Copy (d : dict K) : dict K := d.

Definition Prob (d : dict K) (x : K) (default : Qc) : Qc :=
  dict_get d x default.

(** [self.d[x] *= factor], for a key [x] that the loop draws from
    [self.d] itself. *)
Definition scale_entry (factor : Qc) (d : dict K) (x : K) : dict K :=
  dict_set d x (dict_get d x 0 * factor).

Definition Normalize (fraction : Qc) (d : dict K) : dict K * outcome Qc :=
  let total := DictWrapper.Total d in
  if Qc_eqb total 0 then (d, Raise ZeroTotal)
  else
    let factor := fraction / total in
    (fold_left (scale_entry factor) (keys d) d, Ok total).
End Methods.

(** The names a lookup on the class [Pmf] finds: those bound in its body
    and those inherited from [_DictWrapper]. *)
Definition class_namespace : list string :=
  ["Copy"; "Prob"; "Probs"; "Normalize"; "Random"; "Mean"; "Var"; "Log";
   "Exp";
   "__init__"; "GetDict"; "Values"; "Items"; "Render"; "Print"; "Set";
   "Incr"; "Mult"; "Remove"; "Total"; "MaxLike"]%string.

Definition has_attr (attr : string) : bool :=
  existsb (String.eqb attr) class_namespace.

Definition Probs {K : Type} (d : dict K) : list Qc := values d.

(** What [Random] can end in: a value, the ValueError of an empty Pmf, or
    the [assert False] after the loop. *)
Inductive draw (K : Type) : Type :=
| Drawn (x : K)
| NoValues (e : exn)
| AssertFalse.

Arguments Drawn {K} x.
Arguments NoValues {K} e.
Arguments AssertFalse {K}.

(** [total += p; if total >= target: return x]; leaving the loop reaches
    [assert False]. *)
Fixpoint random_loop {K : Type} (items : list (K * Qc)) (total target : Qc)
  : draw K :=
  match items with
  | [] => AssertFalse
  | (x, p) :: rest =>
      let total := total + p in
      if Qc_leb target total then Drawn x else random_loop rest total target
  end.

(** [Random], with the number [random.random()] returns as [target]. *)
Definition Random {K : Type} (target : Qc) (d : dict K) : draw K :=
  if (length d =? 0)%nat then NoValues (ValueError "Pmf contains no values.")
  else random_loop (DictWrapper.Items d) 0 target.

(** [mu += p * x], on numeric values. *)
Definition Mean (d : dict Z) : Qc :=
  fold_left (fun mu it => mu + snd it * Qc_of_Z (fst it)) d 0.

(** [var += p * (x - mu)**2]; [mu = None] asks for the mean. *)
Definition Var (mu : option Qc) (d : dict Z) : Qc :=
  let mu := match mu with None => Mean d | Some m => m end in
  fold_left (fun var it => var + snd it * (Qc_of_Z (fst it) - mu) ^ 2) d 0.
End Pmf.

(** ** Constructors of Hist and Pmf *)

Section Makers.
Context {K : Type} `{Hashable K}.

Definition MakeHistFromList (t : list K) : dict K :=
  fold_left (fun hist x => DictWrapper.Incr x 1 hist) t [].

Definition MakeHistFromDict (d : dict K) : dict K := d.

Definition MakePmfFromHist (hist : dict K) : outcome (dict K) :=
  let d := hist in
  match Pmf.Normalize 1 d with
  | (pmf, Ok _) => Ok pmf
  | (_, Raise e) => Raise e
  end.

Definition MakePmfFromList (t : list K) : outcome (dict K) :=
  MakePmfFromHist (MakeHistFromList t).

Definition MakePmfFromDict (d : dict K) : outcome (dict K) :=
  match Pmf.Normalize 1 d with
  | (pmf, Ok _) => Ok pmf
  | (_, Raise e) => Raise e
  end.

(** [pmfs] maps Pmf objects to probabilities; its items are pairs of a
    component Pmf and its probability.
    [for pmf, prob in pmfs.Items(): for x, p in pmf.Items(): mix.Incr(x, p * prob)] *)
Definition MakeMixture (pmfs : list (dict K * Qc)) : dict K :=
  fold_left
    (fun mix it =>
       fold_left (fun mix xp => DictWrapper.Incr (fst xp) (snd xp * snd it) mix)
                 (DictWrapper.Items (fst it)) mix)
    pmfs [].
End Makers.

(** ** class Cdf *)

Record cdf : Type := mkCdf { xs : list Z; ps : list Qc }.

Module Cdf.
Definition Values (c : cdf) : list Z := xs c.

Definition Items (c : cdf) : list (Z * Qc) := combine (xs c) (ps c).

Definition Append (x : Z) (p : Qc) (c : cdf) : cdf :=
  mkCdf (xs c ++ [x]) (ps c ++ [p]).

Definition Prob (c : cdf) (x : Z) : outcome Qc :=
  match subscript (xs c) 0 with
  | Raise e => Raise e
  | Ok x0 =>
      if (x <? x0)%Z then Ok 0
      else
        let index := bisect Z.ltb (xs c) x in
        subscript (ps c) (Z.of_nat index - 1)
  end.

Definition Value (c : cdf) (p : Qc) : outcome Z :=
  if Qc_ltb p 0 || Qc_ltb 1 p then Raise OutOfRange
  else if Qc_eqb p 0 then subscript (xs c) 0
  else if Qc_eqb p 1 then subscript (xs c) (-1)
  else
    let index := bisect Qc_ltb (ps c) p in
    match subscript (ps c) (Z.of_nat index - 1) with
    | Raise e => Raise e
    | Ok q =>
        if Qc_eqb p q then subscript (xs c) (Z.of_nat index - 1)
        else subscript (xs c) (Z.of_nat index)
    end.

Definition Percentile (c : cdf) (p : Qc) : outcome Z :=
  Value c (p / Q2Qc 100).

(** [Random], with the number [random.random()] returns as [target]. *)
Definition Random (target : Qc) (c : cdf) : outcome Z := Value c target.

(** [[self.Random() for i in range(n)]], with the [n] numbers the calls of
    [random.random()] return; the first exception ends the comprehension. *)
Fixpoint Sample (targets : list Qc) (c : cdf) : outcome (list Z) :=
  match targets with
  | [] => Ok []
  | target :: rest =>
      match Random target c with
      | Raise e => Raise e
      | Ok v =>
          match Sample rest c with
          | Raise e => Raise e
          | Ok vs => Ok (v :: vs)
          end
      end
  end.

(** [p = new_p - old_p; total += p * x; old_p = new_p] *)
Definition mean_step (st : Qc * Qc) (it : Z * Qc) : Qc * Qc :=
  let '(old_p, total) := st in
  let '(x, new_p) := it in
  let p := new_p - old_p in
  (new_p, total + p * Qc_of_Z x).

Definition Mean (c : cdf) : Qc :=
  snd (fold_left mean_step (combine (xs c) (ps c)) (0, 0)).

(** The loop of [Render] at index [i], with [rest] the part of [self.ps]
    still to enumerate.  [self.xs[i]] is outside the [try]; an IndexError
    of [self.xs[i+1]] is swallowed and skips [ps.append(p)] with it. *)
Fixpoint render_loop (cxs : list Z) (i : nat) (rest : list Qc)
    (rxs : list Z) (rps : list Qc) : outcome (list Z * list Qc) :=
  match rest with
  | [] => Ok (rxs, rps)
  | p :: rest' =>
      match subscript cxs (Z.of_nat i) with
      | Raise e => Raise e
      | Ok xi =>
          let rxs := rxs ++ [xi] in
          let rps := rps ++ [p] in
          match subscript cxs (Z.of_nat i + 1) with
          | Ok xn => render_loop cxs (S i) rest' (rxs ++ [xn]) (rps ++ [p])
          | Raise _ => render_loop cxs (S i) rest' rxs rps
          end
      end
  end.

Definition Render (c : cdf) : outcome (list Z * list Qc) :=
  match subscript (xs c) 0 with
  | Raise e => Raise e
  | Ok x0 => render_loop (xs c) 0 (ps c) [x0] [0]
  end.
End Cdf.

(** [pmf.Incr(val, prob - prev); prev = prob] *)
Definition pmf_from_cdf_step (st : dict Z * Qc) (it : Z * Qc) : dict Z * Qc :=
  let '(pmf, prev) := st in
  let '(val, prob) := it in
  (DictWrapper.Incr val (prob - prev) pmf, prob).

Definition MakePmfFromCdf (c : cdf) : dict Z :=
  fst (fold_left pmf_from_cdf_step (Cdf.Items c) ([], 0)).

(** [runsum += count; xs.append(value); cs.append(runsum)] *)
Definition cdf_items_step (st : Qc * list Z * list Qc) (it : Z * Qc)
  : Qc * list Z * list Qc :=
  let '(runsum, xs, cs) := st in
  let '(value, count) := it in
  let runsum := runsum + count in
  (runsum, xs ++ [value], cs ++ [runsum]).

(** [c/total] with a float [total] *)
Definition float_div (c total : Qc) : outcome Qc :=
  if Qc_eqb total 0 then Raise ZeroDivisionError else Ok (c / total).

(** [[c/total for c in cs]]: the first failing division ends the
    comprehension. *)
Fixpoint div_all (cs : list Qc) (total : Qc) : outcome (list Qc) :=
  match cs with
  | [] => Ok []
  | c :: cs' =>
      match float_div c total with
      | Raise e => Raise e
      | Ok p =>
          match div_all cs' total with
          | Raise e => Raise e
          | Ok ps => Ok (p :: ps)
          end
      end
  end.

Definition MakeCdfFromItems (items : list (Z * Qc)) : outcome cdf :=
  let '(runsum, xs, cs) := fold_left cdf_items_step (sorted items) (0, [], []) in
  let total := runsum in
  match div_all cs total with
  | Raise e => Raise e
  | Ok ps => Ok (mkCdf xs ps)
  end.

Definition MakeCdfFromDict (d : dict Z) : outcome cdf := MakeCdfFromItems d.

Definition MakeCdfFromHist (hist : dict Z) : outcome cdf :=
  MakeCdfFromItems (DictWrapper.Items hist).

Definition MakeCdfFromPmf (pmf : dict Z) : outcome cdf :=
  MakeCdfFromItems (DictWrapper.Items pmf).

(** [hist = Pmf.MakeHistFromList(seq)] looks [MakeHistFromList] up on the
    class [Pmf], the only binding of the name [Pmf] in the module. *)
Definition MakeCdfFromList (seq : list Z) : outcome cdf :=
  if Pmf.has_attr "MakeHistFromList"
  then MakeCdfFromHist (MakeHistFromList seq)
  else Raise (AttributeError "MakeHistFromList").

(** ** class Suite *)

Module Suite.
Definition init (hypos : list string) : outcome (dict string) :=
  let d := fold_left (fun d hypo => DictWrapper.Set_ hypo 1 d) hypos [] in
  match Pmf.Normalize 1 d with
  | (d', Ok _) => Ok d'
  | (_, Raise e) => Raise e
  end.

Definition Likelihood (hypo data : string) : Qc :=
  if String.eqb hypo data then 0
  else if String.eqb hypo "A" then half
  else 1.

(** [for hypo in self.Values(): self.Mult(hypo, self.Likelihood(hypo, data))];
    [Values()] is a list taken before the loop starts. *)
Definition mult_likelihoods (data : string) (d : dict string) : dict string :=
  fold_left (fun d hypo => DictWrapper.Mult hypo (Likelihood hypo data) d)
            (DictWrapper.Values d) d.

Definition Update (data : string) (d : dict string)
  : dict string * outcome Qc :=
  Pmf.Normalize 1 (mult_likelihoods data d).

Definition UpdateSet (dataset : list string) (d : dict string)
  : dict string * outcome Qc :=
  Pmf.Normalize 1
    (fold_left (fun d data => mult_likelihoods data d) dataset d).

(** [for data in dataset: suite.Update(data)]: the caller's loop, which
    the first exception leaves. *)
Fixpoint UpdateEach (dataset : list string) (d : dict string)
  : dict string * outcome unit :=
  match dataset with
  | [] => (d, Ok tt)
  | data :: rest =>
      match Update data d with
      | (d', Ok _) => UpdateEach rest d'
      | (d', Raise e) => (d', Raise e)
      end
  end.
End Suite.

(** ** The suite on binary64 floats

    The weights of a running suite are Python floats, that is IEEE 754
    binary64 numbers, which the primitive floats are.  The int 1 that
    [Suite.__init__] stores, the int 0 from which [sum] starts and the
    ints 0 and 1 that [Likelihood] returns are converted exactly where
    they meet a float, so the model holds them as floats from the start.
    [==] on floats is [PrimFloat.eqb]. *)

Module Binary64.
Local Open Scope float_scope.

Definition fdict : Type := list (string * float).

(** [d.get(x, default)] *)
Fixpoint get (d : fdict) (x : string) (default : float) : float :=
  match d with
  | [] => default
  | (k, v) :: d' => if String.eqb x k then v else get d' x default
  end.

(** [d[x] = y] *)
Fixpoint set (d : fdict) (x : string) (y : float) : fdict :=
  match d with
  | [] => [(x, y)]
  | (k, v) :: d' =>
      if String.eqb x k then (k, y) :: d' else (k, v) :: set d' x y
  end.

Definition Values (d : fdict) : list string := map fst d.

Definition Mult (x : string) (factor : float) (d : fdict) : fdict :=
  set d x (get d x 0 * factor).

Definition Total (d : fdict) : float :=
  fold_left PrimFloat.add (map snd d) 0.

Definition Normalize (fraction : float) (d : fdict) : fdict * outcome float :=
  let total := Total d in
  if total =? 0 then (d, Raise ZeroTotal)
  else
    let factor := fraction / total in
    (fold_left (fun d x => set d x (get d x 0 * factor)) (Values d) d,
     Ok total).

Definition init (hypos : list string) : outcome fdict :=
  let d := fold_left (fun d hypo => set d hypo 1) hypos [] in
  match Normalize 1 d with
  | (d', Ok _) => Ok d'
  | (_, Raise e) => Raise e
  end.

Definition Likelihood (hypo data : string) : float :=
  if String.eqb hypo data then 0
  else if String.eqb hypo "A" then 0.5
  else 1.

Definition mult_likelihoods (data : string) (d : fdict) : fdict :=
  fold_left (fun d hypo => Mult hypo (Likelihood hypo data) d) (Values d) d.

Definition Update (data : string) (d : fdict) : fdict * outcome float :=
  Normalize 1 (mult_likelihoods data d).

Definition UpdateSet (dataset : list string) (d : fdict)
  : fdict * outcome float :=
  Normalize 1 (fold_left (fun d data => mult_likelihoods data d) dataset d).

(** [for data in dataset: suite.Update(data)] *)
Fixpoint UpdateEach (dataset : list string) (d : fdict)
  : fdict * outcome unit :=
  match dataset with
  | [] => (d, Ok tt)
  | data :: rest =>
      match Update data d with
      | (d', Ok _) => UpdateEach rest d'
      | (d', Raise e) => (d', Raise e)
      end
  end.
End Binary64.

(** ** Free functions on Pmfs *)

(** Tuples [(prob, val)] compare lexicographically. *)
Definition prob_val_ltb (a b : Qc * Z) : bool :=
  Qc_ltb (fst a) (fst b) || (Qc_eqb (fst a) (fst b) && (snd a <? snd b)%Z).

(** [prob, val = max((prob, val) for val, prob in pmf.Items()); return val] *)
Definition MaximumLikelihood (pmf : dict Z) : outcome Z :=
  match py_max prob_val_ltb
          (map (fun it => (snd it, fst it)) (DictWrapper.Items pmf)) with
  | Raise e => Raise e
  | Ok (prob, val) => Ok val
  end.

(** The loop of [Percentile]; falling off its end returns [None]. *)
Fixpoint percentile_loop {K : Type} (items : list (K * Qc)) (total p : Qc)
  : option K :=
  match items with
  | [] => None
  | (val, prob) :: rest =>
      let total := total + prob in
      if Qc_leb p total then Some val else percentile_loop rest total p
  end.

Definition Percentile {K : Type} (pmf : dict K) (percentage : Qc) : option K :=
  let p := percentage / Q2Qc 100 in
  percentile_loop (DictWrapper.Items pmf) 0 p.

Definition ConfidenceInterval (pmf : dict Z) (percentage : Qc)
  : outcome (Z * Z) :=
  match MakeCdfFromPmf pmf with
  | Raise e => Raise e
  | Ok c =>
      let prob := (1 - percentage / Q2Qc 100) / Q2Qc 2 in
      match Cdf.Value c prob with
      | Raise e => Raise e
      | Ok lo =>
          match Cdf.Value c (1 - prob) with
          | Raise e => Raise e
          | Ok hi => Ok (lo, hi)
          end
      end
  end.

(** ** Specification predicates *)

(** The representation invariant of a dictionary: keys are unique. *)
Definition dict_ok {K : Type} (d : dict K) : Prop := NoDup (keys d).

(** What the constructor of [Suite] establishes and every update keeps:
    a distribution over the hypotheses. *)
Definition Suite_inv (d : dict string) : Prop :=
  dict_ok d /\ Forall (Qcle 0) (values d) /\ DictWrapper.Total d = 1.

(** The rightmost insertion point of [x] in [a]: every entry before it is
    at most [x] (not above [x]), every entry from it on is above [x]. *)
Definition insertion_point_right {A : Type} (lt : A -> A -> Prop)
    (a : list A) (x : A) (i : nat) : Prop :=
  (i <= length a)%nat
  /\ (forall j y, (j < i)%nat -> nth_error a j = Some y -> ~ lt x y)
  /\ (forall j y, (i <= j)%nat -> nth_error a j = Some y -> lt x y).

(** A properly constructed CDF: parallel sequences, values ascending,
    cumulative probabilities non-decreasing within [0,1] and ending at 1. *)
Definition Cdf_ok (c : cdf) : Prop :=
  length (xs c) = length (ps c)
  /\ Sorted Z.le (xs c)
  /\ Sorted Qcle (ps c)
  /\ Forall (fun p => 0 <= p <= 1) (ps c)
  /\ last (ps c) 1 = 1.

(** [v] is the smallest stored value whose cumulative probability is at
    least [p]. *)
Definition smallest_value_reaching (c : cdf) (p : Qc) (v : Z) : Prop :=
  (exists k q, nth_error (xs c) k = Some v
               /\ nth_error (ps c) k = Some q /\ p <= q)
  /\ (forall j x q, nth_error (xs c) j = Some x ->
                    nth_error (ps c) j = Some q -> p <= q -> (v <= x)%Z).

(** At most one entry of the CDF has cumulative probability exactly [p]. *)
Definition plateau_free (c : cdf) (p : Qc) : Prop :=
  forall i j, nth_error (ps c) i = Some p -> nth_error (ps c) j = Some p ->
              i = j.

(** Running sums of [l] on top of [r]: what the loop of
    [MakeCdfFromItems] appends to [cs]. *)
Fixpoint runsums (r : Qc) (l : list Qc) : list Qc :=
  match l with
  | [] => []
  | c :: l' => (r + c) :: runsums (r + c) l'
  end.

(** A frequency of a histogram: a positive integer. *)
Definition is_count (w : Qc) : Prop := exists n : positive, w = Qc_of_Z (Zpos n).

(** Items ordered by value. *)
Definition by_value (a b : Z * Qc) : Prop := (fst a <= fst b)%Z.

(** The probability mass a PMF gives to the values up to [v], and the
    smallest stored value at which that mass reaches [p]. *)
Definition cumulative_mass (pmf : dict Z) (v : Z) : Qc :=
  py_sum (map snd (filter (fun kv => (fst kv <=? v)%Z) pmf)).

Definition smallest_value_with_mass (pmf : dict Z) (p : Qc) (v : Z) : Prop :=
  In v (keys pmf)
  /\ p <= cumulative_mass pmf v
  /\ forall u, In u (keys pmf) -> p <= cumulative_mass pmf u -> (v <= u)%Z.

(** The loop of [MakeHistFromList], from any histogram. *)
Definition tally_from {K : Type} `{Hashable K} (acc : dict K) (t : list K)
  : dict K :=
  fold_left (fun hist x => DictWrapper.Incr x 1 hist) t acc.

(** A loop that increments, for every item of [items], the weight of the
    item's value by [f] of the item's weight. *)
Definition incr_each {K : Type} `{Hashable K} (f : Qc -> Qc)
    (items : list (K * Qc)) (acc : dict K) : dict K :=
  fold_left (fun d it => DictWrapper.Incr (fst it) (f (snd it)) d) items acc.

(** The order of [(prob, val)] tuples. *)
Definition prob_val_le (a b : Qc * Z) : Prop :=
  fst a < fst b \/ (fst a = fst b /\ (snd a <= snd b)%Z).

(** The second moment of a PMF over numbers: the sum of [p * x**2]. *)
Definition moment2 (d : dict Z) : Qc :=
  py_sum (map (fun it => snd it * (Qc_of_Z (fst it) * Qc_of_Z (fst it))) d).

(** The corner points of the step function through [items], coming from
    height [prev]: a vertical segment up to each item's probability, then a
    horizontal one to the next value. *)
Fixpoint step_points (prev : Qc) (items : list (Z * Qc)) : list (Z * Qc) :=
  match items with
  | [] => []
  | (x, p) :: rest => (x, prev) :: (x, p) :: step_points p rest
  end.

(** No segment between consecutive points is sloped. *)
Fixpoint no_slope (points : list (Z * Qc)) : Prop :=
  match points with
  | a :: (b :: _) as rest => (fst a = fst b \/ snd a = snd b) /\ no_slope rest
  | _ => True
  end.

(** The likelihood of a whole dataset under a hypothesis, as the updates
    multiply it up, and the probability of the data under the prior [d]. *)
Definition joint_likelihood (hypo : string) (dataset : list string) : Qc :=
  fold_left (fun acc data => acc * Suite.Likelihood hypo data) dataset 1.

Definition evidence (dataset : list string) (d : dict string) : Qc :=
  py_sum (map (fun it => snd it * joint_likelihood (fst it) dataset) d).

(** How often [x] occurs in [t]. *)
Definition count_key {K : Type} `{Hashable K} (x : K) (t : list K) : nat :=
  length (filter (key_eqb x) t).

(** ** Sample data *)

(** Weights shown as reduced fractions. *)
Definition shown {K : Type} (d : dict K) : list (K * Q) :=
  map (fun kv => (fst kv, this (snd kv))) d.

Definition doors : list string := ["A"; "B"; "C"]%string.

(** [['B', 'C'] * n] *)
Definition BC_pairs (n : nat) : list string :=
  concat (repeat ["B"; "C"]%string n).

Definition uniform_doors : dict string :=
  [("A"%string, Q2Qc (1 # 3)); ("B"%string, Q2Qc (1 # 3));
   ("C"%string, Q2Qc (1 # 3))].

(** The histogram of [1, 2, 2, 3, 3, 3] and its CDF. *)
Definition hist_122333 : dict Z :=
  [(1%Z, Qc_of_Z 1); (2%Z, Qc_of_Z 2); (3%Z, Qc_of_Z 3)].

Definition cdf_122333 : cdf :=
  mkCdf [1%Z; 2%Z; 3%Z] [Q2Qc (1 # 6); half; 1].

(** The normalized PMF of [1, 2, 2, 3, 3, 3]. *)
Definition pmf_122333 : dict Z :=
  [(1%Z, Q2Qc (1 # 6)); (2%Z, Q2Qc (1 # 3)); (3%Z, half)].

(** A mixture of two components in equal parts. *)
Definition two_components : list (dict Z * Qc) :=
  [([(8%Z, half); (1%Z, half)], half); (pmf_122333, half)].

(** A PMF whose dict lists the value 8 before the value 1. *)
Definition pmf_8_1 : dict Z := [(8%Z, half); (1%Z, half)].

(** Items with an entry of weight 0, as a posterior with an excluded
    hypothesis has, and their CDF. *)
Definition items_with_zero : list (Z * Qc) := [(1%Z, 1); (2%Z, 0); (3%Z, 1)].

Definition cdf_plateau : cdf := mkCdf [1%Z; 2%Z; 3%Z] [half; half; 1].

(** * Proofs *)

(** ** Numbers *)

Lemma Qc_eqb_eq (x y : Qc) : Qc_eqb x y = true <-> x = y.
Proof.
  unfold Qc_eqb. rewrite Qeq_bool_iff. split.
  - apply Qc_is_canon.
  - intros ->. reflexivity.
Qed.

Lemma Qc_eqb_neq (x y : Qc) : Qc_eqb x y = false <-> x <> y.
Proof.
  rewrite <- Qc_eqb_eq. destruct (Qc_eqb x y); split; congruence.
Qed.

Lemma Qc_ltb_lt (x y : Qc) : Qc_ltb x y = true <-> x < y.
Proof.
  unfold Qc_ltb. rewrite Qclt_alt.
  destruct (x ?= y); split; congruence.
Qed.

Lemma Qc_ltb_ge (x y : Qc) : Qc_ltb x y = false <-> y <= x.
Proof.
  split; intros Hxy.
  - apply Qcnot_lt_le. rewrite <- Qc_ltb_lt. congruence.
  - apply Qcle_not_lt in Hxy. rewrite <- Qc_ltb_lt in Hxy.
    destruct (Qc_ltb x y); congruence.
Qed.

Lemma Qc_leb_le (x y : Qc) : Qc_leb x y = true <-> x <= y.
Proof.
  unfold Qc_leb. rewrite Qcle_alt.
  destruct (x ?= y); split; congruence.
Qed.

(** Order facts on [Qc] are sent to [Q], where [lra] decides them. *)
Ltac to_Q :=
  unfold Qcle, Qclt, Qcdiv, Qcminus, Qcplus, Qcmult, Qcopp, Qcinv, Q2Qc in *;
  cbn [this] in *;
  repeat rewrite Qred_correct in *.

Lemma Qc_eq_Q (x y : Qc) : x = y <-> (this x == this y)%Q.
Proof.
  split.
  - intros ->. reflexivity.
  - apply Qc_is_canon.
Qed.

Lemma Qcplus_nonneg (x y : Qc) : 0 <= x -> 0 <= y -> 0 <= x + y.
Proof. intros Hx Hy. to_Q. lra. Qed.

Lemma Qcmult_nonneg (x y : Qc) : 0 <= x -> 0 <= y -> 0 <= x * y.
Proof. intros Hx Hy. to_Q. nra. Qed.

Lemma Qcmult_pos (x y : Qc) : 0 < x -> 0 < y -> 0 < x * y.
Proof. intros Hx Hy. to_Q. nra. Qed.

Lemma Qcplus_pos_nonneg (x y : Qc) : 0 <= x -> 0 < y -> 0 < x + y.
Proof. intros Hx Hy. to_Q. lra. Qed.

Lemma Qcinv_pos (x : Qc) : 0 < x -> 0 < / x.
Proof. intros Hx. to_Q. apply Qinv_lt_0_compat. exact Hx. Qed.

Lemma Qcplus_zero_nonneg (x y : Qc) :
  0 <= x -> 0 <= y -> x + y = 0 -> x = 0 /\ y = 0.
Proof.
  intros Hx Hy Hxy. apply Qc_eq_Q in Hxy.
  split; apply Qc_eq_Q; to_Q; lra.
Qed.

Lemma half_nonneg : 0 <= half.
Proof. unfold half. to_Q. lra. Qed.

(** ** Sums *)

Lemma fold_left_Qcplus (l : list Qc) (a : Qc) :
  fold_left Qcplus l a = a + fold_left Qcplus l 0.
Proof.
  revert a. induction l as [|x l IH]; intros a; simpl.
  - ring.
  - rewrite IH, (IH (0 + x)). ring.
Qed.

Lemma py_sum_nil : py_sum [] = 0.
Proof. reflexivity. Qed.

Lemma py_sum_cons (x : Qc) (l : list Qc) : py_sum (x :: l) = x + py_sum l.
Proof.
  unfold py_sum. simpl. rewrite fold_left_Qcplus. ring.
Qed.

Lemma py_sum_app (l1 l2 : list Qc) : py_sum (l1 ++ l2) = py_sum l1 + py_sum l2.
Proof.
  induction l1 as [|x l1 IH]; simpl.
  - rewrite py_sum_nil. ring.
  - rewrite !py_sum_cons, IH. ring.
Qed.

Lemma py_sum_scale (l : list Qc) (c : Qc) :
  py_sum (map (fun w => w * c) l) = py_sum l * c.
Proof.
  induction l as [|x l IH]; simpl.
  - rewrite py_sum_nil. ring.
  - rewrite !py_sum_cons, IH. ring.
Qed.

Lemma py_sum_nonneg (l : list Qc) : Forall (Qcle 0) l -> 0 <= py_sum l.
Proof.
  induction 1 as [|x l Hx _ IH].
  - rewrite py_sum_nil. apply Qcle_refl.
  - rewrite py_sum_cons. now apply Qcplus_nonneg.
Qed.

Lemma py_sum_zero (l : list Qc) :
  Forall (Qcle 0) l -> py_sum l = 0 -> Forall (eq 0) l.
Proof.
  induction 1 as [|x l Hx Hl IH]; intros Hs.
  - constructor.
  - rewrite py_sum_cons in Hs.
    apply Qcplus_zero_nonneg in Hs; auto using py_sum_nonneg.
    destruct Hs as [-> Hs]. constructor; auto.
Qed.

Lemma py_sum_Permutation (l1 l2 : list Qc) :
  Permutation l1 l2 -> py_sum l1 = py_sum l2.
Proof.
  induction 1 as [|x l1 l2 _ IH|x y l|l1 l2 l3 _ IH1 _ IH2].
  - reflexivity.
  - rewrite !py_sum_cons, IH. reflexivity.
  - rewrite !py_sum_cons. ring.
  - congruence.
Qed.

(** ** Dictionaries *)

Section DictFacts.
Context {K : Type} `{Hashable K}.

Lemma key_eqb_refl (x : K) : key_eqb x x = true.
Proof. now apply key_eqb_eq. Qed.

Lemma key_eqb_neq (x y : K) : key_eqb x y = false <-> x <> y.
Proof.
  rewrite <- key_eqb_eq. destruct (key_eqb x y); split; congruence.
Qed.

Lemma dict_lookup_absent (d : dict K) (x : K) :
  ~ In x (keys d) -> dict_lookup d x = None.
Proof.
  induction d as [|[k v] d IH]; simpl; intros Hx; [reflexivity|].
  destruct (key_eqb x k) eqn:E.
  - apply key_eqb_eq in E. subst. tauto.
  - apply IH. tauto.
Qed.

Lemma dict_lookup_In (d : dict K) (x : K) (v : Qc) :
  NoDup (keys d) -> In (x, v) d -> dict_lookup d x = Some v.
Proof.
  induction d as [|[k w] d IH]; simpl; intros Hnd Hin; [tauto|].
  inversion Hnd as [|? ? Hk Hnd']; subst.
  destruct Hin as [E|Hin].
  - inversion E; subst. now rewrite key_eqb_refl.
  - destruct (key_eqb x k) eqn:E.
    + apply key_eqb_eq in E. subst. exfalso. apply Hk.
      change k with (fst (k, v)). now apply in_map.
    + now apply IH.
Qed.

Lemma dict_lookup_Some_In (d : dict K) (x : K) (v : Qc) :
  dict_lookup d x = Some v -> In (x, v) d.
Proof.
  induction d as [|[k w] d IH]; simpl; [discriminate|].
  destruct (key_eqb x k) eqn:E.
  - apply key_eqb_eq in E. subst. intros [= ->]. now left.
  - intros Hl. right. now apply IH.
Qed.

Lemma dict_lookup_middle (pre post : dict K) (x : K) (v : Qc) :
  ~ In x (keys pre) -> dict_lookup (pre ++ (x, v) :: post) x = Some v.
Proof.
  induction pre as [|[k w] pre IH]; simpl; intros Hx.
  - now rewrite key_eqb_refl.
  - destruct (key_eqb x k) eqn:E.
    + apply key_eqb_eq in E. subst. tauto.
    + apply IH. tauto.
Qed.

Lemma dict_set_middle (pre post : dict K) (x : K) (v y : Qc) :
  ~ In x (keys pre) ->
  dict_set (pre ++ (x, v) :: post) x y = pre ++ (x, y) :: post.
Proof.
  induction pre as [|[k w] pre IH]; simpl; intros Hx.
  - now rewrite key_eqb_refl.
  - destruct (key_eqb x k) eqn:E.
    + apply key_eqb_eq in E. subst. tauto.
    + rewrite IH; tauto.
Qed.

Lemma dict_set_absent (d : dict K) (x : K) (y : Qc) :
  ~ In x (keys d) -> dict_set d x y = d ++ [(x, y)].
Proof.
  induction d as [|[k v] d IH]; simpl; intros Hx; [reflexivity|].
  destruct (key_eqb x k) eqn:E.
  - apply key_eqb_eq in E. subst. tauto.
  - rewrite IH; tauto.
Qed.

Lemma keys_app (d1 d2 : dict K) : keys (d1 ++ d2) = keys d1 ++ keys d2.
Proof. apply map_app. Qed.

(** A loop over the dict's own keys that rewrites each entry in place
    is a [map] over the entries. *)
Lemma keys_map_entries (g : K -> Qc -> Qc) (d : dict K) :
  keys (map_entries g d) = keys d.
Proof.
  unfold keys, map_entries. rewrite map_map. reflexivity.
Qed.

Lemma fold_update_entry_gen (g : K -> Qc -> Qc) (post pre : dict K) :
  NoDup (keys (pre ++ post)) ->
  fold_left (update_entry g) (keys post) (pre ++ post)
  = pre ++ map_entries g post.
Proof.
  revert pre. induction post as [|[k v] post IH]; intros pre Hnd; simpl.
  - reflexivity.
  - assert (Hk : ~ In k (keys pre)).
    { rewrite keys_app in Hnd. simpl in Hnd.
      apply NoDup_remove_2 in Hnd. rewrite in_app_iff in Hnd. tauto. }
    unfold update_entry at 2. unfold dict_get.
    rewrite dict_lookup_middle, dict_set_middle by exact Hk.
    change (pre ++ (k, g k v) :: post) with (pre ++ [(k, g k v)] ++ post).
    rewrite app_assoc. rewrite IH.
    + rewrite <- app_assoc. reflexivity.
    + rewrite <- app_assoc. simpl.
      rewrite !keys_app in *. simpl in *. exact Hnd.
Qed.

Lemma fold_update_entry (g : K -> Qc -> Qc) (d : dict K) :
  NoDup (keys d) ->
  fold_left (update_entry g) (keys d) d = map_entries g d.
Proof.
  intros Hnd. apply (fold_update_entry_gen g d []). exact Hnd.
Qed.

Lemma Total_map_scale (d : dict K) (c : Qc) :
  DictWrapper.Total (map_entries (fun _ w => w * c) d)
  = DictWrapper.Total d * c.
Proof.
  unfold DictWrapper.Total, values, map_entries.
  rewrite map_map. simpl. rewrite <- py_sum_scale, map_map. reflexivity.
Qed.

(** *** Normalize *)

Lemma Normalize_zero (fraction : Qc) (d : dict K) :
  DictWrapper.Total d = 0 ->
  Pmf.Normalize fraction d = (d, Raise ZeroTotal).
Proof.
  intros Ht. unfold Pmf.Normalize.
  apply Qc_eqb_eq in Ht. now rewrite Ht.
Qed.

Lemma Normalize_nonzero (fraction : Qc) (d : dict K) :
  NoDup (keys d) ->
  DictWrapper.Total d <> 0 ->
  Pmf.Normalize fraction d
  = (map_entries (fun _ w => w * (fraction / DictWrapper.Total d)) d,
     Ok (DictWrapper.Total d)).
Proof.
  intros Hnd Ht. unfold Pmf.Normalize.
  apply Qc_eqb_neq in Ht. rewrite Ht. f_equal.
  apply (fold_update_entry (fun _ w => w * (fraction / DictWrapper.Total d))).
  exact Hnd.
Qed.
End DictFacts.


Lemma dict_lookup_app_other {K : Type} `{Hashable K}
    (d : dict K) (x k : K) (y : Qc) :
  k <> x -> dict_lookup (d ++ [(x, y)]) k = dict_lookup d k.
Proof.
  intros Hk. induction d as [|[k0 v] d IH]; simpl.
  - apply key_eqb_neq in Hk. now rewrite Hk.
  - now rewrite IH.
Qed.

(** C10.  [Mult(x, factor)] on a key that is not stored reads the absent
    weight as 0 and stores the product: afterwards [x] is a stored value
    with weight 0, one more than before and next to the old entries, which
    keep their weights; [Total()] is what it was. *)
Theorem Mult_absent_key {K : Type} `{Hashable K}
    (d : dict K) (x : K) (factor : Qc) :
  ~ In x (DictWrapper.Values d) ->
  let d' := DictWrapper.Mult x factor d in
  In x (DictWrapper.Values d')
  /\ dict_lookup d' x = Some 0
  /\ (forall k, In k (DictWrapper.Values d')
                <-> k = x \/ In k (DictWrapper.Values d))
  /\ (forall k, k <> x -> dict_lookup d' k = dict_lookup d k)
  /\ length (DictWrapper.Values d') = S (length (DictWrapper.Values d))
  /\ DictWrapper.Total d' = DictWrapper.Total d.
Proof.
  intros Hx. cbv zeta. unfold DictWrapper.Mult, dict_get.
  rewrite (dict_lookup_absent d x Hx), Qcmult_0_l.
  rewrite (dict_set_absent d x 0 Hx).
  unfold DictWrapper.Values, DictWrapper.Total, values.
  rewrite keys_app, map_app, py_sum_app. simpl.
  split; [|split; [|split; [|split; [|split]]]].
  - apply in_or_app. right. now left.
  - apply (dict_lookup_middle d [] x 0 Hx).
  - intros k. rewrite in_app_iff. simpl. intuition.
  - intros k Hk. now apply dict_lookup_app_other.
  - rewrite length_app. simpl. lia.
  - rewrite py_sum_cons, py_sum_nil. ring.
Qed.

(** ** Suite *)

Section MapEntries.
Context {K : Type} `{Hashable K}.

Lemma map_entries_fuse (f g : K -> Qc -> Qc) (d : dict K) :
  map_entries g (map_entries f d) = map_entries (fun k w => g k (f k w)) d.
Proof.
  unfold map_entries. rewrite map_map. reflexivity.
Qed.

Lemma map_entries_ext (f g : K -> Qc -> Qc) (d : dict K) :
  (forall k w, f k w = g k w) -> map_entries f d = map_entries g d.
Proof.
  intros Hfg. unfold map_entries. apply map_ext.
  intros [k w]. simpl. now rewrite Hfg.
Qed.

Lemma map_entries_id (d : dict K) : map_entries (fun _ w => w) d = d.
Proof.
  unfold map_entries. rewrite <- (map_id d) at 2. apply map_ext.
  now intros [k w].
Qed.

Lemma values_map_entries_nonneg (g : K -> Qc -> Qc) (d : dict K) :
  (forall k w, 0 <= w -> 0 <= g k w) ->
  Forall (Qcle 0) (values d) -> Forall (Qcle 0) (values (map_entries g d)).
Proof.
  intros Hg. unfold values, map_entries. rewrite map_map. simpl.
  induction d as [|[k w] d IH]; simpl; intros Hd; inversion Hd; subst;
    constructor; auto.
Qed.

Lemma nonneg_Total_zero (d : dict K) :
  Forall (Qcle 0) (values d) -> DictWrapper.Total d = 0 ->
  d = map_entries (fun _ _ => 0) d.
Proof.
  intros Hd Ht. apply py_sum_zero in Ht; [|exact Hd]. clear Hd.
  induction d as [|[k w] d IH]; simpl in *; [reflexivity|].
  inversion Ht; subst. f_equal. now apply IH.
Qed.

Lemma Total_zeroed (d : dict K) :
  DictWrapper.Total (map_entries (fun _ _ => 0) d) = 0.
Proof.
  rewrite (map_entries_ext _ (fun _ w => w * 0)), Total_map_scale.
  - ring.
  - intros. ring.
Qed.

Lemma Total_nonneg (d : dict K) :
  Forall (Qcle 0) (values d) -> 0 <= DictWrapper.Total d.
Proof. apply py_sum_nonneg. Qed.
End MapEntries.

Lemma Likelihood_nonneg (hypo data : string) : 0 <= Suite.Likelihood hypo data.
Proof.
  unfold Suite.Likelihood.
  destruct (String.eqb hypo data); [apply Qcle_refl|].
  destruct (String.eqb hypo "A"); [apply half_nonneg|].
  to_Q. lra.
Qed.

Lemma mult_likelihoods_map (data : string) (d : dict string) :
  dict_ok d ->
  Suite.mult_likelihoods data d
  = map_entries (fun hypo w => w * Suite.Likelihood hypo data) d.
Proof.
  intros Hnd. unfold Suite.mult_likelihoods, DictWrapper.Values.
  apply (fold_update_entry (fun hypo w => w * Suite.Likelihood hypo data)).
  exact Hnd.
Qed.

Lemma mult_likelihoods_ok (data : string) (d : dict string) :
  dict_ok d -> dict_ok (Suite.mult_likelihoods data d).
Proof.
  intros Hnd. rewrite mult_likelihoods_map by exact Hnd.
  unfold dict_ok. now rewrite keys_map_entries.
Qed.

Lemma mult_likelihoods_nonneg (data : string) (d : dict string) :
  dict_ok d -> Forall (Qcle 0) (values d) ->
  Forall (Qcle 0) (values (Suite.mult_likelihoods data d)).
Proof.
  intros Hnd Hd. rewrite mult_likelihoods_map by exact Hnd.
  apply values_map_entries_nonneg; [|exact Hd].
  intros k w Hw. apply Qcmult_nonneg; [exact Hw|apply Likelihood_nonneg].
Qed.

(** Once every weight is 0, further data leave the suite as it is. *)
Lemma mult_likelihoods_zeroed (dataset : list string) (d : dict string) :
  dict_ok d ->
  fold_left (fun d data => Suite.mult_likelihoods data d) dataset
            (map_entries (fun _ _ => 0) d)
  = map_entries (fun _ _ => 0) d.
Proof.
  intros Hnd. induction dataset as [|data rest IH]; simpl; [reflexivity|].
  rewrite mult_likelihoods_map, map_entries_fuse.
  - rewrite (map_entries_ext _ (fun _ _ => 0)); [exact IH|].
    intros. ring.
  - unfold dict_ok. now rewrite keys_map_entries.
Qed.

Lemma UpdateSet_cons (data : string) (rest : list string) (d : dict string) :
  Suite.UpdateSet (data :: rest) d
  = Suite.UpdateSet rest (Suite.mult_likelihoods data d).
Proof. reflexivity. Qed.

(** The batched update run on [d] and the one-by-one updates run on a
    positive multiple of [d] that sums to 1 end in the same dictionary, and
    one raises exactly when the other does. *)
Lemma UpdateSet_UpdateEach_scaled (dataset : list string) :
  forall (d : dict string) (c : Qc),
    dict_ok d -> Forall (Qcle 0) (values d) -> 0 < c ->
    DictWrapper.Total d * c = 1 ->
    let d' := map_entries (fun _ w => w * c) d in
    fst (Suite.UpdateSet dataset d) = fst (Suite.UpdateEach dataset d')
    /\ (raises (snd (Suite.UpdateSet dataset d))
        <-> raises (snd (Suite.UpdateEach dataset d'))).
Proof.
  induction dataset as [|data rest IH]; intros d c Hnd Hpos Hc Ht; cbv zeta;
    assert (Hcne : c <> 0)
      by (intros E; rewrite E in Hc; now apply (Qclt_not_eq 0 0 Hc)).
  - assert (Hne : DictWrapper.Total d <> 0).
    { intros E. rewrite E in Ht. ring_simplify in Ht.
      symmetry in Ht. now apply Q_apart_0_1 in Ht. }
    unfold Suite.UpdateSet. simpl fold_left.
    rewrite Normalize_nonzero by assumption. simpl. split.
    + apply map_entries_ext. intros _ w. f_equal.
      rewrite <- Ht. field. auto.
    + split; intros [e He]; discriminate.
  - rewrite UpdateSet_cons. simpl Suite.UpdateEach. unfold Suite.Update.
    set (d1 := Suite.mult_likelihoods data d).
    assert (Hnd1 : dict_ok d1) by now apply mult_likelihoods_ok.
    assert (Hpos1 : Forall (Qcle 0) (values d1))
      by now apply mult_likelihoods_nonneg.
    assert (Hd1 : Suite.mult_likelihoods data (map_entries (fun _ w => w * c) d)
                  = map_entries (fun _ w => w * c) d1).
    { unfold d1. rewrite !mult_likelihoods_map; [| exact Hnd |].
      - rewrite !map_entries_fuse. apply map_entries_ext. intros; ring.
      - unfold dict_ok. now rewrite keys_map_entries. }
    rewrite Hd1.
    assert (Hnd1' : NoDup (keys (map_entries (fun _ w => w * c) d1))).
    { now rewrite keys_map_entries. }
    destruct (Qc_eq_dec (DictWrapper.Total d1) 0) as [Hz|Hnz].
    + (* every weight is 0 after this datum: both raise *)
      rewrite (Normalize_zero 1 (map_entries (fun _ w => w * c) d1)).
      2:{ rewrite Total_map_scale, Hz. ring. }
      rewrite (nonneg_Total_zero d1 Hpos1 Hz).
      unfold Suite.UpdateSet. rewrite mult_likelihoods_zeroed by exact Hnd1.
      rewrite Normalize_zero by apply Total_zeroed.
      simpl. split.
      * rewrite map_entries_fuse. apply map_entries_ext. intros; ring.
      * split; intros _; eexists; reflexivity.
    + assert (Ht1 : 0 < DictWrapper.Total d1).
      { destruct (Qcle_lt_or_eq _ _ (Total_nonneg d1 Hpos1)) as [Hlt|E];
          [exact Hlt|congruence]. }
      assert (Hne' : DictWrapper.Total (map_entries (fun _ w => w * c) d1) <> 0).
      { rewrite Total_map_scale. intros E.
        apply Qcmult_integral in E. destruct E as [E|E]; congruence. }
      rewrite (Normalize_nonzero 1 _ Hnd1' Hne').
      rewrite map_entries_fuse, Total_map_scale.
      set (c' := c * (1 / (DictWrapper.Total d1 * c))).
      rewrite (map_entries_ext _ (fun _ w => w * c')) by (intros; unfold c'; ring).
      apply (IH d1 c' Hnd1 Hpos1).
      * unfold c'. unfold Qcdiv. rewrite Qcmult_1_l.
        rewrite Qcinv_mult_distr.
        auto using Qcmult_pos, Qcinv_pos.
      * unfold c'. field. auto.
Qed.

(** On a suite (non-negative weights over distinct hypotheses, summing
    to 1) the scaling above is by 1: the batched update and the one-by-one
    updates leave the same weights, and one raises exactly when the other
    does. *)
Lemma UpdateSet_UpdateEach_agree (d : dict string) (dataset : list string) :
  Suite_inv d ->
  fst (Suite.UpdateSet dataset d) = fst (Suite.UpdateEach dataset d)
  /\ (raises (snd (Suite.UpdateSet dataset d))
      <-> raises (snd (Suite.UpdateEach dataset d))).
Proof.
  intros (Hnd & Hpos & Ht).
  assert (Hgen := UpdateSet_UpdateEach_scaled dataset d 1 Hnd Hpos).
  cbv zeta in Hgen.
  rewrite (map_entries_ext _ (fun _ w => w)), map_entries_id in Hgen
    by (intros; ring).
  apply Hgen.
  - to_Q. lra.
  - rewrite Ht. ring.
Qed.

(** *** The invariant is what construction and updates establish *)

Section NormalizeInv.
Context {K : Type} `{Hashable K}.

Lemma In_keys_dict_set (d : dict K) (x k : K) (y : Qc) :
  In k (keys (dict_set d x y)) <-> k = x \/ In k (keys d).
Proof.
  induction d as [|[k0 v] d IH]; simpl.
  - intuition.
  - destruct (key_eqb x k0) eqn:E; simpl.
    + apply key_eqb_eq in E. subst. intuition.
    + rewrite IH. intuition.
Qed.

Lemma dict_set_ok (d : dict K) (x : K) (y : Qc) :
  dict_ok d -> dict_ok (dict_set d x y).
Proof.
  unfold dict_ok. induction d as [|[k v] d IH]; simpl; intros Hnd.
  - repeat constructor. simpl. tauto.
  - destruct (key_eqb x k) eqn:E; simpl; [exact Hnd|].
    inversion Hnd; subst. constructor; [|auto].
    rewrite In_keys_dict_set. apply key_eqb_neq in E. intuition.
Qed.

Lemma dict_set_Forall (P : Qc -> Prop) (d : dict K) (x : K) (y : Qc) :
  Forall P (values d) -> P y -> Forall P (values (dict_set d x y)).
Proof.
  induction d as [|[k v] d IH]; simpl; intros Hd Hy.
  - repeat constructor. exact Hy.
  - inversion Hd; subst.
    destruct (key_eqb x k); simpl; constructor; auto.
Qed.

Lemma Normalize_inv (d d' : dict K) (t : Qc) :
  dict_ok d -> Forall (Qcle 0) (values d) ->
  Pmf.Normalize 1 d = (d', Ok t) ->
  dict_ok d' /\ Forall (Qcle 0) (values d') /\ DictWrapper.Total d' = 1.
Proof.
  intros Hnd Hpos Hn.
  destruct (Qc_eq_dec (DictWrapper.Total d) 0) as [Hz|Hnz].
  - rewrite Normalize_zero in Hn by exact Hz. discriminate.
  - rewrite Normalize_nonzero in Hn by assumption.
    injection Hn as Hd' _. subst d'. repeat split.
    + unfold dict_ok. now rewrite keys_map_entries.
    + apply values_map_entries_nonneg; [|exact Hpos].
      intros _ w Hw. apply Qcmult_nonneg; [exact Hw|].
      unfold Qcdiv. rewrite Qcmult_1_l. apply Qclt_le_weak, Qcinv_pos.
      destruct (Qcle_lt_or_eq _ _ (Total_nonneg d Hpos)); congruence.
    + rewrite Total_map_scale. now field.
Qed.
End NormalizeInv.

Lemma fold_Set_inv (hypos : list string) (acc : dict string) :
  dict_ok acc -> Forall (Qcle 0) (values acc) ->
  let d := fold_left (fun d hypo => DictWrapper.Set_ hypo 1 d) hypos acc in
  dict_ok d /\ Forall (Qcle 0) (values d).
Proof.
  revert acc. induction hypos as [|h hypos IH]; intros acc Ha Hb; simpl.
  - now split.
  - apply IH.
    + now apply dict_set_ok.
    + apply dict_set_Forall; [exact Hb|]. to_Q. lra.
Qed.

Lemma Suite_init_inv (hypos : list string) (d : dict string) :
  Suite.init hypos = Ok d -> Suite_inv d.
Proof.
  unfold Suite.init.
  destruct (fold_Set_inv hypos [] (NoDup_nil _) (Forall_nil _)) as [Ha Hb].
  cbv zeta in Ha, Hb.
  destruct (Pmf.Normalize 1 _) as [d' [t|e]] eqn:E; [|discriminate].
  intros [= <-]. exact (Normalize_inv _ d' t Ha Hb E).
Qed.

Lemma Update_inv (data : string) (d d' : dict string) (t : Qc) :
  Suite_inv d -> Suite.Update data d = (d', Ok t) -> Suite_inv d'.
Proof.
  intros (Hnd & Hpos & _) Hu. unfold Suite.Update in Hu.
  apply (Normalize_inv _ _ _ (mult_likelihoods_ok data d Hnd)
                       (mult_likelihoods_nonneg data d Hnd Hpos) Hu).
Qed.

Lemma UpdateSet_inv (dataset : list string) (d d' : dict string) (t : Qc) :
  Suite_inv d -> Suite.UpdateSet dataset d = (d', Ok t) -> Suite_inv d'.
Proof.
  intros (Hnd & Hpos & _) Hu. unfold Suite.UpdateSet in Hu.
  refine (Normalize_inv _ _ _ _ _ Hu); clear Hu.
  - revert d Hnd Hpos.
    induction dataset as [|a rest IH]; intros d Hnd Hpos; simpl; [exact Hnd|].
    apply IH; auto using mult_likelihoods_ok, mult_likelihoods_nonneg.
  - revert d Hnd Hpos.
    induction dataset as [|a rest IH]; intros d Hnd Hpos; simpl; [exact Hpos|].
    apply IH; auto using mult_likelihoods_ok, mult_likelihoods_nonneg.
Qed.

Ltac qc_compute := apply Qc_is_canon; vm_compute; reflexivity.

(** C4.  The suite over ['A','B','C'] starts uniform at 1/3 each; after
    [Update('B')] the weights are A: 1/3, B: 0, C: 2/3 and the call
    returned 1/2, the total before normalizing. *)
Theorem Monty_Hall_update :
  exists prior : dict string,
    Suite.init doors = Ok prior
    /\ Permutation (DictWrapper.Values prior) doors
    /\ Pmf.Prob prior "A"%string 0 = Q2Qc (1 # 3)
    /\ Pmf.Prob prior "B"%string 0 = Q2Qc (1 # 3)
    /\ Pmf.Prob prior "C"%string 0 = Q2Qc (1 # 3)
    /\ snd (Suite.Update "B" prior) = Ok half
    /\ Permutation (DictWrapper.Values (fst (Suite.Update "B" prior))) doors
    /\ Pmf.Prob (fst (Suite.Update "B" prior)) "A"%string 0 = Q2Qc (1 # 3)
    /\ Pmf.Prob (fst (Suite.Update "B" prior)) "B"%string 0 = 0
    /\ Pmf.Prob (fst (Suite.Update "B" prior)) "C"%string 0 = Q2Qc (2 # 3).
Proof.
  eexists. split; [reflexivity|].
  repeat split; try apply Permutation_refl; try qc_compute.
  cbn. f_equal. qc_compute.
Qed.

(** ** Bisection *)

Section BisectFacts.
Context {A : Type} (ltb : A -> A -> bool).
Variables (a : list A) (x : A).

(** Along [a], once an entry is above [x] all later ones are. *)
Hypothesis ascending :
  forall i j yi yj, (i <= j)%nat ->
    nth_error a i = Some yi -> nth_error a j = Some yj ->
    ltb x yi = true -> ltb x yj = true.

Lemma bisect_loop_spec (fuel : nat) :
  forall lo hi,
    (lo <= hi <= length a)%nat -> (hi - lo < fuel)%nat ->
    (forall j y, (j < lo)%nat -> nth_error a j = Some y -> ltb x y = false) ->
    (forall j y, (hi <= j)%nat -> nth_error a j = Some y -> ltb x y = true) ->
    let r := bisect_loop ltb a x fuel lo hi in
    (lo <= r <= hi)%nat
    /\ (forall j y, (j < r)%nat -> nth_error a j = Some y -> ltb x y = false)
    /\ (forall j y, (r <= j)%nat -> nth_error a j = Some y -> ltb x y = true).
Proof.
  induction fuel as [|fuel IH]; intros lo hi Hb Hf Hlo Hhi; [lia|].
  cbn [bisect_loop]. destruct (Nat.ltb_spec lo hi) as [Hlt|Hge].
  - assert (Hmid : (lo <= (lo + hi) / 2 < hi)%nat).
    { split.
      - apply Nat.div_le_lower_bound; lia.
      - apply Nat.Div0.div_lt_upper_bound; lia. }
    cbv zeta. revert Hmid. generalize ((lo + hi) / 2)%nat. intros mid Hmid.
    destruct (nth_error a mid) as [am|] eqn:Em.
    + destruct (ltb x am) eqn:Ex.
      * destruct (IH lo mid) as (Hr & Hbelow & Habove); try lia; auto.
        { intros j y Hj Ey. exact (ascending mid j am y Hj Em Ey Ex). }
        cbv zeta in *. repeat split; auto; lia.
      * destruct (IH (mid + 1)%nat hi) as (Hr & Hbelow & Habove);
          try lia; auto.
        { intros j y Hj Ey. destruct (ltb x y) eqn:Ey'; [|reflexivity].
          rewrite <- Ex. symmetry.
          apply (ascending j mid y am); auto. lia. }
        cbv zeta in *. repeat split; auto; lia.
    + apply nth_error_None in Em. lia.
  - assert (lo = hi) by lia. subst hi. cbv zeta.
    repeat split; auto.
Qed.

Lemma bisect_spec :
  let r := bisect ltb a x in
  (r <= length a)%nat
  /\ (forall j y, (j < r)%nat -> nth_error a j = Some y -> ltb x y = false)
  /\ (forall j y, (r <= j)%nat -> nth_error a j = Some y -> ltb x y = true).
Proof.
  unfold bisect.
  destruct (bisect_loop_spec (S (length a)) 0 (length a)) as (Hr & Hb & Ha).
  - lia.
  - lia.
  - intros j y Hj. lia.
  - intros j y Hj Ey.
    assert (nth_error a j <> None) by congruence.
    apply nth_error_Some in H. lia.
  - cbv zeta in *. repeat split; auto; lia.
Qed.
End BisectFacts.

Lemma StronglySorted_nth {A : Type} (R : A -> A -> Prop) (l : list A) :
  StronglySorted R l ->
  forall i j yi yj, (i < j)%nat ->
    nth_error l i = Some yi -> nth_error l j = Some yj -> R yi yj.
Proof.
  induction 1 as [|y l Hl IH Hy]; intros i j yi yj Hij Ei Ej.
  - destruct i; discriminate.
  - destruct j as [|j]; [lia|]. simpl in Ej.
    destruct i as [|i]; simpl in Ei.
    + injection Ei as <-. rewrite Forall_forall in Hy.
      apply Hy. eapply nth_error_In; eauto.
    + apply (IH i j); auto. lia.
Qed.

Lemma Sorted_Zle_nth (l : list Z) :
  Sorted Z.le l ->
  forall i j yi yj, (i <= j)%nat ->
    nth_error l i = Some yi -> nth_error l j = Some yj -> (yi <= yj)%Z.
Proof.
  intros Hs i j yi yj Hij Ei Ej.
  apply Sorted_StronglySorted in Hs; [|intros u v w; apply Z.le_trans].
  destruct (Nat.eq_dec i j) as [->|Hne].
  - rewrite Ei in Ej. injection Ej as <-. lia.
  - apply (StronglySorted_nth Z.le l Hs i j); auto. lia.
Qed.

Lemma Sorted_Qcle_nth (l : list Qc) :
  Sorted Qcle l ->
  forall i j yi yj, (i <= j)%nat ->
    nth_error l i = Some yi -> nth_error l j = Some yj -> yi <= yj.
Proof.
  intros Hs i j yi yj Hij Ei Ej.
  apply Sorted_StronglySorted in Hs; [|intros u v w; apply Qcle_trans].
  destruct (Nat.eq_dec i j) as [->|Hne].
  - rewrite Ei in Ej. injection Ej as <-. apply Qcle_refl.
  - apply (StronglySorted_nth Qcle l Hs i j); auto. lia.
Qed.

Lemma bisect_Z_insertion_point (l : list Z) (x : Z) :
  Sorted Z.le l -> insertion_point_right Z.lt l x (bisect Z.ltb l x).
Proof.
  intros Hs.
  destruct (bisect_spec Z.ltb l x) as (Hr & Hb & Ha).
  - intros i j yi yj Hij Ei Ej. rewrite !Z.ltb_lt.
    pose proof (Sorted_Zle_nth l Hs i j yi yj Hij Ei Ej). lia.
  - cbv zeta in *. repeat split; auto.
    + intros j y Hj Ey. rewrite <- Z.ltb_lt. rewrite (Hb j y Hj Ey). discriminate.
    + intros j y Hj Ey. apply Z.ltb_lt. exact (Ha j y Hj Ey).
Qed.

Lemma bisect_Qc_insertion_point (l : list Qc) (x : Qc) :
  Sorted Qcle l -> insertion_point_right Qclt l x (bisect Qc_ltb l x).
Proof.
  intros Hs.
  destruct (bisect_spec Qc_ltb l x) as (Hr & Hb & Ha).
  - intros i j yi yj Hij Ei Ej. rewrite !Qc_ltb_lt. intros Hx.
    eapply Qclt_le_trans; [exact Hx|].
    exact (Sorted_Qcle_nth l Hs i j yi yj Hij Ei Ej).
  - cbv zeta in *. repeat split; auto.
    + intros j y Hj Ey. rewrite <- Qc_ltb_lt. rewrite (Hb j y Hj Ey). discriminate.
    + intros j y Hj Ey. apply Qc_ltb_lt. exact (Ha j y Hj Ey).
Qed.

(** ** Subscripts *)

Lemma py_index_nat {A : Type} (l : list A) (i : nat) :
  py_index l (Z.of_nat i) = nth_error l i.
Proof.
  unfold py_index.
  destruct (Z.leb_spec 0 (Z.of_nat i)); [|lia].
  now rewrite Nat2Z.id.
Qed.

Lemma py_index_pred {A : Type} (l : list A) (i : nat) :
  (1 <= i)%nat -> py_index l (Z.of_nat i - 1) = nth_error l (i - 1).
Proof.
  intros Hi. rewrite <- py_index_nat. f_equal. lia.
Qed.

Lemma nth_error_last {A : Type} (l : list A) (d : A) :
  l <> [] -> nth_error l (length l - 1) = Some (last l d).
Proof.
  induction l as [|y l IH]; intros Hl; [congruence|].
  destruct l as [|z l]; [reflexivity|].
  change (last (y :: z :: l) d) with (last (z :: l) d).
  rewrite <- IH by discriminate. simpl. now rewrite Nat.sub_0_r.
Qed.

Lemma py_index_minus_one {A : Type} (l : list A) (d : A) :
  l <> [] -> py_index l (-1) = Some (last l d).
Proof.
  intros Hl. unfold py_index.
  assert (1 <= length l)%nat by (destruct l; simpl; [congruence|lia]).
  destruct (Z.leb_spec 0 (-1)); [lia|].
  destruct (Z.leb_spec (- Z.of_nat (length l)) (-1)); [|lia].
  replace (Z.to_nat (Z.of_nat (length l) + -1)) with (length l - 1)%nat by lia.
  now apply nth_error_last.
Qed.

Lemma subscript_nth {A : Type} (l : list A) (i : nat) (y : A) :
  nth_error l i = Some y -> subscript l (Z.of_nat i) = Ok y.
Proof.
  intros E. unfold subscript. now rewrite py_index_nat, E.
Qed.

Lemma subscript_head {A : Type} (l : list A) (d : A) :
  l <> [] -> subscript l 0 = Ok (hd d l).
Proof.
  destruct l; [congruence|reflexivity].
Qed.

Lemma subscript_last {A : Type} (l : list A) (d : A) :
  l <> [] -> subscript l (-1) = Ok (last l d).
Proof.
  intros Hl. unfold subscript. now rewrite (py_index_minus_one l d Hl).
Qed.

Lemma nth_error_defined {A : Type} (l : list A) (i : nat) :
  (i < length l)%nat -> exists y, nth_error l i = Some y.
Proof.
  intros Hi. destruct (nth_error l i) eqn:E; [eauto|].
  apply nth_error_None in E. lia.
Qed.

(** ** Cdf lookups *)

Lemma Cdf_ok_nonempty_ps (c : cdf) : Cdf_ok c -> xs c <> [] -> ps c <> [].
Proof.
  intros (Hlen & _) Hx E. rewrite E in Hlen.
  destruct (xs c); [congruence|discriminate].
Qed.

Lemma sorted_head_least (l : list Z) :
  Sorted Z.le l -> Forall (Z.le (hd 0%Z l)) l.
Proof.
  intros Hs. apply Forall_forall. intros y Hy.
  destruct l as [|x0 l]; [contradiction|]. simpl.
  apply In_nth_error in Hy. destruct Hy as [j Hj].
  apply (Sorted_Zle_nth _ Hs 0 j); auto. lia.
Qed.

Lemma sorted_last_greatest (l : list Z) :
  Sorted Z.le l -> Forall (fun y => (y <= last l 0)%Z) l.
Proof.
  intros Hs. apply Forall_forall. intros y Hy.
  assert (Hl : l <> []) by (intros ->; contradiction).
  apply In_nth_error in Hy. destruct Hy as [j Hj].
  apply (Sorted_Zle_nth _ Hs j (length l - 1)); auto using nth_error_last.
  assert (nth_error l j <> None) by congruence.
  apply nth_error_Some in H. lia.
Qed.

(** C6.  On a properly constructed non-empty CDF, [Prob(x)] is 0 for [x]
    below the smallest stored value, and otherwise the cumulative
    probability stored just before the rightmost insertion point of [x]
    among the values. *)
Theorem Cdf_Prob_spec (c : cdf) (x : Z) :
  Cdf_ok c -> xs c <> [] ->
  ((x < hd 0 (xs c))%Z -> Cdf.Prob c x = Ok 0)
  /\ ((hd 0 (xs c) <= x)%Z ->
      exists i p,
        insertion_point_right Z.lt (xs c) x i
        /\ (1 <= i)%nat
        /\ nth_error (ps c) (i - 1) = Some p
        /\ Cdf.Prob c x = Ok p).
Proof.
  intros (Hlen & Hxs & _) Hne. unfold Cdf.Prob.
  rewrite (subscript_head (xs c) 0%Z Hne). split.
  - intros Hx. apply Z.ltb_lt in Hx. now rewrite Hx.
  - intros Hx. destruct (Z.ltb_spec x (hd 0%Z (xs c))) as [Hlt|_]; [lia|].
    pose proof (bisect_Z_insertion_point (xs c) x Hxs) as Hip.
    set (i := bisect Z.ltb (xs c) x) in *.
    assert (Hi : (1 <= i)%nat).
    { destruct Hip as (_ & _ & Ha). destruct i; [|lia].
      destruct (xs c) as [|x0 l] eqn:E; [congruence|].
      specialize (Ha 0%nat x0 (le_n 0) eq_refl). simpl in Hx. lia. }
    destruct (nth_error_defined (ps c) (i - 1)) as [p Hp].
    { destruct Hip as (Hb & _). lia. }
    exists i, p. repeat split; try apply Hip; auto.
    unfold subscript. now rewrite py_index_pred, Hp.
Qed.

Lemma Value_out_of_range (c : cdf) (p : Qc) :
  p < 0 \/ 1 < p -> Cdf.Value c p = Raise OutOfRange.
Proof.
  intros Hp. unfold Cdf.Value.
  replace (Qc_ltb p 0 || Qc_ltb 1 p) with true; [reflexivity|].
  symmetry. apply orb_true_iff. now rewrite !Qc_ltb_lt.
Qed.

Lemma Value_in_range (p : Qc) :
  0 <= p <= 1 -> Qc_ltb p 0 || Qc_ltb 1 p = false.
Proof.
  intros [H0 H1]. apply orb_false_iff. now rewrite !Qc_ltb_ge.
Qed.

(** Where [Value] takes its result from, for [p] strictly inside (0,1):
    [k = index - 1] when the cumulative probability there is [p], else
    [k = index]. *)
Lemma Value_interior (c : cdf) (p : Qc) :
  Cdf_ok c -> xs c <> [] -> 0 < p < 1 ->
  let i := bisect Qc_ltb (ps c) p in
  insertion_point_right Qclt (ps c) p i
  /\ (i < length (ps c))%nat
  /\ exists k v q,
      nth_error (xs c) k = Some v
      /\ nth_error (ps c) k = Some q
      /\ Cdf.Value c p = Ok v
      /\ ((S k = i /\ q = p)
          \/ (k = i /\ p < q
              /\ forall j q', S j = i -> nth_error (ps c) j = Some q' -> q' <> p)).
Proof.
  intros Hok Hne [Hp0 Hp1]. intros i.
  pose proof (Cdf_ok_nonempty_ps c Hok Hne) as Hnep.
  destruct Hok as (Hlen & Hxs & Hps & Hrange & Hlast).
  pose proof (bisect_Qc_insertion_point (ps c) p Hps) as Hip.
  fold i in Hip. destruct Hip as (Hile & Hbelow & Habove).
  assert (Hi : (i < length (ps c))%nat).
  { destruct (Nat.eq_dec i (length (ps c))) as [E|]; [|lia].
    exfalso. apply (Hbelow (length (ps c) - 1)%nat 1).
    - destruct (ps c); simpl in *; [congruence|lia].
    - rewrite (nth_error_last (ps c) 1 Hnep). now rewrite Hlast.
    - exact Hp1. }
  split; [repeat split; assumption|]. split; [exact Hi|].
  destruct (nth_error_defined (xs c) i) as [vi Hvi]; [lia|].
  destruct (nth_error_defined (ps c) i) as [qi Hqi]; [lia|].
  assert (Hpqi : p < qi) by exact (Habove i qi (le_n i) Hqi).
  unfold Cdf.Value. rewrite Value_in_range by (split; now apply Qclt_le_weak).
  replace (Qc_eqb p 0) with false
    by (symmetry; apply Qc_eqb_neq; intros E; rewrite E in Hp0;
        exact (Qclt_not_eq 0 0 Hp0 eq_refl)).
  replace (Qc_eqb p 1) with false
    by (symmetry; apply Qc_eqb_neq; intros E; rewrite E in Hp1;
        exact (Qclt_not_eq 1 1 Hp1 eq_refl)).
  fold i. destruct i as [|i'] eqn:Ei.
  - (* index 0: [ps[-1]] is the last entry, 1, which is not [p] *)
    simpl Z.of_nat. simpl Z.sub.
    rewrite (subscript_last (ps c) 1 Hnep), Hlast.
    replace (Qc_eqb p 1) with false
      by (symmetry; apply Qc_eqb_neq; intros E; rewrite E in Hp1;
          exact (Qclt_not_eq 1 1 Hp1 eq_refl)).
    change 0%Z with (Z.of_nat 0). rewrite (subscript_nth _ _ _ Hvi).
    exists 0%nat, vi, qi. repeat split; auto.
    right. repeat split; auto. intros j q' Hj. discriminate.
  - destruct (nth_error_defined (xs c) i') as [vl Hvl]; [lia|].
    destruct (nth_error_defined (ps c) i') as [ql Hql]; [lia|].
    unfold subscript at 1.
    rewrite py_index_pred by lia.
    replace (S i' - 1)%nat with i' by lia. rewrite Hql.
    destruct (Qc_eqb p ql) eqn:Eq.
    + apply Qc_eqb_eq in Eq. subst ql.
      unfold subscript. rewrite py_index_pred by lia.
      replace (S i' - 1)%nat with i' by lia. rewrite Hvl.
      exists i', vl, p. repeat split; auto.
    + apply Qc_eqb_neq in Eq.
      rewrite (subscript_nth _ _ _ Hvi).
      exists (S i'), vi, qi. repeat split; auto.
      right. repeat split; auto.
      intros j q' Hj Hq'. injection Hj as ->. congruence.
Qed.

(** C3 (as the code has it).  On a properly constructed non-empty CDF,
    [Value(p)] raises exactly when [p < 0] or [p > 1]; [Value(0)] is the
    smallest stored value and [Value(1)] the largest; for [p] strictly
    between, with [index] the rightmost insertion point of [p] among the
    cumulative probabilities, it returns the value at [index - 1] when the
    cumulative probability there is exactly [p] and the value at [index]
    otherwise.  That value is the smallest one whose cumulative
    probability is at least [p] whenever at most one entry has cumulative
    probability exactly [p]. *)
Theorem Cdf_Value_spec (c : cdf) (p : Qc) :
  Cdf_ok c -> xs c <> [] ->
  (raises (Cdf.Value c p) <-> p < 0 \/ 1 < p)
  /\ (p < 0 \/ 1 < p -> Cdf.Value c p = Raise OutOfRange)
  /\ (p = 0 -> Cdf.Value c p = Ok (hd 0%Z (xs c))
               /\ Forall (Z.le (hd 0%Z (xs c))) (xs c))
  /\ (p = 1 -> Cdf.Value c p = Ok (last (xs c) 0%Z)
               /\ Forall (fun x => (x <= last (xs c) 0)%Z) (xs c))
  /\ (0 < p < 1 ->
      exists i k v q,
        insertion_point_right Qclt (ps c) p i
        /\ nth_error (xs c) k = Some v
        /\ nth_error (ps c) k = Some q
        /\ Cdf.Value c p = Ok v
        /\ ((S k = i /\ q = p)
            \/ (k = i /\ p < q
                /\ forall j q', S j = i -> nth_error (ps c) j = Some q' ->
                                q' <> p))
        /\ (plateau_free c p -> smallest_value_reaching c p v)).
Proof.
  intros Hok Hne.
  assert (Hzero : Cdf.Value c 0 = Ok (hd 0%Z (xs c))).
  { unfold Cdf.Value. simpl. now apply subscript_head. }
  assert (Hone : Cdf.Value c 1 = Ok (last (xs c) 0%Z)).
  { unfold Cdf.Value. simpl. now apply subscript_last. }
  assert (Hinterior := Value_interior c p Hok Hne).
  assert (Hsorted : Sorted Z.le (xs c)) by apply Hok.
  assert (Hpsorted : Sorted Qcle (ps c)) by apply Hok.
  split; [|split; [apply Value_out_of_range|split; [|split]]].
  - split.
    + intros [e He].
      destruct (Qclt_le_dec p 0) as [|H0]; [now left|].
      destruct (Qclt_le_dec 1 p) as [|H1]; [now right|]. exfalso.
      destruct (Qcle_lt_or_eq _ _ H0) as [H0'|E0];
        [|subst p; congruence].
      destruct (Qcle_lt_or_eq _ _ H1) as [H1'|E1];
        [|subst p; congruence].
      destruct (Hinterior (conj H0' H1')) as (_ & _ & k & v & q & _ & _ & Hv & _).
      congruence.
    + intros Hp. rewrite (Value_out_of_range c p Hp). now exists OutOfRange.
  - intros ->. split; [exact Hzero|now apply sorted_head_least].
  - intros ->. split; [exact Hone|now apply sorted_last_greatest].
  - intros Hp. destruct (Hinterior Hp) as (Hip & Hi & k & v & q & Hv & Hq & Hval & Hk).
    exists (bisect Qc_ltb (ps c) p), k, v, q.
    repeat split; try apply Hip; auto.
    + exists k, q. repeat split; auto.
      destruct Hk as [[_ ->]|(_ & Hlt & _)];
        [apply Qcle_refl|now apply Qclt_le_weak].
    + intros j x qj Hx Hqj Hpq.
      destruct (Nat.le_gt_cases k j) as [Hkj|Hjk].
      { exact (Sorted_Zle_nth (xs c) Hsorted k j v x Hkj Hv Hx). }
      exfalso. destruct Hip as (_ & Hbelow & _).
      destruct Hk as [[Hki ->]|(Hki & Hlt & Hprev)].
      * (* the result sits on [p]; an earlier entry reaching [p] is a plateau *)
        assert (qj = p).
        { apply Qcle_antisym; [|exact Hpq].
          exact (Sorted_Qcle_nth (ps c) Hpsorted j k qj p (Nat.lt_le_incl _ _ Hjk) Hqj Hq). }
        subst qj. specialize (H j k Hqj Hq). lia.
      * (* the result sits above [p]; no earlier entry reaches [p] *)
        subst k. destruct (bisect Qc_ltb (ps c) p) as [|i'] eqn:Ei; [lia|].
        destruct (nth_error_defined (ps c) i') as [ql Hql]; [lia|].
        assert (Hqlp : ql <= p).
        { apply Qcnot_lt_le. exact (Hbelow i' ql (Nat.lt_succ_diag_r i') Hql). }
        assert (Hjl : qj <= ql).
        { apply (Sorted_Qcle_nth (ps c) Hpsorted j i'); auto. lia. }
        apply (Hprev i' ql eq_refl Hql).
        apply Qcle_antisym; [exact Hqlp|].
        eapply Qcle_trans; eauto.
Qed.

(** ** [sorted] *)

Lemma insert_item_Permutation (x : Z * Qc) (l : list (Z * Qc)) :
  Permutation (x :: l) (insert_item x l).
Proof.
  induction l as [|y l IH]; simpl; [reflexivity|].
  destruct (item_ltb y x); [|reflexivity].
  rewrite perm_swap. now apply perm_skip.
Qed.

Lemma sorted_Permutation (l : list (Z * Qc)) : Permutation l (sorted l).
Proof.
  induction l as [|x l IH]; simpl; [reflexivity|].
  rewrite <- insert_item_Permutation. now apply perm_skip.
Qed.

Lemma item_ltb_by_value (a b : Z * Qc) : item_ltb a b = true -> by_value a b.
Proof.
  unfold item_ltb, by_value. rewrite orb_true_iff, andb_true_iff.
  rewrite Z.ltb_lt, Z.eqb_eq. lia.
Qed.

Lemma item_ltb_false_by_value (a b : Z * Qc) :
  item_ltb a b = false -> by_value b a.
Proof.
  unfold item_ltb, by_value. rewrite orb_false_iff.
  rewrite Z.ltb_ge. tauto.
Qed.

Lemma insert_item_HdRel (y x : Z * Qc) (l : list (Z * Qc)) :
  by_value y x -> HdRel by_value y l -> HdRel by_value y (insert_item x l).
Proof.
  intros Hyx Hl. destruct l as [|z l]; simpl; [now constructor|].
  inversion Hl; subst. destruct (item_ltb z x); now constructor.
Qed.

Lemma insert_item_Sorted (x : Z * Qc) (l : list (Z * Qc)) :
  Sorted by_value l -> Sorted by_value (insert_item x l).
Proof.
  induction 1 as [|y l Hl IH Hy]; simpl.
  - repeat constructor.
  - destruct (item_ltb y x) eqn:E.
    + constructor; [exact IH|].
      apply insert_item_HdRel; [now apply item_ltb_by_value|exact Hy].
    + constructor; [now constructor|].
      constructor. now apply item_ltb_false_by_value.
Qed.

Lemma sorted_Sorted (l : list (Z * Qc)) : Sorted by_value (sorted l).
Proof.
  induction l as [|x l IH]; simpl; [constructor|].
  now apply insert_item_Sorted.
Qed.

Lemma Sorted_by_value_fst (l : list (Z * Qc)) :
  Sorted by_value l -> Sorted Z.le (map fst l).
Proof.
  induction 1 as [|y l Hl IH Hy]; simpl; constructor; auto.
  destruct Hy; simpl; now constructor.
Qed.

(** ** MakeCdfFromItems *)

Lemma cdf_items_loop (l : list (Z * Qc)) :
  forall (r : Qc) (xs0 : list Z) (cs0 : list Qc),
    fold_left cdf_items_step l (r, xs0, cs0)
    = (r + py_sum (map snd l), xs0 ++ map fst l, cs0 ++ runsums r (map snd l)).
Proof.
  induction l as [|[v c] l IH]; intros r xs0 cs0; simpl.
  - rewrite py_sum_nil, !app_nil_r. f_equal. f_equal. ring.
  - rewrite IH, py_sum_cons, <- !app_assoc. simpl.
    f_equal. f_equal. ring.
Qed.

Lemma div_all_nonzero (cs : list Qc) (total : Qc) :
  total <> 0 -> div_all cs total = Ok (map (fun c => c / total) cs).
Proof.
  intros Ht. induction cs as [|c cs IH]; simpl; [reflexivity|].
  unfold float_div. apply Qc_eqb_neq in Ht. now rewrite Ht, IH.
Qed.

Lemma MakeCdfFromItems_nonzero (items : list (Z * Qc)) :
  let l := sorted items in
  let total := py_sum (map snd items) in
  total <> 0 ->
  MakeCdfFromItems items
  = Ok (mkCdf (map fst l) (map (fun c => c / total) (runsums 0 (map snd l)))).
Proof.
  intros l total Ht. unfold MakeCdfFromItems. fold l.
  rewrite cdf_items_loop. simpl app.
  assert (E : 0 + py_sum (map snd l) = total).
  { unfold total, l. rewrite Qcplus_0_l. symmetry.
    apply py_sum_Permutation, Permutation_map, sorted_Permutation. }
  rewrite E, div_all_nonzero by exact Ht. reflexivity.
Qed.

Lemma runsums_length (l : list Qc) (r : Qc) : length (runsums r l) = length l.
Proof.
  revert r. induction l as [|c l IH]; intros r; simpl; [reflexivity|].
  now rewrite IH.
Qed.

Lemma runsums_last (l : list Qc) (r d : Qc) :
  l <> [] -> last (runsums r l) d = r + py_sum l.
Proof.
  revert r. induction l as [|c l IH]; intros r Hl; [congruence|].
  destruct l as [|c' l].
  - simpl. rewrite py_sum_cons, py_sum_nil. ring.
  - change (last (runsums r (c :: c' :: l)) d)
      with (last (runsums (r + c) (c' :: l)) d).
    rewrite IH by discriminate. rewrite (py_sum_cons c). ring.
Qed.

(** With positive counts the running sums climb from above [r] to
    [r + sum]. *)
Lemma runsums_bounds (l : list Qc) :
  Forall (Qclt 0) l ->
  forall r, Forall (fun s => r <= s <= r + py_sum l) (runsums r l).
Proof.
  induction 1 as [|c l Hc Hl IH]; intros r; simpl; constructor.
  - rewrite py_sum_cons.
    assert (0 <= py_sum l).
    { apply py_sum_nonneg. eapply Forall_impl; [|exact Hl].
      intros a. apply Qclt_le_weak. }
    split; to_Q; lra.
  - eapply Forall_impl; [|apply (IH (r + c))].
    intros s [H1 H2]. rewrite py_sum_cons. split; to_Q; lra.
Qed.

Lemma runsums_Sorted (l : list Qc) :
  Forall (Qclt 0) l -> forall r, Sorted Qcle (runsums r l).
Proof.
  induction 1 as [|c l Hc Hl IH]; intros r; simpl; constructor.
  - apply IH.
  - destruct l as [|c' l]; simpl; constructor.
    inversion Hl; subst. to_Q. lra.
Qed.

Lemma Qcdiv_le_compat (x y t : Qc) : 0 < t -> x <= y -> x / t <= y / t.
Proof.
  intros Ht Hxy. unfold Qcdiv. apply Qcmult_le_compat_r; [exact Hxy|].
  apply Qclt_le_weak, Qcinv_pos, Ht.
Qed.

Lemma Sorted_map_div (l : list Qc) (t : Qc) :
  0 < t -> Sorted Qcle l -> Sorted Qcle (map (fun c => c / t) l).
Proof.
  intros Ht. induction 1 as [|y l Hl IH Hy]; simpl; constructor; auto.
  destruct Hy; simpl; constructor. now apply Qcdiv_le_compat.
Qed.

Lemma py_sum_pos (l : list Qc) : l <> [] -> Forall (Qclt 0) l -> 0 < py_sum l.
Proof.
  intros Hl Hpos. destruct Hpos as [|c l Hc Hpos]; [congruence|].
  rewrite py_sum_cons, Qcplus_comm. apply Qcplus_pos_nonneg; [|exact Hc].
  apply py_sum_nonneg. eapply Forall_impl; [|exact Hpos].
  intros a. apply Qclt_le_weak.
Qed.

Lemma last_map_nonempty {A B : Type} (f : A -> B) (l : list A) (d : A) (d' : B) :
  l <> [] -> last (map f l) d' = f (last l d).
Proof.
  induction l as [|y l IH]; intros Hl; [congruence|].
  destruct l as [|z l]; [reflexivity|].
  change (last (map f (y :: z :: l)) d') with (last (map f (z :: l)) d').
  rewrite IH by discriminate. reflexivity.
Qed.

Lemma runsums_nonempty (l : list Qc) (r : Qc) : l <> [] -> runsums r l <> [].
Proof. destruct l; [congruence|discriminate]. Qed.

Lemma Qcdiv_self (t : Qc) : t <> 0 -> t / t = 1.
Proof. intros Ht. now field. Qed.

(** C7.  From a non-empty sequence of (value, count) pairs with positive
    counts, [MakeCdfFromItems] returns a CDF whose [xs] and [ps] have equal
    length, whose [xs] ascend, and whose [ps] are non-decreasing, lie in
    [0,1] and end at 1. *)
Theorem MakeCdfFromItems_invariant (items : list (Z * Qc)) :
  items <> [] -> Forall (Qclt 0) (map snd items) ->
  exists c : cdf,
    MakeCdfFromItems items = Ok c
    /\ length (xs c) = length (ps c)
    /\ xs c <> []
    /\ Sorted Z.le (xs c)
    /\ Sorted Qcle (ps c)
    /\ Forall (fun p => 0 <= p <= 1) (ps c)
    /\ last (ps c) 0 = 1.
Proof.
  intros Hne Hpos.
  assert (Ht : 0 < py_sum (map snd items)).
  { apply py_sum_pos; [|exact Hpos]. destruct items; [congruence|discriminate]. }
  assert (Htne : py_sum (map snd items) <> 0).
  { intros E. rewrite E in Ht. exact (Qclt_not_eq 0 0 Ht eq_refl). }
  pose proof (sorted_Permutation items) as Hperm.
  set (l := sorted items) in *.
  assert (Hposl : Forall (Qclt 0) (map snd l)).
  { rewrite Forall_forall in *. intros w Hw. apply Hpos.
    eapply Permutation_in; [|exact Hw].
    apply Permutation_map. now symmetry. }
  assert (Hsum : py_sum (map snd l) = py_sum (map snd items)).
  { symmetry. now apply py_sum_Permutation, Permutation_map. }
  assert (Hlne : map snd l <> []).
  { intros E. apply map_eq_nil in E. rewrite E in Hperm.
    symmetry in Hperm. apply Permutation_nil in Hperm. congruence. }
  eexists. split; [apply MakeCdfFromItems_nonzero; exact Htne|].
  fold l. cbn [xs ps]. repeat split.
  - now rewrite !length_map, runsums_length, length_map.
  - intros E. apply map_eq_nil in E. rewrite E in Hlne. now apply Hlne.
  - apply Sorted_by_value_fst, sorted_Sorted.
  - apply Sorted_map_div; [exact Ht|]. now apply runsums_Sorted.
  - apply Forall_map. eapply Forall_impl; [|apply (runsums_bounds _ Hposl 0)].
    intros s [H1 H2]. cbv beta. rewrite Hsum, Qcplus_0_l in H2. split.
    + apply Qcmult_nonneg; [exact H1|]. apply Qclt_le_weak, Qcinv_pos, Ht.
    + rewrite <- (Qcdiv_self _ Htne). now apply Qcdiv_le_compat.
  - rewrite (last_map_nonempty _ _ 0) by now apply runsums_nonempty.
    rewrite (runsums_last _ 0 _ Hlne), Hsum, Qcplus_0_l.
    now apply Qcdiv_self.
Qed.

(** ** Histogram to PMF to CDF and back *)

Section LookupFacts.
Context {K : Type} `{Hashable K}.

Lemma dict_lookup_None (d : dict K) (x : K) :
  dict_lookup d x = None -> ~ In x (keys d).
Proof.
  induction d as [|[k v] d IH]; simpl; [tauto|].
  destruct (key_eqb x k) eqn:E; [discriminate|].
  apply key_eqb_neq in E. intros Hl [Hk|Hin]; [congruence|].
  now apply IH.
Qed.

Lemma dict_lookup_Permutation (d1 d2 : dict K) (x : K) :
  Permutation d1 d2 -> dict_ok d1 -> dict_lookup d1 x = dict_lookup d2 x.
Proof.
  intros Hp Hnd.
  assert (Hnd2 : dict_ok d2).
  { unfold dict_ok, keys in *.
    eapply Permutation_NoDup; [|exact Hnd]. now apply Permutation_map. }
  destruct (dict_lookup d1 x) as [v|] eqn:E.
  - symmetry. apply dict_lookup_In; [exact Hnd2|].
    eapply Permutation_in; [exact Hp|]. now apply dict_lookup_Some_In.
  - symmetry. apply dict_lookup_absent. intros Hin.
    apply (dict_lookup_None d1 x E).
    eapply Permutation_in; [|exact Hin].
    apply Permutation_map. now symmetry.
Qed.

Lemma dict_lookup_map_entries (g : K -> Qc -> Qc) (d : dict K) (x : K) :
  dict_lookup (map_entries g d) x = option_map (g x) (dict_lookup d x).
Proof.
  induction d as [|[k v] d IH]; simpl; [reflexivity|].
  destruct (key_eqb x k) eqn:E; [|exact IH].
  apply key_eqb_eq in E. now subst.
Qed.

Lemma MakePmfFromHist_nonzero (hist : dict K) :
  dict_ok hist -> DictWrapper.Total hist <> 0 ->
  MakePmfFromHist hist
  = Ok (map_entries (fun _ w => w * (1 / DictWrapper.Total hist)) hist).
Proof.
  intros Hnd Ht. unfold MakePmfFromHist.
  now rewrite Normalize_nonzero.
Qed.
End LookupFacts.

Lemma is_count_pos (w : Qc) : is_count w -> 0 < w.
Proof.
  intros [n ->]. unfold Qc_of_Z. to_Q. unfold Qlt. simpl. lia.
Qed.

Lemma pmf_from_cdf_loop (t : Qc) (l : list (Z * Qc)) :
  t <> 0 ->
  forall (acc : dict Z) (r : Qc),
    NoDup (keys acc ++ map fst l) ->
    fold_left pmf_from_cdf_step
      (combine (map fst l) (map (fun c => c / t) (runsums r (map snd l))))
      (acc, r / t)
    = (acc ++ map_entries (fun _ w => w / t) l, (r + py_sum (map snd l)) / t).
Proof.
  intros Ht. induction l as [|[k w] l IH]; intros acc r Hnd; simpl.
  - rewrite py_sum_nil, app_nil_r. f_equal. f_equal. ring.
  - assert (Hk : ~ In k (keys acc)).
    { apply NoDup_remove_2 in Hnd. rewrite in_app_iff in Hnd. tauto. }
    unfold DictWrapper.Incr, dict_get.
    rewrite (dict_lookup_absent acc k Hk), (dict_set_absent acc k _ Hk).
    rewrite IH.
    + rewrite <- app_assoc, py_sum_cons. simpl. f_equal.
      * f_equal. f_equal. f_equal. now field.
      * f_equal. ring.
    + rewrite keys_app, <- app_assoc. exact Hnd.
Qed.

Lemma MakePmfFromCdf_runsums (t : Qc) (l : list (Z * Qc)) :
  t <> 0 -> NoDup (map fst l) ->
  MakePmfFromCdf
    (mkCdf (map fst l) (map (fun c => c / t) (runsums 0 (map snd l))))
  = map_entries (fun _ w => w / t) l.
Proof.
  intros Ht Hnd. unfold MakePmfFromCdf, Cdf.Items. cbn [xs ps].
  assert (E : (0 : Qc) = 0 / t) by now field.
  pose proof (pmf_from_cdf_loop t l Ht [] 0 Hnd) as Hloop.
  rewrite <- E in Hloop. exact (f_equal fst Hloop).
Qed.

(** A normalized PMF survives the trip through its CDF, up to the order
    of its entries. *)
Lemma Pmf_Cdf_Pmf (pmf : dict Z) :
  dict_ok pmf -> DictWrapper.Total pmf = 1 ->
  exists c, MakeCdfFromPmf pmf = Ok c /\ MakePmfFromCdf c = sorted pmf.
Proof.
  intros Hnd Ht. unfold MakeCdfFromPmf, DictWrapper.Items.
  assert (H1 : (1 : Qc) <> 0) by exact Q_apart_0_1.
  assert (Hs : py_sum (map snd pmf) = 1) by exact Ht.
  eexists. split.
  - apply MakeCdfFromItems_nonzero. now rewrite Hs.
  - rewrite Hs, MakePmfFromCdf_runsums; [|exact H1|].
    + rewrite <- (map_entries_id (sorted pmf)) at 2.
      apply map_entries_ext. intros _ w. now field.
    + eapply Permutation_NoDup; [|exact Hnd].
      apply Permutation_map, sorted_Permutation.
Qed.

(** C5.  For a non-empty histogram with positive integer frequencies, the
    PMF recovered from the CDF of its PMF gives every value the mass the
    normalized histogram gives it, [Freq(x) / Total()]. *)
Theorem Hist_Pmf_Cdf_Pmf_roundtrip (hist : dict Z) :
  dict_ok hist -> hist <> [] -> Forall is_count (values hist) ->
  exists (pmf : dict Z) (c : cdf),
    MakePmfFromHist hist = Ok pmf
    /\ MakeCdfFromPmf pmf = Ok c
    /\ forall x : Z,
         dict_lookup (MakePmfFromCdf c) x = dict_lookup pmf x
         /\ Pmf.Prob (MakePmfFromCdf c) x 0 = Pmf.Prob pmf x 0
         /\ Pmf.Prob pmf x 0 = Hist.Freq hist x / DictWrapper.Total hist.
Proof.
  intros Hnd Hne Hcount.
  assert (Hpos : Forall (Qclt 0) (values hist)).
  { eapply Forall_impl; [|exact Hcount]. apply is_count_pos. }
  assert (Ht : 0 < DictWrapper.Total hist).
  { apply py_sum_pos; [|exact Hpos]. destruct hist; [congruence|discriminate]. }
  assert (Htne : DictWrapper.Total hist <> 0).
  { intros E. rewrite E in Ht. exact (Qclt_not_eq 0 0 Ht eq_refl). }
  set (pmf := map_entries (fun _ w => w * (1 / DictWrapper.Total hist)) hist).
  assert (Hpmf : dict_ok pmf).
  { unfold dict_ok, pmf. now rewrite keys_map_entries. }
  assert (Hone : DictWrapper.Total pmf = 1).
  { unfold pmf. rewrite Total_map_scale. now field. }
  destruct (Pmf_Cdf_Pmf pmf Hpmf Hone) as (c & Hc & Hback).
  exists pmf, c. split; [now apply MakePmfFromHist_nonzero|].
  split; [exact Hc|]. intros x.
  assert (Hl : dict_lookup (MakePmfFromCdf c) x = dict_lookup pmf x).
  { rewrite Hback. symmetry.
    apply dict_lookup_Permutation; [apply sorted_Permutation|exact Hpmf]. }
  split; [exact Hl|]. split.
  - unfold Pmf.Prob, dict_get. now rewrite Hl.
  - unfold Pmf.Prob, Hist.Freq, dict_get, pmf.
    rewrite dict_lookup_map_entries.
    destruct (dict_lookup hist x); simpl; now field.
Qed.

(** ** The free function Percentile *)

(** In whatever order the items come, the loop returns the first value at
    which the accumulated weight reaches [p]. *)
Lemma percentile_loop_first_reaching {K : Type} (items : list (K * Qc)) :
  forall (total p : Qc) (v : K),
    percentile_loop items total p = Some v ->
    exists pre w post,
      items = pre ++ (v, w) :: post
      /\ p <= total + py_sum (map snd pre) + w
      /\ (forall pre1 u wu pre2,
            pre = pre1 ++ (u, wu) :: pre2 ->
            total + py_sum (map snd pre1) + wu < p).
Proof.
  induction items as [|[val prob] items IH]; intros total p v; simpl;
    [discriminate|].
  destruct (Qc_leb p (total + prob)) eqn:E.
  - intros [= <-]. exists [], prob, items. split; [reflexivity|]. split.
    + apply Qc_leb_le in E. cbn [map]. rewrite py_sum_nil.
      now replace (total + 0 + prob) with (total + prob) by ring.
    + intros pre1 u wu pre2 Hpre. destruct pre1; discriminate.
  - intros Hloop. destruct (IH _ _ _ Hloop) as (pre & w & post & -> & Hp & Hlt).
    exists ((val, prob) :: pre), w, post. split; [reflexivity|]. split.
    + simpl. rewrite py_sum_cons.
      now replace (total + (prob + py_sum (map snd pre)) + w)
        with (total + prob + py_sum (map snd pre) + w) by ring.
    + intros pre1 u wu pre2 Hpre. destruct pre1 as [|a pre1].
      * injection Hpre as _ <- _. cbn [map]. rewrite py_sum_nil.
        replace (total + 0 + prob) with (total + prob) by ring.
        apply Qcnot_le_lt. rewrite <- Qc_leb_le. congruence.
      * injection Hpre as <- Hpre. simpl. rewrite py_sum_cons.
        replace (total + (prob + py_sum (map snd pre1)) + wu)
          with (total + prob + py_sum (map snd pre1) + wu) by ring.
        now apply (Hlt pre1 u wu pre2).
Qed.

Lemma ascending_split (pre post : dict Z) (v : Z) (w : Qc) :
  StronglySorted Z.lt (keys (pre ++ (v, w) :: post)) ->
  Forall (fun kv => (fst kv < v)%Z) pre
  /\ Forall (fun kv => (v < fst kv)%Z) post.
Proof.
  induction pre as [|a pre IH]; simpl; intros Hs; inversion Hs as [|? ? Hs' Ha];
    subst.
  - split; [constructor|]. unfold keys in Ha. now rewrite Forall_map in Ha.
  - destruct (IH Hs') as [Hpre Hpost]. split; [|exact Hpost].
    constructor; [|exact Hpre].
    rewrite Forall_forall in Ha. apply Ha.
    unfold keys. rewrite map_app. apply in_or_app. right. now left.
Qed.

Lemma cumulative_mass_ascending (pre post : dict Z) (v : Z) (w : Qc) :
  StronglySorted Z.lt (keys (pre ++ (v, w) :: post)) ->
  cumulative_mass (pre ++ (v, w) :: post) v = py_sum (map snd pre) + w.
Proof.
  intros Hs. destruct (ascending_split pre post v w Hs) as [Hpre Hpost].
  unfold cumulative_mass. rewrite filter_app. simpl.
  rewrite Z.leb_refl.
  assert (E1 : filter (fun kv => (fst kv <=? v)%Z) pre = pre).
  { clear Hs. induction Hpre as [|a pre Ha _ IH]; simpl; [reflexivity|].
    destruct (Z.leb_spec (fst a) v); [now rewrite IH|lia]. }
  assert (E2 : filter (fun kv => (fst kv <=? v)%Z) post = []).
  { clear Hs. induction Hpost as [|a post Ha _ IH]; simpl; [reflexivity|].
    destruct (Z.leb_spec (fst a) v); [lia|exact IH]. }
  rewrite E1, E2, map_app, py_sum_app. simpl.
  now rewrite py_sum_cons, py_sum_nil, Qcplus_0_r.
Qed.

(** When the dict happens to list its values in ascending order, the walk
    does find the smallest value whose cumulative mass reaches pct/100. *)
Lemma Percentile_on_ascending_items (pmf : dict Z) (percentage : Qc) (v : Z) :
  StronglySorted Z.lt (keys pmf) ->
  Percentile pmf percentage = Some v ->
  smallest_value_with_mass pmf (percentage / Q2Qc 100) v.
Proof.
  intros Hs Hp. unfold Percentile, DictWrapper.Items in Hp.
  apply percentile_loop_first_reaching in Hp.
  destruct Hp as (pre & w & post & -> & Hreach & Hbefore).
  pose proof (ascending_split pre post v w Hs) as [Hpre Hpost].
  split; [|split].
  - unfold keys. rewrite map_app. apply in_or_app. right. now left.
  - rewrite (cumulative_mass_ascending pre post v w Hs).
    now rewrite Qcplus_0_l in Hreach.
  - intros u Hu Hmass. destruct (Z.le_gt_cases v u) as [|Huv]; [assumption|].
    exfalso. unfold keys in Hu. rewrite map_app in Hu.
    apply in_app_or in Hu. simpl in Hu. destruct Hu as [Hu|[Hu|Hu]].
    + apply in_map_iff in Hu. destruct Hu as ([u' wu] & Eu & Hin).
      simpl in Eu. subst u'. apply in_split in Hin.
      destruct Hin as (pre1 & pre2 & ->).
      specialize (Hbefore pre1 u wu pre2 eq_refl).
      rewrite <- app_assoc in Hs, Hmass. simpl in Hs, Hmass.
      rewrite (cumulative_mass_ascending pre1 _ u wu Hs) in Hmass.
      rewrite Qcplus_0_l in Hbefore.
      exact (Qclt_not_le _ _ Hbefore Hmass).
    + lia.
    + apply in_map_iff in Hu. destruct Hu as (kv & Eu & Hin).
      rewrite Forall_forall in Hpost. specialize (Hpost kv Hin). lia.
Qed.

(** C8 (what the code does).  [Percentile] walks [pmf.Items()], the dict's
    own iteration order: on the PMF {8: 1/2, 1: 1/2}, whose dict lists 8
    first, [Percentile(pmf, 50)] stops at once and returns 8, although the
    smallest value whose cumulative mass reaches 50/100 is 1. *)
Theorem Percentile_walks_iteration_order :
  dict_ok pmf_8_1
  /\ DictWrapper.Total pmf_8_1 = 1
  /\ Percentile pmf_8_1 (Q2Qc 50) = Some 8%Z
  /\ smallest_value_with_mass pmf_8_1 (Q2Qc 50 / Q2Qc 100) 1%Z.
Proof.
  split; [|split; [|split]].
  - repeat constructor; simpl; intuition discriminate.
  - qc_compute.
  - reflexivity.
  - split; [|split].
    + simpl. tauto.
    + vm_compute. discriminate.
    + intros u Hu _. simpl in Hu. destruct Hu as [<-|[<-|[]]]; lia.
Qed.

(** ** MakeCdfFromList *)

(** C9 (what the code does).  [MakeCdfFromList] asks the class [Pmf] for an
    attribute [MakeHistFromList], which the class does not have: the call
    raises AttributeError on every sequence, while tallying the same
    sequence with [MakeHistFromList] and handing the histogram to
    [MakeCdfFromHist] succeeds on [1, 2, 2, 3, 3, 3]. *)
Theorem MakeCdfFromList_raises :
  (forall seq : list Z,
     MakeCdfFromList seq = Raise (AttributeError "MakeHistFromList"))
  /\ exists c, MakeCdfFromHist (MakeHistFromList [1; 2; 2; 3; 3; 3]%Z) = Ok c
               /\ xs c = [1; 2; 3]%Z
               /\ map this (ps c) = [1 # 6; 1 # 2; 1]%Q.
Proof.
  split.
  - intros seq. reflexivity.
  - eexists. split; [reflexivity|]. split; reflexivity.
Qed.

(** ** Plateaus in a CDF *)

Lemma list_Qc_ext (l1 l2 : list Qc) : map this l1 = map this l2 -> l1 = l2.
Proof.
  revert l2. induction l1 as [|a l1 IH]; intros [|b l2]; simpl;
    try discriminate; [reflexivity|].
  intros [= Hab Hl]. f_equal; [now apply Qc_decomp|now apply IH].
Qed.

Lemma outcome_cdf_ext (o : outcome cdf) (c : cdf) :
  match o with
  | Ok c' => xs c' = xs c /\ map this (ps c') = map this (ps c)
  | Raise _ => False
  end -> o = Ok c.
Proof.
  destruct o as [[xs' ps']|e]; [|tauto]. destruct c as [xs0 ps0]. simpl.
  intros [-> Hps]. now rewrite (list_Qc_ext _ _ Hps).
Qed.

(** C3, as first stated, fails.  The CDF of the items (1, 1), (2, 0), (3, 1)
    is properly constructed, with cumulative probabilities 1/2, 1/2, 1;
    [Value(1/2)] returns 2, the upper end of the plateau, while the value
    1 already has cumulative probability 1/2. *)
Lemma Cdf_Value_plateau :
  MakeCdfFromItems items_with_zero = Ok cdf_plateau
  /\ Cdf_ok cdf_plateau
  /\ xs cdf_plateau <> []
  /\ 0 < half < 1
  /\ Cdf.Value cdf_plateau half = Ok 2%Z
  /\ ~ smallest_value_reaching cdf_plateau half 2%Z.
Proof.
  split; [|split; [|split; [|split; [|split]]]].
  - apply outcome_cdf_ext. vm_compute. split; reflexivity.
  - split; [reflexivity|]. split; [repeat constructor; vm_compute; discriminate|].
    split; [repeat constructor; vm_compute; discriminate|].
    split; [repeat constructor; vm_compute; discriminate|reflexivity].
  - discriminate.
  - split; vm_compute; reflexivity.
  - reflexivity.
  - intros [_ Hmin].
    assert (H21 : (2 <= 1)%Z).
    { apply (Hmin 0%nat 1%Z half eq_refl eq_refl). apply Qcle_refl. }
    lia.
Qed.

(** ** UpdateSet against Update per datum *)

Lemma joint_likelihood_from (hypo : string) (dataset : list string) (a : Qc) :
  fold_left (fun acc data => acc * Suite.Likelihood hypo data) dataset a
  = a * joint_likelihood hypo dataset.
Proof.
  unfold joint_likelihood. revert a.
  induction dataset as [|data rest IH]; intros a; simpl.
  - ring.
  - rewrite IH, (IH (1 * _)). ring.
Qed.

Lemma joint_likelihood_cons (hypo data : string) (rest : list string) :
  joint_likelihood hypo (data :: rest)
  = Suite.Likelihood hypo data * joint_likelihood hypo rest.
Proof.
  unfold joint_likelihood at 1. simpl. rewrite joint_likelihood_from. ring.
Qed.

Lemma mult_likelihoods_all (dataset : list string) :
  forall d : dict string,
    dict_ok d ->
    fold_left (fun d data => Suite.mult_likelihoods data d) dataset d
    = map_entries (fun hypo w => w * joint_likelihood hypo dataset) d.
Proof.
  induction dataset as [|data rest IH]; intros d Hok; simpl.
  - rewrite <- (map_entries_id d) at 1. apply map_entries_ext.
    intros h w. unfold joint_likelihood. simpl. ring.
  - rewrite IH by now apply mult_likelihoods_ok.
    rewrite mult_likelihoods_map by exact Hok.
    rewrite map_entries_fuse. apply map_entries_ext.
    intros h w. rewrite joint_likelihood_cons. ring.
Qed.

Lemma Total_map_entries {K : Type} `{Hashable K} (g : K -> Qc -> Qc) (d : dict K) :
  DictWrapper.Total (map_entries g d)
  = py_sum (map (fun it => g (fst it) (snd it)) d).
Proof.
  unfold DictWrapper.Total, values, map_entries. now rewrite map_map.
Qed.

Lemma UpdateSet_result (dataset : list string) (d : dict string) :
  dict_ok d ->
  (evidence dataset d = 0 ->
     snd (Suite.UpdateSet dataset d) = Raise ZeroTotal)
  /\ (evidence dataset d <> 0 ->
      exists d' : dict string,
        Suite.UpdateSet dataset d = (d', Ok (evidence dataset d))
        /\ (forall hypo,
              Pmf.Prob d' hypo 0
              = Pmf.Prob d hypo 0 * joint_likelihood hypo dataset
                / evidence dataset d)
        /\ DictWrapper.Values d' = DictWrapper.Values d
        /\ DictWrapper.Total d' = 1).
Proof.
  intros Hok. unfold Suite.UpdateSet.
  rewrite mult_likelihoods_all by exact Hok.
  set (d1 := map_entries (fun hypo w => w * joint_likelihood hypo dataset) d).
  assert (Ht : DictWrapper.Total d1 = evidence dataset d).
  { unfold d1. now rewrite Total_map_entries. }
  assert (Hok1 : dict_ok d1).
  { unfold dict_ok, d1. now rewrite keys_map_entries. }
  split.
  - intros Hz. rewrite Normalize_zero; [reflexivity|congruence].
  - intros Hnz. rewrite Normalize_nonzero; [|exact Hok1|congruence].
    rewrite Ht.
    exists (map_entries (fun _ w => w * (1 / evidence dataset d)) d1).
    split; [reflexivity|]. split; [|split].
    + intros hypo. unfold Pmf.Prob, dict_get, d1.
      rewrite !dict_lookup_map_entries.
      destruct (dict_lookup d hypo); simpl; now field.
    + unfold DictWrapper.Values, d1. now rewrite !keys_map_entries.
    + rewrite Total_map_scale, Ht. now field.
Qed.

(** C1, under exact arithmetic.  On a suite (non-negative weights over
    distinct hypotheses, summing to 1) and any sequence of data,
    [UpdateSet] multiplies the weight of every hypothesis by its
    [Likelihood] for every datum and normalizes the products once: when
    their sum, the probability of the data under the prior, is not 0, it
    returns that sum and leaves every hypothesis with its prior weight
    times the product of its likelihoods, divided by the sum.  These are
    the weights that [Update] called once per datum in order leaves, and
    the batched call raises exactly when the sequence of single calls
    does. *)
Theorem UpdateSet_eq_UpdateEach (d : dict string) (dataset : list string) :
  Suite_inv d ->
  Suite.UpdateSet dataset d
  = Pmf.Normalize 1
      (map_entries (fun hypo w => w * joint_likelihood hypo dataset) d)
  /\ (evidence dataset d <> 0 ->
      snd (Suite.UpdateSet dataset d) = Ok (evidence dataset d)
      /\ forall hypo,
           Pmf.Prob (fst (Suite.UpdateSet dataset d)) hypo 0
           = Pmf.Prob d hypo 0 * joint_likelihood hypo dataset
             / evidence dataset d)
  /\ fst (Suite.UpdateSet dataset d) = fst (Suite.UpdateEach dataset d)
  /\ (raises (snd (Suite.UpdateSet dataset d))
      <-> raises (snd (Suite.UpdateEach dataset d))).
Proof.
  intros Hinv. pose proof Hinv as (Hok & _ & _).
  split; [|split].
  - unfold Suite.UpdateSet. now rewrite mult_likelihoods_all.
  - intros Hnz.
    destruct (proj2 (UpdateSet_result dataset d Hok) Hnz) as (d' & Hu & Hp & _).
    rewrite Hu. split; [reflexivity|exact Hp].
  - exact (UpdateSet_UpdateEach_agree d dataset Hinv).
Qed.

(** C1 as stated fails on floats.  [Suite(['A','B','C'])] starts at 1/3
    each.  Under [UpdateSet(['B','C']*540)] the weight of A is halved 1080
    times without a [Normalize] in between and underflows to 0.0, the
    weights of B and C are 0.0 from the first two data on, and [Normalize]
    raises the ValueError of a zero total, leaving all three weights 0.0.
    [Update] called on each of the same 1080 data normalizes every time
    and ends, without raising, at A: 1.0, B: 0.0, C: 0.0. *)
Lemma UpdateSet_underflow :
  exists prior : Binary64.fdict,
    Binary64.init doors = Ok prior
    /\ Binary64.UpdateSet (BC_pairs 540) prior
       = ([("A"%string, 0%float); ("B"%string, 0%float);
           ("C"%string, 0%float)], Raise ZeroTotal)
    /\ Binary64.UpdateEach (BC_pairs 540) prior
       = ([("A"%string, 1%float); ("B"%string, 0%float);
           ("C"%string, 0%float)], Ok tt).
Proof.
  eexists. split; [reflexivity|].
  split; vm_compute; reflexivity.
Qed.

(** ** The theorems at sample inputs *)

Ltac nodup_keys := repeat constructor; simpl; intuition discriminate.
Ltac forall_computed := repeat constructor; vm_compute; discriminate.

Lemma uniform_doors_inv : Suite_inv uniform_doors.
Proof.
  split; [nodup_keys|]. split; [forall_computed|qc_compute].
Defined.

Lemma cdf_122333_ok : Cdf_ok cdf_122333.
Proof.
  split; [reflexivity|]. split; [forall_computed|].
  split; [forall_computed|]. split; [|qc_compute].
  repeat constructor; vm_compute; discriminate.
Defined.

Lemma evidence_doors_nonzero : evidence ["B"; "C"]%string uniform_doors <> 0.
Proof. intros E. apply Qc_eq_Q in E. vm_compute in E. discriminate. Defined.

Lemma UpdateSet_eq_UpdateEach_witness :
  Suite_inv uniform_doors
  /\ evidence ["B"; "C"]%string uniform_doors <> 0
  /\ Suite.UpdateSet ["B"; "C"]%string uniform_doors
     = Pmf.Normalize 1
         (map_entries
            (fun hypo w => w * joint_likelihood hypo ["B"; "C"]%string)
            uniform_doors)
  /\ (snd (Suite.UpdateSet ["B"; "C"]%string uniform_doors)
      = Ok (evidence ["B"; "C"]%string uniform_doors)
      /\ forall hypo,
           Pmf.Prob (fst (Suite.UpdateSet ["B"; "C"]%string uniform_doors))
                    hypo 0
           = Pmf.Prob uniform_doors hypo 0
             * joint_likelihood hypo ["B"; "C"]%string
             / evidence ["B"; "C"]%string uniform_doors)
  /\ fst (Suite.UpdateSet ["B"; "C"]%string uniform_doors)
     = fst (Suite.UpdateEach ["B"; "C"]%string uniform_doors)
  /\ (raises (snd (Suite.UpdateSet ["B"; "C"]%string uniform_doors))
      <-> raises (snd (Suite.UpdateEach ["B"; "C"]%string uniform_doors))).
Proof.
  split; [exact uniform_doors_inv|]. split; [exact evidence_doors_nonzero|].
  destruct (UpdateSet_eq_UpdateEach uniform_doors ["B"; "C"]%string
              uniform_doors_inv) as (Hn & Hp & Hsame).
  split; [exact Hn|]. split; [exact (Hp evidence_doors_nonzero)|exact Hsame].
Defined.


Lemma half_interior : 0 < half < 1.
Proof. split; vm_compute; reflexivity. Defined.

Lemma Some_Qc_differ (x y : Qc) : Qc_eqb x y = false -> Some x <> Some y.
Proof.
  intros E Hxy. apply Qc_eqb_neq in E. congruence.
Defined.

Lemma cdf_122333_plateau_free : plateau_free cdf_122333 half.
Proof.
  intros i j Hi Hj.
  destruct i as [|[|[|i]]]; destruct j as [|[|[|j]]]; simpl in Hi, Hj;
    try reflexivity; try discriminate;
    try (destruct i; discriminate); try (destruct j; discriminate);
    exfalso;
    first [ exact (Some_Qc_differ _ _ eq_refl Hi)
          | exact (Some_Qc_differ _ _ eq_refl Hj) ].
Defined.

(** [Value(1/2)] on the CDF of [1, 2, 2, 3, 3, 3]. *)
Lemma Cdf_Value_spec_witness :
  Cdf_ok cdf_122333 /\ xs cdf_122333 <> []
  /\ 0 < half < 1
  /\ plateau_free cdf_122333 half
  /\ exists v, Cdf.Value cdf_122333 half = Ok v
               /\ smallest_value_reaching cdf_122333 half v.
Proof.
  assert (Hne : xs cdf_122333 <> []) by discriminate.
  split; [exact cdf_122333_ok|]. split; [exact Hne|].
  split; [exact half_interior|]. split; [exact cdf_122333_plateau_free|].
  destruct (Cdf_Value_spec cdf_122333 half cdf_122333_ok Hne)
    as (_ & _ & _ & _ & Hinterior).
  destruct (Hinterior half_interior) as (i & k & v & q & _ & _ & _ & Hv & _ & Hs).
  exists v. split; [exact Hv|exact (Hs cdf_122333_plateau_free)].
Defined.

Lemma Hist_Pmf_Cdf_Pmf_roundtrip_witness :
  dict_ok hist_122333 /\ hist_122333 <> []
  /\ Forall is_count (values hist_122333)
  /\ exists (pmf : dict Z) (c : cdf),
       MakePmfFromHist hist_122333 = Ok pmf
       /\ MakeCdfFromPmf pmf = Ok c
       /\ forall x : Z,
            dict_lookup (MakePmfFromCdf c) x = dict_lookup pmf x
            /\ Pmf.Prob (MakePmfFromCdf c) x 0 = Pmf.Prob pmf x 0
            /\ Pmf.Prob pmf x 0
               = Hist.Freq hist_122333 x / DictWrapper.Total hist_122333.
Proof.
  assert (Hnd : dict_ok hist_122333) by nodup_keys.
  assert (Hne : hist_122333 <> []) by discriminate.
  assert (Hc : Forall is_count (values hist_122333)).
  { repeat constructor; eexists; reflexivity. }
  split; [exact Hnd|]. split; [exact Hne|]. split; [exact Hc|].
  exact (Hist_Pmf_Cdf_Pmf_roundtrip hist_122333 Hnd Hne Hc).
Defined.

(** [Prob(2)] on the CDF of [1, 2, 2, 3, 3, 3]. *)
Lemma Cdf_Prob_spec_witness :
  Cdf_ok cdf_122333 /\ xs cdf_122333 <> []
  /\ (hd 0 (xs cdf_122333) <= 2)%Z
  /\ exists i p,
       insertion_point_right Z.lt (xs cdf_122333) 2%Z i
       /\ (1 <= i)%nat
       /\ nth_error (ps cdf_122333) (i - 1) = Some p
       /\ Cdf.Prob cdf_122333 2%Z = Ok p.
Proof.
  assert (Hne : xs cdf_122333 <> []) by discriminate.
  assert (Hx : (hd 0 (xs cdf_122333) <= 2)%Z) by (simpl; lia).
  split; [exact cdf_122333_ok|]. split; [exact Hne|]. split; [exact Hx|].
  destruct (Cdf_Prob_spec cdf_122333 2%Z cdf_122333_ok Hne) as [_ Hge].
  exact (Hge Hx).
Defined.

Lemma MakeCdfFromItems_invariant_witness :
  hist_122333 <> [] /\ Forall (Qclt 0) (map snd hist_122333)
  /\ exists c : cdf,
       MakeCdfFromItems hist_122333 = Ok c
       /\ length (xs c) = length (ps c)
       /\ xs c <> []
       /\ Sorted Z.le (xs c)
       /\ Sorted Qcle (ps c)
       /\ Forall (fun p => 0 <= p <= 1) (ps c)
       /\ last (ps c) 0 = 1.
Proof.
  assert (Hne : hist_122333 <> []) by discriminate.
  assert (Hpos : Forall (Qclt 0) (map snd hist_122333)).
  { repeat constructor. }
  split; [exact Hne|]. split; [exact Hpos|].
  exact (MakeCdfFromItems_invariant hist_122333 Hne Hpos).
Defined.

Lemma Mult_absent_key_witness :
  ~ In 2%Z (DictWrapper.Values pmf_8_1)
  /\ In 2%Z (DictWrapper.Values (DictWrapper.Mult 2%Z half pmf_8_1))
  /\ dict_lookup (DictWrapper.Mult 2%Z half pmf_8_1) 2%Z = Some 0
  /\ DictWrapper.Total (DictWrapper.Mult 2%Z half pmf_8_1)
     = DictWrapper.Total pmf_8_1.
Proof.
  assert (Hx : ~ In 2%Z (DictWrapper.Values pmf_8_1)).
  { simpl. intuition discriminate. }
  split; [exact Hx|].
  destruct (Mult_absent_key pmf_8_1 2%Z half Hx) as (H1 & H2 & _ & _ & _ & H6).
  split; [exact H1|]. split; [exact H2|exact H6].
Defined.

(** ** Worked examples *)

Example MakeHistFromList_122333 :
  shown (MakeHistFromList [1; 2; 2; 3; 3; 3]%Z)
  = [(1%Z, 1%Q); (2%Z, 2%Q); (3%Z, 3%Q)].
Proof. reflexivity. Qed.

Example MakePmfFromHist_122333 :
  exists pmf, MakePmfFromHist hist_122333 = Ok pmf
              /\ shown pmf = [(1%Z, 1 # 6); (2%Z, 1 # 3); (3%Z, 1 # 2)]%Q.
Proof. eexists. split; reflexivity. Qed.

Example MakeCdfFromHist_122333 :
  exists c, MakeCdfFromHist hist_122333 = Ok c
            /\ xs c = [1; 2; 3]%Z
            /\ map this (ps c) = [1 # 6; 1 # 2; 1]%Q.
Proof. eexists. split; [reflexivity|]. split; reflexivity. Qed.

Example Normalize_empty :
  Pmf.Normalize 1 (@nil (Z * Qc)) = ([], Raise ZeroTotal).
Proof. reflexivity. Qed.

Example Value_at_0 : Cdf.Value cdf_122333 0 = Ok 1%Z.
Proof. reflexivity. Qed.

Example Value_at_1 : Cdf.Value cdf_122333 1 = Ok 3%Z.
Proof. reflexivity. Qed.

Example Value_at_half : Cdf.Value cdf_122333 half = Ok 2%Z.
Proof. reflexivity. Qed.

Example Value_at_third : Cdf.Value cdf_122333 (Q2Qc (1 # 3)) = Ok 2%Z.
Proof. reflexivity. Qed.

Example Value_above_1 : Cdf.Value cdf_122333 (Q2Qc 2) = Raise OutOfRange.
Proof. reflexivity. Qed.

Example Value_below_0 : Cdf.Value cdf_122333 (- half) = Raise OutOfRange.
Proof. reflexivity. Qed.

Example Prob_below_all : Cdf.Prob cdf_122333 0%Z = Ok 0.
Proof. reflexivity. Qed.

Example Prob_at_2 : Cdf.Prob cdf_122333 2%Z = Ok half.
Proof. reflexivity. Qed.

Example Prob_above_all : Cdf.Prob cdf_122333 7%Z = Ok 1.
Proof. reflexivity. Qed.

Example Percentile_ascending_order :
  Percentile [(1%Z, half); (8%Z, half)] (Q2Qc 50) = Some 1%Z.
Proof. reflexivity. Qed.

Example UpdateSet_single_door :
  snd (Suite.UpdateSet ["B"]%string [("B"%string, 1)]) = Raise ZeroTotal
  /\ snd (Suite.UpdateEach ["B"]%string [("B"%string, 1)]) = Raise ZeroTotal.
Proof. split; reflexivity. Qed.

(** * Further properties of the code *)

(** ** Integers among the rationals *)

Lemma Qc_of_Z_plus (a b : Z) : Qc_of_Z (a + b) = Qc_of_Z a + Qc_of_Z b.
Proof.
  apply Qc_is_canon. unfold Qc_of_Z. to_Q. now rewrite inject_Z_plus.
Qed.

Lemma Qc_of_Z_le (a b : Z) : (a <= b)%Z -> Qc_of_Z a <= Qc_of_Z b.
Proof.
  intros Hab. unfold Qc_of_Z. to_Q. now rewrite <- Zle_Qle.
Qed.

Lemma Qc_of_Z_S (n : nat) :
  Qc_of_Z (Z.of_nat (S n)) = Qc_of_Z (Z.of_nat n) + 1.
Proof.
  rewrite Nat2Z.inj_succ. unfold Z.succ. now rewrite Qc_of_Z_plus.
Qed.

(** ** Set, Incr, Remove *)

Section DictUpdates.
Context {K : Type} `{Hashable K}.

Lemma dict_lookup_set_same (d : dict K) (x : K) (y : Qc) :
  dict_lookup (dict_set d x y) x = Some y.
Proof.
  induction d as [|[k v] d IH]; simpl.
  - now rewrite key_eqb_refl.
  - destruct (key_eqb x k) eqn:E; simpl; now rewrite E.
Qed.

Lemma dict_lookup_set_other (d : dict K) (x k : K) (y : Qc) :
  k <> x -> dict_lookup (dict_set d x y) k = dict_lookup d k.
Proof.
  intros Hk. induction d as [|[k0 v] d IH]; simpl.
  - apply key_eqb_neq in Hk. now rewrite Hk.
  - destruct (key_eqb x k0) eqn:E; simpl.
    + apply key_eqb_eq in E. subst k0.
      apply key_eqb_neq in Hk. now rewrite Hk.
    + now rewrite IH.
Qed.

Lemma Total_dict_set (d : dict K) (x : K) (y : Qc) :
  DictWrapper.Total (dict_set d x y)
  = DictWrapper.Total d - dict_get d x 0 + y.
Proof.
  unfold DictWrapper.Total, values, dict_get.
  induction d as [|[k v] d IH]; simpl.
  - rewrite py_sum_cons, py_sum_nil. ring.
  - destruct (key_eqb x k) eqn:E; simpl; rewrite !py_sum_cons.
    + ring.
    + rewrite IH. ring.
Qed.

Lemma Freq_Incr_same (d : dict K) (x : K) (term : Qc) :
  Hist.Freq (DictWrapper.Incr x term d) x = Hist.Freq d x + term.
Proof.
  unfold Hist.Freq, DictWrapper.Incr, dict_get at 1.
  now rewrite dict_lookup_set_same.
Qed.

Lemma lookup_Incr_other (d : dict K) (x k : K) (term : Qc) :
  k <> x -> dict_lookup (DictWrapper.Incr x term d) k = dict_lookup d k.
Proof. apply dict_lookup_set_other. Qed.

Lemma Freq_Incr_other (d : dict K) (x k : K) (term : Qc) :
  k <> x -> Hist.Freq (DictWrapper.Incr x term d) k = Hist.Freq d k.
Proof.
  intros Hk. unfold Hist.Freq, dict_get. now rewrite lookup_Incr_other.
Qed.

Lemma Total_Incr (d : dict K) (x : K) (term : Qc) :
  DictWrapper.Total (DictWrapper.Incr x term d) = DictWrapper.Total d + term.
Proof.
  unfold DictWrapper.Incr. rewrite Total_dict_set. ring.
Qed.

Lemma Incr_ok (d : dict K) (x : K) (term : Qc) :
  dict_ok d -> dict_ok (DictWrapper.Incr x term d).
Proof. apply dict_set_ok. Qed.

Lemma keys_Incr (d : dict K) (x k : K) (term : Qc) :
  In k (keys (DictWrapper.Incr x term d)) <-> k = x \/ In k (keys d).
Proof. apply In_keys_dict_set. Qed.

Lemma dict_lookup_del_same (d : dict K) (x : K) :
  dict_ok d -> dict_lookup (dict_del d x) x = None.
Proof.
  unfold dict_ok. induction d as [|[k v] d IH]; simpl; intros Hnd.
  - reflexivity.
  - inversion Hnd; subst. destruct (key_eqb x k) eqn:E; simpl.
    + apply key_eqb_eq in E. subst k. now apply dict_lookup_absent.
    + rewrite E. now apply IH.
Qed.

Lemma dict_lookup_del_other (d : dict K) (x k : K) :
  k <> x -> dict_lookup (dict_del d x) k = dict_lookup d k.
Proof.
  intros Hk. induction d as [|[k0 v] d IH]; simpl; [reflexivity|].
  destruct (key_eqb x k0) eqn:E; simpl.
  - apply key_eqb_eq in E. subst k0.
    apply key_eqb_neq in Hk. now rewrite Hk.
  - now rewrite IH.
Qed.

Lemma Total_dict_del (d : dict K) (x : K) :
  DictWrapper.Total (dict_del d x) = DictWrapper.Total d - dict_get d x 0.
Proof.
  unfold DictWrapper.Total, values, dict_get.
  induction d as [|[k v] d IH]; simpl.
  - rewrite py_sum_nil. ring.
  - destruct (key_eqb x k) eqn:E; simpl; rewrite !py_sum_cons.
    + ring.
    + rewrite IH. ring.
Qed.

Lemma dict_del_set_absent (d : dict K) (x : K) (y : Qc) :
  ~ In x (keys d) -> dict_del (dict_set d x y) x = d.
Proof.
  induction d as [|[k v] d IH]; simpl; intros Hx.
  - now rewrite key_eqb_refl.
  - destruct (key_eqb x k) eqn:E.
    + apply key_eqb_eq in E. subst. tauto.
    + simpl. rewrite E, IH; tauto.
Qed.
End DictUpdates.

(** [Incr(x, term)] adds [term] to the weight of [x], read as 0 when [x] is
    not stored; every other weight stays, keys stay unique, and [Total()]
    grows by [term]. *)
Theorem Incr_spec {K : Type} `{Hashable K} (d : dict K) (x : K) (term : Qc) :
  let d' := DictWrapper.Incr x term d in
  Hist.Freq d' x = Hist.Freq d x + term
  /\ (forall k, k <> x -> dict_lookup d' k = dict_lookup d k)
  /\ (forall k, In k (keys d') <-> k = x \/ In k (keys d))
  /\ DictWrapper.Total d' = DictWrapper.Total d + term
  /\ (dict_ok d -> dict_ok d').
Proof.
  cbv zeta. split; [apply Freq_Incr_same|].
  split; [intros k; apply lookup_Incr_other|].
  split; [intros k; apply keys_Incr|].
  split; [apply Total_Incr|apply Incr_ok].
Qed.

(** [Remove(x)] raises KeyError and changes nothing when [x] is not stored;
    otherwise [x] is gone, every other weight stays and [Total()] drops by
    the weight of [x].  Removing a key right after [Set] created it gives
    the dictionary back. *)
Theorem Remove_spec {K : Type} `{Hashable K} (d : dict K) (x : K) :
  dict_ok d ->
  (dict_lookup d x = None -> DictWrapper.Remove x d = (d, Raise KeyError))
  /\ (forall w, dict_lookup d x = Some w ->
        let d' := fst (DictWrapper.Remove x d) in
        snd (DictWrapper.Remove x d) = Ok tt
        /\ dict_lookup d' x = None
        /\ (forall k, k <> x -> dict_lookup d' k = dict_lookup d k)
        /\ DictWrapper.Total d' = DictWrapper.Total d - w)
  /\ (forall y, dict_lookup d x = None ->
        DictWrapper.Remove x (DictWrapper.Set_ x y d) = (d, Ok tt)).
Proof.
  intros Hnd. unfold DictWrapper.Remove. split; [|split].
  - intros E. now rewrite E.
  - intros w E. rewrite E. simpl.
    split; [reflexivity|]. split; [now apply dict_lookup_del_same|].
    split; [intros k; apply dict_lookup_del_other|].
    rewrite Total_dict_del. unfold dict_get. now rewrite E.
  - intros y E. unfold DictWrapper.Set_.
    rewrite dict_lookup_set_same, dict_del_set_absent; [reflexivity|].
    now apply dict_lookup_None.
Qed.

(** ** MakeHistFromList, MakePmfFromList *)

Section Tally.
Context {K : Type} `{Hashable K}.

Lemma tally_from_Freq (t : list K) :
  forall (acc : dict K) (x : K),
    Hist.Freq (tally_from acc t) x
    = Hist.Freq acc x + Qc_of_Z (Z.of_nat (count_key x t)).
Proof.
  unfold tally_from, count_key.
  induction t as [|y t IH]; intros acc x; simpl.
  - change (Qc_of_Z 0) with (Q2Qc 0). ring.
  - rewrite IH. destruct (key_eqb x y) eqn:E.
    + apply key_eqb_eq in E. subst y.
      rewrite Freq_Incr_same. cbn [length]. rewrite Qc_of_Z_S. ring.
    + apply key_eqb_neq in E. now rewrite Freq_Incr_other.
Qed.

Lemma tally_from_keys (t : list K) :
  forall (acc : dict K) (x : K),
    In x (keys (tally_from acc t)) <-> In x (keys acc) \/ In x t.
Proof.
  unfold tally_from. induction t as [|y t IH]; intros acc x; simpl.
  - tauto.
  - rewrite IH, keys_Incr. intuition.
Qed.

Lemma tally_from_ok (t : list K) :
  forall acc : dict K, dict_ok acc -> dict_ok (tally_from acc t).
Proof.
  unfold tally_from. induction t as [|y t IH]; intros acc Hacc; simpl.
  - exact Hacc.
  - now apply IH, Incr_ok.
Qed.

Lemma tally_from_Total (t : list K) :
  forall acc : dict K,
    DictWrapper.Total (tally_from acc t)
    = DictWrapper.Total acc + Qc_of_Z (Z.of_nat (length t)).
Proof.
  unfold tally_from. induction t as [|y t IH]; intros acc.
  - simpl. change (Qc_of_Z 0) with (Q2Qc 0). ring.
  - cbn [fold_left length]. rewrite IH, Total_Incr, Qc_of_Z_S. ring.
Qed.

Lemma count_key_pos (x : K) (t : list K) :
  In x t -> (1 <= count_key x t)%nat.
Proof.
  unfold count_key. induction t as [|y t IH]; simpl; [tauto|].
  intros [->|Hin].
  - rewrite key_eqb_refl. simpl. lia.
  - destruct (key_eqb x y); simpl; auto using IH with arith.
Qed.
End Tally.

(** [MakeHistFromList(t)] maps every value to the number of times it occurs
    in [t]: the stored values are those of [t], each once, every frequency
    is a positive integer, and [Total()] is [len(t)]. *)
Theorem MakeHistFromList_counts {K : Type} `{Hashable K} (t : list K) :
  let hist := MakeHistFromList t in
  dict_ok hist
  /\ (forall x, Hist.Freq hist x = Qc_of_Z (Z.of_nat (count_key x t)))
  /\ (forall x, In x (DictWrapper.Values hist) <-> In x t)
  /\ Forall is_count (values hist)
  /\ DictWrapper.Total hist = Qc_of_Z (Z.of_nat (length t)).
Proof.
  cbv zeta. change (MakeHistFromList t) with (tally_from [] t).
  assert (Hok : dict_ok (tally_from [] t)) by (apply tally_from_ok; constructor).
  assert (Hfreq : forall x, Hist.Freq (tally_from [] t) x
                            = Qc_of_Z (Z.of_nat (count_key x t))).
  { intros x. rewrite tally_from_Freq. unfold Hist.Freq, dict_get. simpl. ring. }
  assert (Hkeys : forall x, In x (keys (tally_from [] t)) <-> In x t).
  { intros x. rewrite tally_from_keys. simpl. tauto. }
  split; [exact Hok|]. split; [exact Hfreq|]. split; [exact Hkeys|]. split.
  - apply Forall_forall. intros w Hw.
    apply in_map_iff in Hw. destruct Hw as ([k w'] & Ew & Hin).
    simpl in Ew. subst w'.
    assert (Hk : In k t).
    { apply Hkeys. change k with (fst (k, w)). now apply in_map. }
    pose proof (dict_lookup_In _ k w Hok Hin) as Hl.
    specialize (Hfreq k). unfold Hist.Freq, dict_get in Hfreq.
    rewrite Hl in Hfreq. pose proof (count_key_pos k t Hk) as Hc.
    destruct (count_key k t) as [|n]; [lia|].
    exists (Pos.of_succ_nat n). rewrite Hfreq. reflexivity.
  - rewrite tally_from_Total. unfold DictWrapper.Total. simpl.
    rewrite py_sum_nil. ring.
Qed.

Lemma Qc_of_Z_pos (z : Z) : (0 < z)%Z -> 0 < Qc_of_Z z.
Proof.
  intros Hz. unfold Qc_of_Z. to_Q. now rewrite <- (Zlt_Qlt 0).
Qed.

Lemma Qc_of_Z_le_inv (a b : Z) : Qc_of_Z a <= Qc_of_Z b -> (a <= b)%Z.
Proof.
  unfold Qc_of_Z. intros Hab. to_Q. now rewrite Zle_Qle.
Qed.

(** [MakePmfFromList] raises the ValueError of [Normalize] on the empty
    list; on any other list it gives every value the fraction of the list
    it fills, [count / len], and these sum to 1. *)
Theorem MakePmfFromList_spec {K : Type} `{Hashable K} (t : list K) :
  MakePmfFromList (@nil K) = Raise ZeroTotal
  /\ (t <> [] ->
      exists pmf : dict K,
        MakePmfFromList t = Ok pmf
        /\ dict_ok pmf
        /\ DictWrapper.Total pmf = 1
        /\ forall x, Pmf.Prob pmf x 0
                     = Qc_of_Z (Z.of_nat (count_key x t))
                       / Qc_of_Z (Z.of_nat (length t))).
Proof.
  split; [reflexivity|]. intros Hne.
  unfold MakePmfFromList. change (MakeHistFromList t) with (tally_from [] t).
  set (hist := tally_from [] t).
  assert (Hok : dict_ok hist) by (apply tally_from_ok; constructor).
  assert (Ht : DictWrapper.Total hist = Qc_of_Z (Z.of_nat (length t))).
  { unfold hist. rewrite tally_from_Total. unfold DictWrapper.Total. simpl.
    rewrite py_sum_nil. ring. }
  assert (Hpos : 0 < Qc_of_Z (Z.of_nat (length t))).
  { apply Qc_of_Z_pos. destruct t; [congruence|simpl; lia]. }
  assert (Hnz : DictWrapper.Total hist <> 0).
  { rewrite Ht. intros E. rewrite E in Hpos. exact (Qclt_not_eq 0 0 Hpos eq_refl). }
  eexists. split; [now apply MakePmfFromHist_nonzero|].
  split; [unfold dict_ok; now rewrite keys_map_entries|].
  split; [rewrite Total_map_scale; now field|].
  intros x. unfold Pmf.Prob, dict_get. rewrite dict_lookup_map_entries.
  pose proof (tally_from_Freq t [] x) as Hf. fold hist in Hf.
  unfold Hist.Freq, dict_get in Hf. simpl dict_lookup in Hf.
  rewrite <- Ht.
  destruct (dict_lookup hist x) as [w|]; simpl.
  - replace (Qc_of_Z (Z.of_nat (count_key x t))) with w by (rewrite Hf; ring).
    now field.
  - replace (Qc_of_Z (Z.of_nat (count_key x t))) with (Q2Qc 0)
      by (rewrite <- Qcplus_0_l; exact Hf).
    now field.
Qed.

(** ** Hist.IsSubset, Hist.Subtract *)

Section HistFacts.
Context {K : Type} `{Hashable K}.

Lemma IsSubset_loop_iff (items : list (K * Qc)) (other : dict K) :
  Hist.IsSubset_loop items other = true
  <-> Forall (fun it => snd it <= Hist.Freq other (fst it)) items.
Proof.
  induction items as [|[val freq] items IH]; simpl.
  - split; [constructor|reflexivity].
  - destruct (Qc_ltb (Hist.Freq other val) freq) eqn:E.
    + split; [discriminate|]. intros Hall. inversion Hall; subst. simpl in *.
      apply Qc_ltb_lt in E. now apply Qcle_not_lt in E.
    + apply Qc_ltb_ge in E. rewrite IH. split.
      * intros Hall. now constructor.
      * intros Hall. now inversion Hall.
Qed.

Lemma count_key_app (x : K) (t1 t2 : list K) :
  count_key x (t1 ++ t2) = (count_key x t1 + count_key x t2)%nat.
Proof.
  unfold count_key. now rewrite filter_app, length_app.
Qed.

Lemma count_key_absent (x : K) (t : list K) : ~ In x t -> count_key x t = 0%nat.
Proof.
  unfold count_key. induction t as [|y t IH]; simpl; [reflexivity|].
  intros Hx. destruct (key_eqb x y) eqn:E.
  - apply key_eqb_eq in E. subst. tauto.
  - apply IH. tauto.
Qed.

Lemma incr_each_lookup (f : Qc -> Qc) (items : list (K * Qc)) :
  NoDup (map fst items) ->
  forall (acc : dict K) (x : K),
    Hist.Freq (incr_each f items acc) x
    = Hist.Freq acc x
      + match dict_lookup items x with Some w => f w | None => 0 end.
Proof.
  unfold incr_each.
  induction items as [|[k v] items IH]; intros Hnd acc x; simpl.
  - ring.
  - inversion Hnd; subst. rewrite IH by assumption.
    destruct (key_eqb x k) eqn:E.
    + apply key_eqb_eq in E. subst k.
      rewrite Freq_Incr_same, (dict_lookup_absent items x) by assumption.
      ring.
    + apply key_eqb_neq in E. now rewrite Freq_Incr_other.
Qed.

Lemma incr_each_Total (f : Qc -> Qc) (items : list (K * Qc)) :
  forall acc : dict K,
    DictWrapper.Total (incr_each f items acc)
    = DictWrapper.Total acc + py_sum (map f (map snd items)).
Proof.
  unfold incr_each. induction items as [|[k v] items IH]; intros acc; simpl.
  - rewrite py_sum_nil. ring.
  - rewrite IH, Total_Incr, py_sum_cons. ring.
Qed.

Lemma incr_each_keys (f : Qc -> Qc) (items : list (K * Qc)) :
  forall (acc : dict K) (x : K),
    In x (keys (incr_each f items acc))
    <-> In x (keys acc) \/ In x (map fst items).
Proof.
  unfold incr_each. induction items as [|[k v] items IH]; intros acc x; simpl.
  - tauto.
  - rewrite IH, keys_Incr. intuition.
Qed.

Lemma incr_each_ok (f : Qc -> Qc) (items : list (K * Qc)) :
  forall acc : dict K, dict_ok acc -> dict_ok (incr_each f items acc).
Proof.
  unfold incr_each. induction items as [|[k v] items IH]; intros acc Hacc; simpl.
  - exact Hacc.
  - now apply IH, Incr_ok.
Qed.

Lemma py_sum_opp (l : list Qc) : py_sum (map Qcopp l) = - py_sum l.
Proof.
  induction l as [|x l IH]; simpl.
  - rewrite py_sum_nil. ring.
  - rewrite !py_sum_cons, IH. ring.
Qed.
End HistFacts.

(** [IsSubset] holds exactly when no stored frequency of [self] exceeds the
    frequency [other] reports for the same value (0 when [other] does not
    store it); in particular every histogram is a subset of itself. *)
Theorem Hist_IsSubset_spec {K : Type} `{Hashable K} (self other : dict K) :
  (Hist.IsSubset self other = true
   <-> forall val freq, In (val, freq) (DictWrapper.Items self) ->
                        freq <= Hist.Freq other val)
  /\ (dict_ok self -> Hist.IsSubset self self = true).
Proof.
  unfold Hist.IsSubset, DictWrapper.Items. split.
  - rewrite IsSubset_loop_iff, Forall_forall. split.
    + intros Hall val freq Hin. exact (Hall (val, freq) Hin).
    + intros Hall [val freq] Hin. now apply Hall.
  - intros Hok. apply IsSubset_loop_iff, Forall_forall.
    intros [val freq] Hin. simpl. unfold Hist.Freq, dict_get.
    rewrite (dict_lookup_In self val freq Hok Hin). apply Qcle_refl.
Qed.

(** On two tallies [IsSubset] decides inclusion of multisets: it holds
    exactly when no value occurs more often in the first list than in the
    second. *)
Theorem IsSubset_tally_iff {K : Type} `{Hashable K} (t1 t2 : list K) :
  Hist.IsSubset (MakeHistFromList t1) (MakeHistFromList t2) = true
  <-> forall x, (count_key x t1 <= count_key x t2)%nat.
Proof.
  change (MakeHistFromList t1) with (tally_from [] t1).
  change (MakeHistFromList t2) with (tally_from [] t2).
  assert (Hf : forall t x, Hist.Freq (tally_from [] t) x
                           = Qc_of_Z (Z.of_nat (count_key x t))).
  { intros t x. rewrite tally_from_Freq. unfold Hist.Freq, dict_get. simpl. ring. }
  assert (Hok : dict_ok (tally_from [] t1)) by (apply tally_from_ok; constructor).
  unfold Hist.IsSubset, DictWrapper.Items.
  rewrite IsSubset_loop_iff, Forall_forall. split.
  - intros Hall x.
    destruct (dict_lookup (tally_from [] t1) x) as [w|] eqn:E.
    + apply dict_lookup_Some_In in E. specialize (Hall (x, w) E). simpl in Hall.
      pose proof (Hf t1 x) as H1. unfold Hist.Freq, dict_get in H1.
      rewrite (dict_lookup_In _ x w Hok E) in H1.
      rewrite H1, Hf in Hall. apply Qc_of_Z_le_inv in Hall. lia.
    + apply dict_lookup_None in E. rewrite tally_from_keys in E. simpl in E.
      rewrite count_key_absent by tauto. lia.
  - intros Hcount [val freq] Hin. simpl.
    pose proof (Hf t1 val) as H1. unfold Hist.Freq, dict_get in H1.
    rewrite (dict_lookup_In _ val freq Hok Hin) in H1.
    rewrite H1, Hf. apply Qc_of_Z_le. specialize (Hcount val). lia.
Qed.

(** [Subtract(other)] lowers every frequency of [self] by the frequency
    [other] has for the value, below 0 if need be; no value is dropped, the
    values of [other] are added, and [Total()] falls by the total of
    [other]. *)
Theorem Hist_Subtract_spec {K : Type} `{Hashable K} (other self : dict K) :
  dict_ok other ->
  let d' := Hist.Subtract other self in
  (forall x, Hist.Freq d' x = Hist.Freq self x - Hist.Freq other x)
  /\ (forall x, In x (DictWrapper.Values d')
                <-> In x (DictWrapper.Values self)
                    \/ In x (DictWrapper.Values other))
  /\ DictWrapper.Total d' = DictWrapper.Total self - DictWrapper.Total other
  /\ (dict_ok self -> dict_ok d').
Proof.
  intros Hok. cbv zeta.
  change (Hist.Subtract other self) with (incr_each Qcopp other self).
  split; [|split; [|split]].
  - intros x. rewrite (incr_each_lookup Qcopp other Hok).
    unfold Hist.Freq at 3. unfold dict_get.
    destruct (dict_lookup other x); ring.
  - intros x. apply incr_each_keys.
  - rewrite incr_each_Total, py_sum_opp. unfold DictWrapper.Total, values. ring.
  - apply incr_each_ok.
Qed.

(** ** max: MaxLike, MaximumLikelihood *)

Section PyMaxFacts.
Context {A : Type} (ltb : A -> A -> bool) (le : A -> A -> Prop).
Hypothesis le_refl : forall a, le a a.
Hypothesis le_trans : forall a b c, le a b -> le b c -> le a c.
Hypothesis ltb_true : forall a b, ltb a b = true -> le a b.
Hypothesis ltb_false : forall a b, ltb a b = false -> le b a.

Lemma py_max_from_spec (l : list A) :
  forall m : A,
    let r := py_max_from ltb m l in
    (r = m \/ In r l) /\ le m r /\ Forall (fun x => le x r) l.
Proof.
  induction l as [|x l IH]; intros m; simpl.
  - split; [now left|]. split; [apply le_refl|constructor].
  - destruct (IH (if ltb m x then x else m)) as (Hin & Hle & Hall).
    cbv zeta in *. destruct (ltb m x) eqn:E.
    + split; [destruct Hin as [->|Hin]; auto|].
      split; [eapply le_trans; [apply ltb_true, E|exact Hle]|].
      constructor; assumption.
    + split; [destruct Hin as [->|Hin]; auto|].
      split; [exact Hle|].
      constructor; [|assumption].
      eapply le_trans; [apply ltb_false, E|exact Hle].
Qed.

Lemma py_max_spec (l : list A) :
  l <> [] ->
  exists r, py_max ltb l = Ok r /\ In r l /\ Forall (fun x => le x r) l.
Proof.
  destruct l as [|x l]; [congruence|]. intros _.
  destruct (py_max_from_spec l x) as (Hin & Hle & Hall). cbv zeta in *.
  exists (py_max_from ltb x l). split; [reflexivity|]. split.
  - destruct Hin as [->|Hin]; [now left|now right].
  - now constructor.
Qed.
End PyMaxFacts.

Lemma prob_val_ltb_true (a b : Qc * Z) :
  prob_val_ltb a b = true -> prob_val_le a b.
Proof.
  unfold prob_val_ltb, prob_val_le.
  rewrite orb_true_iff, andb_true_iff, Qc_ltb_lt, Qc_eqb_eq, Z.ltb_lt.
  intros [Hlt|[He Hlt]]; [now left|right]. split; [exact He|lia].
Qed.

Lemma prob_val_ltb_false (a b : Qc * Z) :
  prob_val_ltb a b = false -> prob_val_le b a.
Proof.
  unfold prob_val_ltb, prob_val_le.
  rewrite orb_false_iff, andb_false_iff, Qc_ltb_ge, Qc_eqb_neq, Z.ltb_ge.
  intros [Hge Hor]. destruct (Qcle_lt_or_eq _ _ Hge) as [Hlt|He]; [now left|].
  right. split; [exact He|]. destruct Hor as [Hne|Hle]; [congruence|exact Hle].
Qed.

Lemma prob_val_le_refl (a : Qc * Z) : prob_val_le a a.
Proof. right. split; [reflexivity|lia]. Qed.

Lemma prob_val_le_trans (a b c : Qc * Z) :
  prob_val_le a b -> prob_val_le b c -> prob_val_le a c.
Proof.
  unfold prob_val_le. intros [H1|[E1 H1]] [H2|[E2 H2]].
  - left. eapply Qclt_trans; eauto.
  - left. now rewrite <- E2.
  - left. now rewrite E1.
  - right. split; [congruence|lia].
Qed.

(** [MaxLike] raises ValueError on a map without entries; otherwise it
    returns a stored weight that no stored weight exceeds. *)
Theorem MaxLike_spec {K : Type} `{Hashable K} (d : dict K) :
  (d = [] -> raises (DictWrapper.MaxLike d))
  /\ (d <> [] ->
      exists m, DictWrapper.MaxLike d = Ok m
                /\ In m (values d)
                /\ Forall (fun w => w <= m) (values d)).
Proof.
  unfold DictWrapper.MaxLike. split.
  - intros ->. eexists. reflexivity.
  - intros Hne. apply (py_max_spec Qc_ltb Qcle).
    + apply Qcle_refl.
    + apply Qcle_trans.
    + intros a b E. apply Qclt_le_weak. now apply Qc_ltb_lt.
    + intros a b E. now apply Qc_ltb_ge.
    + destruct d; [congruence|discriminate].
Qed.

(** [MaximumLikelihood] raises ValueError on an empty PMF; otherwise it
    returns a stored value of the highest probability, and among several
    values of that probability the largest one. *)
Theorem MaximumLikelihood_spec (pmf : dict Z) :
  (pmf = [] -> raises (MaximumLikelihood pmf))
  /\ (pmf <> [] ->
      exists v p,
        MaximumLikelihood pmf = Ok v
        /\ In (v, p) (DictWrapper.Items pmf)
        /\ forall val prob, In (val, prob) (DictWrapper.Items pmf) ->
             prob < p \/ (prob = p /\ (val <= v)%Z)).
Proof.
  unfold MaximumLikelihood, DictWrapper.Items. split.
  - intros ->. eexists. reflexivity.
  - intros Hne.
    destruct (py_max_spec prob_val_ltb prob_val_le prob_val_le_refl
                prob_val_le_trans prob_val_ltb_true prob_val_ltb_false
                (map (fun it => (snd it, fst it)) pmf))
      as ([p v] & Hmax & Hin & Hall).
    { destruct pmf; [congruence|discriminate]. }
    rewrite Hmax. exists v, p. split; [reflexivity|]. split.
    + apply in_map_iff in Hin. destruct Hin as ([v' p'] & [= <- <-] & Hin).
      exact Hin.
    + intros val prob Hvp. rewrite Forall_forall in Hall.
      apply (Hall (prob, val)). apply in_map_iff.
      exists (val, prob). now split.
Qed.

(** ** MakeMixture *)

Lemma MakeMixture_from {K : Type} `{Hashable K} (pmfs : list (dict K * Qc)) :
  Forall (fun it => dict_ok (fst it)) pmfs ->
  forall acc : dict K,
    let mix :=
      fold_left (fun mix it => incr_each (fun p => p * snd it) (fst it) mix)
                pmfs acc in
    (forall x, Hist.Freq mix x
               = Hist.Freq acc x
                 + py_sum (map (fun it => Pmf.Prob (fst it) x 0 * snd it) pmfs))
    /\ DictWrapper.Total mix
       = DictWrapper.Total acc
         + py_sum (map (fun it => DictWrapper.Total (fst it) * snd it) pmfs)
    /\ (dict_ok acc -> dict_ok mix).
Proof.
  induction 1 as [|[pmf prob] pmfs Hpmf _ IH]; intros acc; cbv zeta; simpl.
  - rewrite py_sum_nil. repeat split; auto; intros; ring.
  - destruct (IH (incr_each (fun p => p * prob) pmf acc)) as (Hf & Ht & Hok).
    cbv zeta in *. simpl in Hpmf. split; [|split].
    + intros x. rewrite Hf, py_sum_cons, (incr_each_lookup _ pmf Hpmf).
      unfold Pmf.Prob, dict_get. destruct (dict_lookup pmf x); ring.
    + rewrite Ht, py_sum_cons, incr_each_Total.
      rewrite (py_sum_scale (map snd pmf) prob).
      unfold DictWrapper.Total, values. simpl. ring.
    + intros Hacc. now apply Hok, incr_each_ok.
Qed.

(** [MakeMixture] is the law of total probability: the mass of a value in
    the mixture is the sum over the components of its mass there times the
    component's probability, and the mixture's total is the same sum of the
    components' totals. *)
Theorem MakeMixture_total_probability {K : Type} `{Hashable K}
    (pmfs : list (dict K * Qc)) :
  Forall (fun it => dict_ok (fst it)) pmfs ->
  let mix := MakeMixture pmfs in
  dict_ok mix
  /\ (forall x, Pmf.Prob mix x 0
                = py_sum (map (fun it => Pmf.Prob (fst it) x 0 * snd it) pmfs))
  /\ DictWrapper.Total mix
     = py_sum (map (fun it => DictWrapper.Total (fst it) * snd it) pmfs).
Proof.
  intros Hok. destruct (MakeMixture_from pmfs Hok []) as (Hf & Ht & Hd).
  cbv zeta in *. split; [apply Hd; constructor|]. split.
  - intros x. eapply eq_trans; [exact (Hf x)|].
    unfold Hist.Freq, dict_get. simpl. ring.
  - eapply eq_trans; [exact Ht|].
    unfold DictWrapper.Total at 1. simpl. rewrite py_sum_nil. ring.
Qed.

(** ** Mean and variance *)

Lemma fold_left_add {A : Type} (f : A -> Qc) (l : list A) (a : Qc) :
  fold_left (fun acc it => acc + f it) l a = a + py_sum (map f l).
Proof.
  revert a. induction l as [|x l IH]; intros a; simpl.
  - rewrite py_sum_nil. ring.
  - rewrite IH, py_sum_cons. ring.
Qed.

Lemma Mean_as_sum (d : dict Z) :
  Pmf.Mean d = py_sum (map (fun it => snd it * Qc_of_Z (fst it)) d).
Proof.
  unfold Pmf.Mean.
  rewrite (fold_left_add (fun it => snd it * Qc_of_Z (fst it))). ring.
Qed.

Lemma Mean_dict_set (d : dict Z) (x : Z) (y : Qc) :
  Pmf.Mean (dict_set d x y)
  = Pmf.Mean d - dict_get d x 0 * Qc_of_Z x + y * Qc_of_Z x.
Proof.
  rewrite !Mean_as_sum. unfold dict_get.
  induction d as [|[k v] d IH]; cbn [dict_set dict_lookup map].
  - rewrite py_sum_cons, py_sum_nil. cbn [fst snd]. ring.
  - destruct (key_eqb x k) eqn:E; cbn [map]; rewrite !py_sum_cons; cbn [fst snd].
    + apply key_eqb_eq in E. subst k. ring.
    + rewrite IH. ring.
Qed.

Lemma Mean_Incr (d : dict Z) (x : Z) (term : Qc) :
  Pmf.Mean (DictWrapper.Incr x term d) = Pmf.Mean d + term * Qc_of_Z x.
Proof.
  unfold DictWrapper.Incr. rewrite Mean_dict_set. ring.
Qed.

Lemma Mean_Permutation (d1 d2 : dict Z) :
  Permutation d1 d2 -> Pmf.Mean d1 = Pmf.Mean d2.
Proof.
  intros Hp. rewrite !Mean_as_sum.
  now apply py_sum_Permutation, Permutation_map.
Qed.

Lemma Mean_map_scale (d : dict Z) (c : Qc) :
  Pmf.Mean (map_entries (fun _ w => w * c) d) = Pmf.Mean d * c.
Proof.
  rewrite !Mean_as_sum. unfold map_entries. rewrite map_map. simpl.
  induction d as [|[k v] d IH]; simpl.
  - rewrite py_sum_nil. ring.
  - rewrite !py_sum_cons, IH. simpl. ring.
Qed.

Lemma mean_loops (items : list (Z * Qc)) :
  forall (acc : dict Z) (prev total : Qc),
    snd (fold_left Cdf.mean_step items (prev, total))
    = total + (Pmf.Mean (fst (fold_left pmf_from_cdf_step items (acc, prev)))
               - Pmf.Mean acc).
Proof.
  induction items as [|[x p] items IH]; intros acc prev total; simpl.
  - ring.
  - rewrite (IH (DictWrapper.Incr x (p - prev) acc)), Mean_Incr. ring.
Qed.

Lemma Cdf_Mean_as_Pmf_Mean (c : cdf) :
  Cdf.Mean c = Pmf.Mean (MakePmfFromCdf c).
Proof.
  unfold Cdf.Mean, MakePmfFromCdf, Cdf.Items.
  rewrite (mean_loops _ [] 0 0).
  change (Pmf.Mean []) with (Q2Qc 0).
  match goal with |- _ + (?a - _) = ?b => change b with a; generalize a end.
  intros m. ring.
Qed.

(** [Cdf.Mean] is the mean of the PMF that [MakePmfFromCdf] recovers from
    the same CDF, whatever the CDF holds. *)
Theorem Cdf_Mean_eq_Pmf_Mean (c : cdf) :
  Cdf.Mean c = Pmf.Mean (MakePmfFromCdf c).
Proof. apply Cdf_Mean_as_Pmf_Mean. Qed.

(** The mean of a normalized PMF is kept by the conversion to a CDF. *)
Theorem Mean_through_Cdf (pmf : dict Z) :
  dict_ok pmf -> DictWrapper.Total pmf = 1 ->
  exists c, MakeCdfFromPmf pmf = Ok c /\ Cdf.Mean c = Pmf.Mean pmf.
Proof.
  intros Hok Ht. destruct (Pmf_Cdf_Pmf pmf Hok Ht) as (c & Hc & Hback).
  exists c. split; [exact Hc|].
  rewrite Cdf_Mean_as_Pmf_Mean, Hback. symmetry.
  apply Mean_Permutation, sorted_Permutation.
Qed.

Lemma tally_from_Mean (t : list Z) :
  forall acc : dict Z,
    Pmf.Mean (tally_from acc t)
    = Pmf.Mean acc + Qc_of_Z (fold_left Z.add t 0%Z).
Proof.
  unfold tally_from.
  assert (Hsum : forall (l : list Z) (a : Z),
             fold_left Z.add l a = (a + fold_left Z.add l 0)%Z).
  { induction l as [|y l IHl]; intros a; simpl; [lia|].
    rewrite IHl, (IHl y). lia. }
  induction t as [|y t IH]; intros acc; simpl.
  - change (Qc_of_Z 0) with (Q2Qc 0). ring.
  - rewrite IH, Mean_Incr, (Hsum t y), Qc_of_Z_plus. ring.
Qed.

(** The mean of the PMF of a non-empty list of integers is the sum of the
    list divided by its length. *)
Theorem MakePmfFromList_Mean (t : list Z) :
  t <> [] ->
  exists pmf : dict Z,
    MakePmfFromList t = Ok pmf
    /\ Pmf.Mean pmf
       = Qc_of_Z (fold_left Z.add t 0%Z) / Qc_of_Z (Z.of_nat (length t)).
Proof.
  intros Hne. unfold MakePmfFromList.
  change (MakeHistFromList t) with (tally_from [] t).
  set (hist := tally_from [] t).
  assert (Hok : dict_ok hist) by (apply tally_from_ok; constructor).
  assert (Ht : DictWrapper.Total hist = Qc_of_Z (Z.of_nat (length t))).
  { unfold hist. rewrite tally_from_Total. unfold DictWrapper.Total. simpl.
    rewrite py_sum_nil. ring. }
  assert (Hpos : 0 < Qc_of_Z (Z.of_nat (length t))).
  { apply Qc_of_Z_pos. destruct t; [congruence|simpl; lia]. }
  assert (Hnz : DictWrapper.Total hist <> 0).
  { rewrite Ht. intros E. rewrite E in Hpos. exact (Qclt_not_eq 0 0 Hpos eq_refl). }
  eexists. split; [now apply MakePmfFromHist_nonzero|].
  rewrite Mean_map_scale. unfold hist at 1. rewrite tally_from_Mean.
  unfold Pmf.Mean at 1. simpl. rewrite <- Ht. now field.
Qed.

Lemma Qc_square_nonneg (x : Qc) : 0 <= x ^ 2.
Proof. simpl. to_Q. nra. Qed.

Lemma Var_as_sum (mu : option Qc) (d : dict Z) :
  let m := match mu with None => Pmf.Mean d | Some m => m end in
  Pmf.Var mu d
  = py_sum (map (fun it => snd it * (Qc_of_Z (fst it) - m) ^ 2) d).
Proof.
  cbv zeta. unfold Pmf.Var.
  rewrite (fold_left_add
             (fun it => snd it *
                (Qc_of_Z (fst it)
                 - match mu with None => Pmf.Mean d | Some m => m end) ^ 2)).
  ring.
Qed.

Lemma Var_None_as_sum (d : dict Z) :
  Pmf.Var None d
  = py_sum (map (fun it => snd it * (Qc_of_Z (fst it) - Pmf.Mean d) ^ 2) d).
Proof. exact (Var_as_sum None d). Qed.

Lemma Var_Some_as_sum (m : Qc) (d : dict Z) :
  Pmf.Var (Some m) d
  = py_sum (map (fun it => snd it * (Qc_of_Z (fst it) - m) ^ 2) d).
Proof. exact (Var_as_sum (Some m) d). Qed.

Lemma Var_expand (m : Qc) (d : dict Z) :
  py_sum (map (fun it => snd it * (Qc_of_Z (fst it) - m) ^ 2) d)
  = moment2 d - (1 + 1) * m * Pmf.Mean d + m * m * DictWrapper.Total d.
Proof.
  rewrite Mean_as_sum. unfold moment2, DictWrapper.Total, values.
  induction d as [|[x p] d IH]; cbn [map].
  - rewrite !py_sum_nil. ring.
  - rewrite !py_sum_cons, IH. cbn [fst snd Qcpower]. ring.
Qed.

(** On a normalized PMF with non-negative weights, [Var()] is the second
    moment minus the square of [Mean()]; it is not negative, and the
    variance around any other point [m] exceeds it by the square of the
    distance from [m] to the mean. *)
Theorem Pmf_Var_around_mean (d : dict Z) :
  DictWrapper.Total d = 1 -> Forall (Qcle 0) (values d) ->
  Pmf.Var None d = moment2 d - Pmf.Mean d * Pmf.Mean d
  /\ 0 <= Pmf.Var None d
  /\ (forall m, Pmf.Var (Some m) d = Pmf.Var None d + (m - Pmf.Mean d) ^ 2)
  /\ (forall m, Pmf.Var None d <= Pmf.Var (Some m) d).
Proof.
  intros Ht Hpos.
  assert (Hnone : Pmf.Var None d = moment2 d - Pmf.Mean d * Pmf.Mean d).
  { rewrite Var_None_as_sum, (Var_expand (Pmf.Mean d) d), Ht. ring. }
  assert (Hsome : forall m, Pmf.Var (Some m) d
                            = Pmf.Var None d + (m - Pmf.Mean d) ^ 2).
  { intros m. rewrite Hnone, Var_Some_as_sum, (Var_expand m d), Ht.
    simpl. ring. }
  split; [exact Hnone|]. split; [|split; [exact Hsome|]].
  - rewrite Var_None_as_sum. apply py_sum_nonneg.
    apply Forall_map. unfold values in Hpos. rewrite Forall_map in Hpos.
    eapply Forall_impl; [|exact Hpos].
    intros it Hit. apply Qcmult_nonneg; [exact Hit|apply Qc_square_nonneg].
  - intros m. rewrite Hsome.
    pose proof (Qc_square_nonneg (m - Pmf.Mean d)) as Hsq.
    rewrite <- (Qcplus_0_r (Pmf.Var None d)) at 1.
    rewrite !(Qcplus_comm (Pmf.Var None d)).
    apply Qcplus_le_compat; [exact Hsq|apply Qcle_refl].
Qed.

(** ** MakePmfFromCdf *)

Lemma last_cons_default {A : Type} (l : list A) :
  forall a d : A, last (a :: l) d = last l a.
Proof.
  induction l as [|b l IH]; intros a d; [reflexivity|].
  change (last (a :: b :: l) d) with (last (b :: l) d).
  now rewrite !IH.
Qed.

Lemma last_default_irrelevant {A : Type} (l : list A) (d d' : A) :
  l <> [] -> last l d = last l d'.
Proof.
  destruct l as [|a l]; [congruence|]. intros _.
  now rewrite !last_cons_default.
Qed.

Lemma map_fst_combine {A B : Type} (l1 : list A) :
  forall l2 : list B, length l1 = length l2 -> map fst (combine l1 l2) = l1.
Proof.
  induction l1 as [|a l1 IH]; intros [|b l2]; simpl; try discriminate;
    [reflexivity|].
  intros [= Hlen]. now rewrite IH.
Qed.

Lemma map_snd_combine {A B : Type} (l1 : list A) :
  forall l2 : list B, length l1 = length l2 -> map snd (combine l1 l2) = l2.
Proof.
  induction l1 as [|a l1 IH]; intros [|b l2]; simpl; try discriminate;
    [reflexivity|].
  intros [= Hlen]. now rewrite IH.
Qed.

Lemma dict_get_nonneg {K : Type} `{Hashable K} (d : dict K) (x : K) :
  Forall (Qcle 0) (values d) -> 0 <= dict_get d x 0.
Proof.
  intros Hd. unfold dict_get. destruct (dict_lookup d x) as [w|] eqn:E.
  - apply dict_lookup_Some_In in E. rewrite Forall_forall in Hd.
    apply Hd. change w with (snd (x, w)). now apply in_map.
  - apply Qcle_refl.
Qed.

Lemma Qc_nonneg_plus_diff (a b c : Qc) : 0 <= a -> b <= c -> 0 <= a + (c - b).
Proof. intros Ha Hbc. to_Q. lra. Qed.

Lemma pmf_from_cdf_inv (items : list (Z * Qc)) :
  forall (acc : dict Z) (prev : Qc),
    Sorted Qcle (prev :: map snd items) ->
    dict_ok acc -> Forall (Qcle 0) (values acc) ->
    let pmf := fst (fold_left pmf_from_cdf_step items (acc, prev)) in
    dict_ok pmf
    /\ Forall (Qcle 0) (values pmf)
    /\ DictWrapper.Total pmf
       = DictWrapper.Total acc + (last (map snd items) prev - prev)
    /\ (forall x, In x (keys pmf) <-> In x (keys acc) \/ In x (map fst items)).
Proof.
  induction items as [|[x p] items IH]; intros acc prev Hs Hok Hpos; cbv zeta.
  - simpl. repeat split; auto; try tauto. ring.
  - cbn [fold_left pmf_from_cdf_step map fst snd].
    inversion Hs as [|? ? Hs' Hhd]; subst. inversion Hhd; subst.
    destruct (IH (DictWrapper.Incr x (p - prev) acc) p Hs')
      as (Hok' & Hpos' & Ht & Hk).
    + now apply Incr_ok.
    + apply dict_set_Forall; [exact Hpos|].
      apply Qc_nonneg_plus_diff; [now apply dict_get_nonneg|assumption].
    + cbv zeta in *. split; [exact Hok'|]. split; [exact Hpos'|]. split.
      * rewrite Ht, Total_Incr, last_cons_default. ring.
      * intros k. rewrite Hk, keys_Incr. simpl. intuition.
Qed.

(** From a properly constructed non-empty CDF, [MakePmfFromCdf] recovers a
    PMF over exactly the CDF's values, with non-negative masses that sum to
    1. *)
Theorem MakePmfFromCdf_normalized (c : cdf) :
  Cdf_ok c -> xs c <> [] ->
  let pmf := MakePmfFromCdf c in
  dict_ok pmf
  /\ Forall (Qcle 0) (values pmf)
  /\ DictWrapper.Total pmf = 1
  /\ (forall x, In x (DictWrapper.Values pmf) <-> In x (xs c)).
Proof.
  intros Hok Hne. pose proof (Cdf_ok_nonempty_ps c Hok Hne) as Hnep.
  destruct Hok as (Hlen & _ & Hps & Hrange & Hlast).
  destruct (pmf_from_cdf_inv (Cdf.Items c) [] 0) as (H1 & H2 & H3 & H4).
  - unfold Cdf.Items. rewrite map_snd_combine by exact Hlen.
    constructor; [exact Hps|].
    destruct (ps c) as [|p0 l]; [congruence|]. constructor.
    inversion Hrange; subst. tauto.
  - constructor.
  - constructor.
  - cbv zeta in *. unfold Cdf.Items in *.
    rewrite map_snd_combine in H3 by exact Hlen.
    rewrite map_fst_combine in H4 by exact Hlen.
    split; [exact H1|]. split; [exact H2|]. split.
    + eapply eq_trans; [exact H3|].
      rewrite (last_default_irrelevant (ps c) 0 1 Hnep), Hlast.
      unfold DictWrapper.Total. simpl. rewrite py_sum_nil. ring.
    + intros x. eapply iff_trans; [exact (H4 x)|]. simpl. tauto.
Qed.

(** ** MakeCdfFromItems on any items *)

Lemma runsums_bounds_nonneg (l : list Qc) :
  Forall (Qcle 0) l ->
  forall r, Forall (fun s => r <= s <= r + py_sum l) (runsums r l).
Proof.
  induction 1 as [|c l Hc Hl IH]; intros r; simpl; constructor.
  - rewrite py_sum_cons. pose proof (py_sum_nonneg l Hl).
    split; to_Q; lra.
  - eapply Forall_impl; [|apply (IH (r + c))].
    intros s [H1 H2]. rewrite py_sum_cons. split; to_Q; lra.
Qed.

Lemma runsums_Sorted_nonneg (l : list Qc) :
  Forall (Qcle 0) l -> forall r, Sorted Qcle (runsums r l).
Proof.
  induction 1 as [|c l Hc Hl IH]; intros r; simpl; constructor.
  - apply IH.
  - destruct l as [|c' l]; simpl; constructor.
    inversion Hl; subst. to_Q. lra.
Qed.

Lemma div_all_zero (cs : list Qc) :
  cs <> [] -> div_all cs 0 = Raise ZeroDivisionError.
Proof.
  destruct cs as [|c cs]; [congruence|reflexivity].
Qed.

Lemma sorted_nonempty (items : list (Z * Qc)) : items <> [] -> sorted items <> [].
Proof.
  intros Hne E. pose proof (sorted_Permutation items) as Hp.
  rewrite E in Hp. symmetry in Hp. apply Permutation_nil in Hp. congruence.
Qed.

Lemma MakeCdfFromItems_nonneg (items : list (Z * Qc)) :
  Forall (Qcle 0) (map snd items) -> py_sum (map snd items) <> 0 ->
  exists c : cdf,
    MakeCdfFromItems items = Ok c
    /\ Cdf_ok c
    /\ xs c <> []
    /\ xs c = map fst (sorted items).
Proof.
  intros Hpos Htne.
  assert (Hne : items <> []).
  { intros ->. apply Htne. reflexivity. }
  assert (Ht : 0 < py_sum (map snd items)).
  { destruct (Qcle_lt_or_eq _ _ (py_sum_nonneg _ Hpos)); congruence. }
  pose proof (sorted_Permutation items) as Hperm.
  pose proof (sorted_nonempty items Hne) as Hsne.
  set (l := sorted items) in *.
  assert (Hposl : Forall (Qcle 0) (map snd l)).
  { rewrite Forall_forall in *. intros w Hw. apply Hpos.
    eapply Permutation_in; [|exact Hw].
    apply Permutation_map. now symmetry. }
  assert (Hsum : py_sum (map snd l) = py_sum (map snd items)).
  { symmetry. now apply py_sum_Permutation, Permutation_map. }
  assert (Hlne : map snd l <> []).
  { intros E. apply map_eq_nil in E. congruence. }
  eexists. split; [apply MakeCdfFromItems_nonzero; exact Htne|].
  fold l. cbn [xs ps]. split; [|split; [|reflexivity]].
  - unfold Cdf_ok. cbn [xs ps]. split; [|split; [|split; [|split]]].
    + now rewrite !length_map, runsums_length, length_map.
    + apply Sorted_by_value_fst, sorted_Sorted.
    + apply Sorted_map_div; [exact Ht|]. now apply runsums_Sorted_nonneg.
    + apply Forall_map.
      eapply Forall_impl; [|apply (runsums_bounds_nonneg _ Hposl 0)].
      intros s [H1 H2]. cbv beta. rewrite Hsum, Qcplus_0_l in H2. split.
      * apply Qcmult_nonneg; [exact H1|]. apply Qclt_le_weak, Qcinv_pos, Ht.
      * rewrite <- (Qcdiv_self _ Htne). now apply Qcdiv_le_compat.
    + rewrite (last_map_nonempty _ _ 0) by now apply runsums_nonempty.
      rewrite (runsums_last _ 0 _ Hlne), Hsum, Qcplus_0_l.
      now apply Qcdiv_self.
  - intros E. apply map_eq_nil in E. congruence.
Qed.

(** [MakeCdfFromItems] returns the empty CDF for no items, raises
    ZeroDivisionError for items whose counts sum to 0, and otherwise returns
    the values in ascending order with as many cumulative probabilities. *)
Theorem MakeCdfFromItems_errors (items : list (Z * Qc)) :
  MakeCdfFromItems [] = Ok (mkCdf [] [])
  /\ (items <> [] -> py_sum (map snd items) = 0 ->
      MakeCdfFromItems items = Raise ZeroDivisionError)
  /\ (py_sum (map snd items) <> 0 ->
      exists c, MakeCdfFromItems items = Ok c
                /\ xs c = map fst (sorted items)
                /\ length (ps c) = length (xs c)).
Proof.
  split; [reflexivity|]. split.
  - intros Hne Hz. unfold MakeCdfFromItems. rewrite cdf_items_loop.
    assert (E : 0 + py_sum (map snd (sorted items)) = 0).
    { rewrite Qcplus_0_l, <- Hz. symmetry.
      apply py_sum_Permutation, Permutation_map, sorted_Permutation. }
    rewrite E. simpl app. rewrite div_all_zero; [reflexivity|].
    apply runsums_nonempty. intros Em. apply map_eq_nil in Em.
    now apply (sorted_nonempty items Hne).
  - intros Hnz. eexists. split; [now apply MakeCdfFromItems_nonzero|].
    cbn [xs ps]. split; [reflexivity|].
    now rewrite !length_map, runsums_length, length_map.
Qed.

(** With counts that are not negative and do not all vanish,
    [MakeCdfFromItems] returns a properly constructed CDF; counts of 0 are
    allowed and give plateaus. *)
Theorem MakeCdfFromItems_nonneg_ok (items : list (Z * Qc)) :
  Forall (Qcle 0) (map snd items) -> py_sum (map snd items) <> 0 ->
  exists c : cdf,
    MakeCdfFromItems items = Ok c
    /\ Cdf_ok c
    /\ xs c <> []
    /\ Permutation (xs c) (map fst items).
Proof.
  intros Hpos Hnz.
  destruct (MakeCdfFromItems_nonneg items Hpos Hnz) as (c & Hc & Hok & Hne & Hxs).
  exists c. split; [exact Hc|]. split; [exact Hok|]. split; [exact Hne|].
  rewrite Hxs. apply Permutation_map. symmetry. apply sorted_Permutation.
Qed.

(** ** Cdf.Prob and Cdf.Value as functions of their argument *)

Lemma Prob_below (c : cdf) (x : Z) :
  xs c <> [] -> (x < hd 0 (xs c))%Z -> Cdf.Prob c x = Ok 0.
Proof.
  intros Hne Hx. unfold Cdf.Prob. rewrite (subscript_head (xs c) 0%Z Hne).
  apply Z.ltb_lt in Hx. now rewrite Hx.
Qed.

Lemma Prob_at (c : cdf) (x : Z) :
  Cdf_ok c -> xs c <> [] -> (hd 0 (xs c) <= x)%Z ->
  exists i p,
    insertion_point_right Z.lt (xs c) x i
    /\ (1 <= i)%nat
    /\ nth_error (ps c) (i - 1) = Some p
    /\ Cdf.Prob c x = Ok p.
Proof.
  intros (Hlen & Hxs & _) Hne Hx. unfold Cdf.Prob.
  rewrite (subscript_head (xs c) 0%Z Hne).
  destruct (Z.ltb_spec x (hd 0%Z (xs c))) as [Hlt|_]; [lia|].
  pose proof (bisect_Z_insertion_point (xs c) x Hxs) as Hip.
  set (i := bisect Z.ltb (xs c) x) in *.
  assert (Hi : (1 <= i)%nat).
  { destruct Hip as (_ & _ & Ha). destruct i; [|lia].
    destruct (xs c) as [|x0 l] eqn:E; [congruence|].
    specialize (Ha 0%nat x0 (le_n 0) eq_refl). simpl in Hx. lia. }
  destruct (nth_error_defined (ps c) (i - 1)) as [p Hp].
  { destruct Hip as (Hb & _). lia. }
  exists i, p. repeat split; try apply Hip; auto.
  unfold subscript. now rewrite py_index_pred, Hp.
Qed.

Lemma insertion_point_mono_Z (a : list Z) (x y : Z) (i j : nat) :
  insertion_point_right Z.lt a x i -> insertion_point_right Z.lt a y j ->
  (x <= y)%Z -> (i <= j)%nat.
Proof.
  intros (Hi & Hbx & _) (_ & _ & Hay) Hxy.
  destruct (Nat.le_gt_cases i j) as [|Hji]; [assumption|]. exfalso.
  destruct (nth_error_defined a j) as [v Hv]; [lia|].
  pose proof (Hbx j v Hji Hv). pose proof (Hay j v (le_n j) Hv). lia.
Qed.

Lemma ps_in_range (c : cdf) (k : nat) (q : Qc) :
  Cdf_ok c -> nth_error (ps c) k = Some q -> 0 <= q <= 1.
Proof.
  intros (_ & _ & _ & Hrange & _) Hq. rewrite Forall_forall in Hrange.
  apply Hrange. eapply nth_error_In; eauto.
Qed.

(** On a properly constructed non-empty CDF, [Prob] never raises, stays
    within [0,1], does not decrease as [x] grows, and is 1 from the largest
    stored value on. *)
Theorem Cdf_Prob_monotone (c : cdf) :
  Cdf_ok c -> xs c <> [] ->
  (forall x, exists p, Cdf.Prob c x = Ok p /\ 0 <= p <= 1)
  /\ (forall x y p q, (x <= y)%Z ->
        Cdf.Prob c x = Ok p -> Cdf.Prob c y = Ok q -> p <= q)
  /\ (forall x, (last (xs c) 0 <= x)%Z -> Cdf.Prob c x = Ok 1).
Proof.
  intros Hok Hne.
  assert (Hrange : forall x, exists p, Cdf.Prob c x = Ok p /\ 0 <= p <= 1).
  { intros x. destruct (Z.lt_ge_cases x (hd 0%Z (xs c))) as [Hlt|Hge].
    - exists 0. split; [now apply Prob_below|].
      split; [apply Qcle_refl|]. to_Q. lra.
    - destruct (Prob_at c x Hok Hne Hge) as (i & p & _ & _ & Hp & Hprob).
      exists p. split; [exact Hprob|]. exact (ps_in_range c _ p Hok Hp). }
  split; [exact Hrange|]. split.
  - intros x y p q Hxy Hpx Hqy.
    destruct (Z.lt_ge_cases x (hd 0%Z (xs c))) as [Hlt|Hge].
    + rewrite (Prob_below c x Hne Hlt) in Hpx. injection Hpx as <-.
      destruct (Hrange y) as (q' & Hq' & Hq0 & _). congruence.
    + destruct (Prob_at c x Hok Hne Hge) as (i & p' & Hipx & Hi & Hp' & Hprob).
      destruct (Prob_at c y Hok Hne ltac:(lia))
        as (j & q' & Hipy & Hj & Hq' & Hproby).
      assert (p' = p) by congruence. assert (q' = q) by congruence. subst.
      pose proof (insertion_point_mono_Z _ _ _ _ _ Hipx Hipy Hxy).
      destruct Hok as (_ & _ & Hps & _).
      apply (Sorted_Qcle_nth (ps c) Hps (i - 1) (j - 1)); auto. lia.
  - intros x Hx.
    assert (Hsorted : Sorted Z.le (xs c)) by apply Hok.
    pose proof (sorted_head_least (xs c) Hsorted) as Hhd.
    pose proof (sorted_last_greatest (xs c) Hsorted) as Hlastx.
    rewrite Forall_forall in Hhd, Hlastx.
    assert (Hge : (hd 0 (xs c) <= x)%Z).
    { assert (In (last (xs c) 0%Z) (xs c)).
      { eapply nth_error_In. now apply nth_error_last. }
      specialize (Hhd _ H). lia. }
    destruct (Prob_at c x Hok Hne Hge) as (i & p & Hip & Hi & Hp & Hprob).
    rewrite Hprob. f_equal.
    destruct Hip as (Hile & _ & Habove).
    assert (Hlen : length (xs c) = length (ps c)) by apply Hok.
    assert (i = length (xs c)).
    { destruct (Nat.eq_dec i (length (xs c))) as [|Hn]; [assumption|].
      destruct (nth_error_defined (xs c) i) as [v Hv]; [lia|].
      pose proof (Habove i v (le_n i) Hv).
      specialize (Hlastx v (nth_error_In _ _ Hv)). lia. }
    subst i. rewrite Hlen in Hp.
    rewrite (nth_error_last (ps c) 1 (Cdf_ok_nonempty_ps c Hok Hne)) in Hp.
    destruct Hok as (_ & _ & _ & _ & Hlast). congruence.
Qed.

Lemma Value_at (c : cdf) (p : Qc) :
  Cdf_ok c -> xs c <> [] -> 0 <= p <= 1 ->
  exists k v q,
    nth_error (xs c) k = Some v
    /\ nth_error (ps c) k = Some q
    /\ Cdf.Value c p = Ok v
    /\ p <= q
    /\ (forall j q', (j < k)%nat -> nth_error (ps c) j = Some q' -> q' <= p).
Proof.
  intros Hok Hne [H0 H1].
  pose proof (Cdf_ok_nonempty_ps c Hok Hne) as Hnep.
  assert (Hlen : length (xs c) = length (ps c)) by apply Hok.
  destruct (Qcle_lt_or_eq _ _ H0) as [H0'|E0].
  2:{ subst p. destruct (nth_error_defined (ps c) 0) as [q Hq].
      { destruct (ps c); simpl; [congruence|lia]. }
      exists 0%nat, (hd 0%Z (xs c)), q. split.
      { destruct (xs c); [congruence|reflexivity]. }
      split; [exact Hq|]. split.
      { unfold Cdf.Value. simpl. now apply subscript_head. }
      split; [apply (ps_in_range c 0 q Hok Hq)|]. intros j q' Hj. lia. }
  destruct (Qcle_lt_or_eq _ _ H1) as [H1'|E1].
  2:{ subst p. exists (length (xs c) - 1)%nat, (last (xs c) 0%Z), 1.
      split; [now apply nth_error_last|]. split.
      { rewrite Hlen, (nth_error_last (ps c) 1 Hnep). f_equal. apply Hok. }
      split.
      { unfold Cdf.Value. simpl. now apply subscript_last. }
      split; [apply Qcle_refl|].
      intros j q' _ Hq'. apply (ps_in_range c j q' Hok Hq'). }
  destruct (Value_interior c p Hok Hne (conj H0' H1'))
    as (Hip & Hi & k & v & q & Hv & Hq & Hval & Hk).
  exists k, v, q. split; [exact Hv|]. split; [exact Hq|]. split; [exact Hval|].
  split.
  - destruct Hk as [[_ ->]|(_ & Hlt & _)];
      [apply Qcle_refl|now apply Qclt_le_weak].
  - intros j q' Hj Hq'. destruct Hip as (_ & Hbelow & _).
    apply Qcnot_lt_le. apply (Hbelow j q'); [|exact Hq'].
    destruct Hk as [[<- _]|(<- & _)]; lia.
Qed.

Lemma Value_stored (c : cdf) (p : Qc) :
  Cdf_ok c -> xs c <> [] -> 0 <= p <= 1 ->
  exists v, Cdf.Value c p = Ok v /\ In v (xs c).
Proof.
  intros Hok Hne Hp.
  destruct (Value_at c p Hok Hne Hp) as (k & v & q & Hv & _ & Hval & _).
  exists v. split; [exact Hval|]. eapply nth_error_In; eauto.
Qed.

Lemma Value_mono (c : cdf) (p q : Qc) (v w : Z) :
  Cdf_ok c -> xs c <> [] -> 0 <= p -> p <= q -> q <= 1 ->
  Cdf.Value c p = Ok v -> Cdf.Value c q = Ok w -> (v <= w)%Z.
Proof.
  intros Hok Hne H0 Hpq H1 Hv Hw.
  destruct (Qcle_lt_or_eq _ _ Hpq) as [Hlt|E];
    [|subst q; assert (v = w) by congruence; lia].
  destruct (Value_at c p Hok Hne (conj H0 (Qcle_trans _ _ _ Hpq H1)))
    as (kp & v' & qp & Hxv & Hqp & Hval & Hpge & Hbefore).
  destruct (Value_at c q Hok Hne (conj (Qcle_trans _ _ _ H0 Hpq) H1))
    as (kq & w' & qq & Hxw & Hqq & Hvalq & Hqge & _).
  assert (v' = v) by congruence. assert (w' = w) by congruence. subst.
  assert (Hk : (kp <= kq)%nat).
  { destruct (Nat.le_gt_cases kp kq) as [|Hgt]; [assumption|]. exfalso.
    pose proof (Hbefore kq qq Hgt Hqq) as Hle.
    apply (Qclt_not_le _ _ Hlt). eapply Qcle_trans; eauto. }
  destruct Hok as (_ & Hxs & _).
  exact (Sorted_Zle_nth (xs c) Hxs kp kq v w Hk Hxv Hxw).
Qed.

(** On a properly constructed non-empty CDF, [Value(p)] for [p] in [0,1]
    returns one of the stored values, and a larger [p] never gives a smaller
    value. *)
Theorem Cdf_Value_monotone (c : cdf) :
  Cdf_ok c -> xs c <> [] ->
  (forall p, 0 <= p <= 1 -> exists v, Cdf.Value c p = Ok v /\ In v (xs c))
  /\ (forall p q v w, 0 <= p -> p <= q -> q <= 1 ->
        Cdf.Value c p = Ok v -> Cdf.Value c q = Ok w -> (v <= w)%Z).
Proof.
  intros Hok Hne. split.
  - intros p Hp. now apply Value_stored.
  - intros p q v w. now apply Value_mono.
Qed.

Lemma Qc_lt_irrefl (x : Qc) : ~ x < x.
Proof. intros Hx. exact (Qclt_not_eq x x Hx eq_refl). Qed.

Lemma strict_ps_index (l : list Qc) (i j : nat) (q : Qc) :
  StronglySorted Qclt l ->
  nth_error l i = Some q -> nth_error l j = Some q -> i = j.
Proof.
  intros Hs Hi Hj.
  destruct (Nat.lt_trichotomy i j) as [Hlt|[E|Hlt]]; [|exact E|]; exfalso.
  - exact (Qc_lt_irrefl q (StronglySorted_nth Qclt l Hs i j q q Hlt Hi Hj)).
  - exact (Qc_lt_irrefl q (StronglySorted_nth Qclt l Hs j i q q Hlt Hj Hi)).
Qed.

(** Where values and cumulative probabilities both increase strictly (a CDF
    built from positive counts of distinct values), the two lookups undo
    each other at every stored value: [Prob] of a stored value is its
    cumulative probability, and [Value] of that probability is the value. *)
Theorem Value_Prob_roundtrip (c : cdf) (k : nat) (x : Z) (p : Qc) :
  Cdf_ok c ->
  StronglySorted Z.lt (xs c) -> StronglySorted Qclt (ps c) ->
  nth_error (xs c) k = Some x -> nth_error (ps c) k = Some p ->
  Cdf.Prob c x = Ok p /\ Cdf.Value c p = Ok x.
Proof.
  intros Hok Hsx Hsp Hx Hp.
  assert (Hne : xs c <> []) by (intros E; rewrite E in Hx; destruct k; discriminate).
  pose proof (Cdf_ok_nonempty_ps c Hok Hne) as Hnep.
  assert (Hlen : length (xs c) = length (ps c)) by apply Hok.
  assert (Hsorted : Sorted Z.le (xs c)) by apply Hok.
  split.
  - pose proof (sorted_head_least (xs c) Hsorted) as Hhd.
    rewrite Forall_forall in Hhd. specialize (Hhd x (nth_error_In _ _ Hx)).
    destruct (Prob_at c x Hok Hne Hhd) as (i & p' & Hip & Hi & Hp' & Hprob).
    rewrite Hprob. f_equal. destruct Hip as (Hile & Hbelow & Habove).
    assert (Hki : (k < i)%nat).
    { destruct (Nat.le_gt_cases i k) as [Hle|]; [|assumption].
      pose proof (Habove k x Hle Hx). lia. }
    assert (i = S k).
    { destruct (Nat.eq_dec i (S k)) as [|Hn]; [assumption|]. exfalso.
      destruct (nth_error_defined (xs c) (S k)) as [v Hv]; [lia|].
      pose proof (Hbelow (S k) v ltac:(lia) Hv).
      pose proof (StronglySorted_nth Z.lt _ Hsx k (S k) x v ltac:(lia) Hx Hv).
      lia. }
    subst i. replace (S k - 1)%nat with k in Hp' by lia. congruence.
  - destruct (ps_in_range c k p Hok Hp) as [H0 H1].
    destruct (Qcle_lt_or_eq _ _ H0) as [H0'|E0].
    2:{ subst p. unfold Cdf.Value. simpl.
        rewrite (subscript_head (xs c) 0%Z Hne). f_equal.
        destruct (nth_error_defined (ps c) 0) as [q0 Hq0].
        { destruct (ps c); simpl; [congruence|lia]. }
        destruct k as [|k].
        - destruct (xs c); simpl in *; congruence.
        - exfalso.
          pose proof (StronglySorted_nth Qclt _ Hsp 0 (S k) q0 0
                        ltac:(lia) Hq0 Hp) as Hlt.
          destruct (ps_in_range c 0 q0 Hok Hq0) as [Hq _].
          exact (Qclt_not_le _ _ Hlt Hq). }
    destruct (Qcle_lt_or_eq _ _ H1) as [H1'|E1].
    2:{ subst p. unfold Cdf.Value. simpl.
        rewrite (subscript_last (xs c) 0%Z Hne). f_equal.
        assert (Hl : nth_error (ps c) (length (ps c) - 1) = Some 1).
        { rewrite (nth_error_last (ps c) 1 Hnep). f_equal. apply Hok. }
        pose proof (strict_ps_index _ _ _ _ Hsp Hp Hl) as Ek.
        pose proof (nth_error_last (xs c) 0%Z Hne) as Hxl.
        rewrite Hlen, <- Ek in Hxl. congruence. }
    destruct (Value_interior c p Hok Hne (conj H0' H1'))
      as (Hip & Hi & k' & v & q & Hv & Hq & Hval & Hk).
    rewrite Hval. f_equal.
    destruct Hip as (Hile & Hbelow & Habove).
    assert (Hki : (k < bisect Qc_ltb (ps c) p)%nat).
    { destruct (Nat.le_gt_cases (bisect Qc_ltb (ps c) p) k) as [Hle|];
        [|assumption].
      exfalso. exact (Qc_lt_irrefl p (Habove k p Hle Hp)). }
    destruct Hk as [[Hki' ->]|(Hki' & Hlt & Hprev)].
    + pose proof (strict_ps_index _ _ _ _ Hsp Hq Hp). subst k'. congruence.
    + exfalso. subst k'.
      destruct (bisect Qc_ltb (ps c) p) as [|i'] eqn:Ei; [lia|].
      destruct (nth_error_defined (ps c) i') as [ql Hql]; [lia|].
      apply (Hprev i' ql eq_refl Hql).
      destruct (Nat.eq_dec k i') as [->|Hn]; [congruence|].
      exfalso.
      pose proof (StronglySorted_nth Qclt _ Hsp k i' p ql ltac:(lia) Hp Hql).
      exact (Hbelow i' ql (Nat.lt_succ_diag_r i') Hql H).
Qed.

(** ** Cdf.Percentile, ConfidenceInterval *)

Lemma Qcdiv_100 (p : Qc) : p / Q2Qc 100 = p * Q2Qc (1 # 100).
Proof.
  unfold Qcdiv. replace (/ Q2Qc 100) with (Q2Qc (1 # 100)) by qc_compute.
  reflexivity.
Qed.

Lemma Qcdiv_2 (p : Qc) : p / Q2Qc 2 = p * Q2Qc (1 # 2).
Proof.
  unfold Qcdiv. replace (/ Q2Qc 2) with (Q2Qc (1 # 2)) by qc_compute.
  reflexivity.
Qed.

Lemma percent_lt_0 (p : Qc) : p / Q2Qc 100 < 0 <-> p < 0.
Proof. rewrite Qcdiv_100. split; intros Hp; to_Q; lra. Qed.

Lemma percent_gt_1 (p : Qc) : 1 < p / Q2Qc 100 <-> Q2Qc 100 < p.
Proof. rewrite Qcdiv_100. split; intros Hp; to_Q; lra. Qed.

Lemma percent_range (p : Qc) :
  0 <= p <= Q2Qc 100 <-> 0 <= p / Q2Qc 100 <= 1.
Proof. rewrite Qcdiv_100. split; intros [H0 H1]; split; to_Q; lra. Qed.

(** On a properly constructed non-empty CDF, [Cdf.Percentile(p)] raises
    exactly when [p] is below 0 or above 100, and otherwise returns a stored
    value: the smallest one at 0, the largest at 100. *)
Theorem Cdf_Percentile_spec (c : cdf) (p : Qc) :
  Cdf_ok c -> xs c <> [] ->
  (raises (Cdf.Percentile c p) <-> p < 0 \/ Q2Qc 100 < p)
  /\ (0 <= p <= Q2Qc 100 ->
      exists v, Cdf.Percentile c p = Ok v /\ In v (xs c))
  /\ Cdf.Percentile c 0 = Ok (hd 0%Z (xs c))
  /\ Cdf.Percentile c (Q2Qc 100) = Ok (last (xs c) 0%Z).
Proof.
  intros Hok Hne. unfold Cdf.Percentile.
  assert (Hin : 0 <= p <= Q2Qc 100 ->
                exists v, Cdf.Value c (p / Q2Qc 100) = Ok v /\ In v (xs c)).
  { intros Hp. apply Value_stored; auto. now apply percent_range. }
  split; [|split; [exact Hin|split]].
  - split.
    + intros [e He].
      destruct (Qclt_le_dec p 0) as [|H0]; [now left|].
      destruct (Qclt_le_dec (Q2Qc 100) p) as [|H1]; [now right|]. exfalso.
      destruct (Hin (conj H0 H1)) as (v & Hv & _). congruence.
    + intros Hp. exists OutOfRange. apply Value_out_of_range.
      rewrite percent_lt_0, percent_gt_1. exact Hp.
  - replace (0 / Q2Qc 100) with (Q2Qc 0) by qc_compute.
    unfold Cdf.Value. simpl. now apply subscript_head.
  - replace (Q2Qc 100 / Q2Qc 100) with (Q2Qc 1) by qc_compute.
    unfold Cdf.Value. simpl. now apply subscript_last.
Qed.

Lemma interval_probs (percentage : Qc) :
  0 <= percentage <= Q2Qc 100 ->
  let prob := (1 - percentage / Q2Qc 100) / Q2Qc 2 in
  0 <= prob /\ prob <= 1 - prob /\ 1 - prob <= 1.
Proof.
  intros [H0 H1]. cbv zeta. rewrite Qcdiv_2, Qcdiv_100.
  repeat split; to_Q; lra.
Qed.

Lemma interval_prob_negative (percentage : Qc) :
  Q2Qc 100 < percentage -> (1 - percentage / Q2Qc 100) / Q2Qc 2 < 0.
Proof. intros H. rewrite Qcdiv_2, Qcdiv_100. to_Q. lra. Qed.

(** For a PMF whose weights are not negative and do not all vanish,
    [ConfidenceInterval] with a percentage in [0,100] returns two stored
    values [low <= high]; a percentage above 100 raises the ValueError of
    [Cdf.Value]. *)
Theorem ConfidenceInterval_spec (pmf : dict Z) :
  Forall (Qcle 0) (values pmf) -> DictWrapper.Total pmf <> 0 ->
  (forall percentage, 0 <= percentage <= Q2Qc 100 ->
     exists low high,
       ConfidenceInterval pmf percentage = Ok (low, high)
       /\ (low <= high)%Z
       /\ In low (DictWrapper.Values pmf)
       /\ In high (DictWrapper.Values pmf))
  /\ (forall percentage, Q2Qc 100 < percentage ->
        ConfidenceInterval pmf percentage = Raise OutOfRange).
Proof.
  intros Hpos Hnz.
  destruct (MakeCdfFromItems_nonneg pmf Hpos Hnz) as (c & Hc & Hok & Hne & Hxs).
  assert (Hkeys : forall v, In v (xs c) -> In v (DictWrapper.Values pmf)).
  { intros v Hv. rewrite Hxs in Hv. unfold DictWrapper.Values, keys.
    eapply Permutation_in; [|exact Hv].
    apply Permutation_map. symmetry. apply sorted_Permutation. }
  unfold ConfidenceInterval, MakeCdfFromPmf, DictWrapper.Items.
  rewrite Hc. split.
  - intros percentage Hp.
    destruct (interval_probs percentage Hp) as (H0 & Hmid & H1).
    cbv zeta in *.
    set (prob := (1 - percentage / Q2Qc 100) / Q2Qc 2) in *.
    destruct (Value_stored c prob Hok Hne) as (lo & Hlo & Hlo_in).
    { split; [exact H0|]. eapply Qcle_trans; eauto. }
    destruct (Value_stored c (1 - prob) Hok Hne) as (hi & Hhi & Hhi_in).
    { split; [|exact H1]. eapply Qcle_trans; eauto. }
    rewrite Hlo, Hhi. exists lo, hi. split; [reflexivity|].
    split; [|split; auto].
    exact (Value_mono c prob (1 - prob) lo hi Hok Hne H0 Hmid H1 Hlo Hhi).
  - intros percentage Hp. cbv zeta.
    rewrite Value_out_of_range; [reflexivity|].
    left. now apply interval_prob_negative.
Qed.

(** Every lookup on the empty CDF, which [MakeCdfFromItems] returns for no
    items, raises IndexError. *)
Theorem Cdf_empty_lookups :
  MakeCdfFromItems [] = Ok (mkCdf [] [])
  /\ (forall x, Cdf.Prob (mkCdf [] []) x = Raise IndexError)
  /\ (forall p, 0 <= p <= 1 -> Cdf.Value (mkCdf [] []) p = Raise IndexError)
  /\ Cdf.Render (mkCdf [] []) = Raise IndexError.
Proof.
  split; [reflexivity|]. split; [reflexivity|]. split; [|reflexivity].
  intros p Hp. unfold Cdf.Value. rewrite Value_in_range by exact Hp.
  destruct (Qc_eqb p 0); [reflexivity|].
  destruct (Qc_eqb p 1); reflexivity.
Qed.

(** ** Render *)

Lemma subscript_app_middle (pre suffix : list Z) (x : Z) :
  subscript (pre ++ x :: suffix) (Z.of_nat (length pre)) = Ok x.
Proof.
  apply subscript_nth. rewrite nth_error_app2 by lia.
  now rewrite Nat.sub_diag.
Qed.

Lemma subscript_past_end (l : list Z) :
  subscript l (Z.of_nat (length l)) = Raise IndexError.
Proof.
  unfold subscript. rewrite py_index_nat.
  replace (nth_error l (length l)) with (@None Z); [reflexivity|].
  symmetry. apply nth_error_None. lia.
Qed.

Lemma render_loop_cons (cxs : list Z) (i : nat) (p : Qc) (rest : list Qc)
    (rxs : list Z) (rps : list Qc) :
  Cdf.render_loop cxs i (p :: rest) rxs rps
  = match subscript cxs (Z.of_nat i) with
    | Raise e => Raise e
    | Ok xi =>
        match subscript cxs (Z.of_nat i + 1) with
        | Ok xn =>
            Cdf.render_loop cxs (S i) rest ((rxs ++ [xi]) ++ [xn])
                            ((rps ++ [p]) ++ [p])
        | Raise _ => Cdf.render_loop cxs (S i) rest (rxs ++ [xi]) (rps ++ [p])
        end
    end.
Proof. reflexivity. Qed.

Lemma render_loop_points (rest : list Qc) :
  forall (suffix pre rxs : list Z) (rps : list Qc) (x : Z) (p : Qc),
    length suffix = length rest ->
    Cdf.render_loop (pre ++ x :: suffix) (length pre) (p :: rest) rxs rps
    = Ok (rxs ++ x :: map fst (step_points p (combine suffix rest)),
          rps ++ p :: map snd (step_points p (combine suffix rest))).
Proof.
  induction rest as [|p' rest IH]; intros suffix pre rxs rps x p Hlen;
    rewrite render_loop_cons, subscript_app_middle;
    replace (Z.of_nat (length pre) + 1)%Z
      with (Z.of_nat (length (pre ++ [x]))) by (rewrite length_app; simpl; lia).
  - destruct suffix; [|discriminate].
    now rewrite subscript_past_end.
  - destruct suffix as [|x' suffix]; [discriminate|].
    injection Hlen as Hlen.
    replace (pre ++ x :: x' :: suffix) with ((pre ++ [x]) ++ x' :: suffix)
      by (now rewrite <- app_assoc).
    rewrite subscript_app_middle.
    replace (S (length pre)) with (length (pre ++ [x]))
      by (rewrite length_app; simpl; lia).
    rewrite IH by exact Hlen.
    cbn [combine step_points map fst snd]. now rewrite <- !app_assoc.
Qed.

Lemma step_points_length (items : list (Z * Qc)) :
  forall prev, length (step_points prev items) = (2 * length items)%nat.
Proof.
  induction items as [|[x p] items IH]; intros prev; simpl; [reflexivity|].
  rewrite IH. lia.
Qed.

Lemma step_points_no_slope (items : list (Z * Qc)) :
  forall prev, no_slope (step_points prev items).
Proof.
  induction items as [|[x p] items IH]; intros prev; [exact I|].
  cbn [step_points no_slope fst snd]. split; [now left|].
  specialize (IH p). destruct items as [|[x' p'] items]; [exact I|].
  cbn [step_points no_slope fst snd] in *. split; [now right|exact IH].
Qed.

Lemma combine_map_fst_snd {A B : Type} (l : list (A * B)) :
  combine (map fst l) (map snd l) = l.
Proof.
  induction l as [|[a b] l IH]; simpl; [reflexivity|]. now rewrite IH.
Qed.

(** [Cdf.Render] raises IndexError on the empty CDF.  On a CDF of [n >= 1]
    values and as many probabilities it returns [2n] points: it starts at
    height 0 over the first value, ends at the last stored pair, and draws
    the step function, every stored pair [(x, p)] giving the point below it
    at the previous height and the point itself, so that no segment is
    sloped. *)
Theorem Cdf_Render_steps (c : cdf) :
  length (xs c) = length (ps c) -> xs c <> [] ->
  exists rxs rps,
    Cdf.Render c = Ok (rxs, rps)
    /\ combine rxs rps = step_points 0 (Cdf.Items c)
    /\ length rxs = (2 * length (xs c))%nat
    /\ length rps = (2 * length (xs c))%nat
    /\ no_slope (combine rxs rps).
Proof.
  intros Hlen Hne. destruct c as [cx cp]. cbn [xs ps] in *.
  destruct cx as [|x0 cx]; [congruence|].
  destruct cp as [|p0 cp]; [discriminate|]. injection Hlen as Hlen.
  exists (map fst (step_points 0 (combine (x0 :: cx) (p0 :: cp)))),
         (map snd (step_points 0 (combine (x0 :: cx) (p0 :: cp)))).
  split.
  - unfold Cdf.Render. cbn [xs ps].
    change (subscript (x0 :: cx) 0) with (Ok x0 : outcome Z). cbv iota.
    exact (render_loop_points cp cx [] [x0] [0] x0 p0 Hlen).
  - unfold Cdf.Items. cbn [xs ps]. rewrite combine_map_fst_snd.
    split; [reflexivity|].
    rewrite !length_map, step_points_length, length_combine.
    cbn [length]. rewrite <- Hlen, Nat.min_id.
    split; [reflexivity|]. split; [reflexivity|].
    apply step_points_no_slope.
Qed.

Lemma nth_error_map_pair {A B : Type} (l : list (A * B)) (i : nat) (a : A) (b : B) :
  nth_error (map fst l) i = Some a -> nth_error (map snd l) i = Some b ->
  nth_error l i = Some (a, b).
Proof.
  revert i. induction l as [|[a' b'] l IH]; intros [|i]; simpl;
    try discriminate.
  - now intros [= ->] [= ->].
  - apply IH.
Qed.

(** [_DictWrapper.Render] returns no tuple for an empty map; otherwise it
    returns the stored values in ascending order and, position by position,
    the weight stored for each of them. *)
Theorem DictWrapper_Render_spec (d : dict Z) :
  dict_ok d ->
  (d = [] -> DictWrapper.Render d = DictWrapper.NoPoints)
  /\ (d <> [] ->
      exists vals weights,
        DictWrapper.Render d = DictWrapper.Points vals weights
        /\ Sorted Z.le vals
        /\ Permutation vals (DictWrapper.Values d)
        /\ length weights = length vals
        /\ forall i x w, nth_error vals i = Some x ->
                         nth_error weights i = Some w ->
                         dict_lookup d x = Some w).
Proof.
  intros Hok. split; [intros ->; reflexivity|]. intros Hne.
  pose proof (sorted_nonempty d Hne) as Hsne.
  pose proof (sorted_Permutation d) as Hperm.
  exists (map fst (sorted d)), (map snd (sorted d)). split.
  - unfold DictWrapper.Render, DictWrapper.Items.
    destruct (sorted d); [congruence|reflexivity].
  - split; [apply Sorted_by_value_fst, sorted_Sorted|].
    split; [apply Permutation_map; now symmetry|].
    split; [now rewrite !length_map|].
    intros i x w Hx Hw. apply dict_lookup_In; [exact Hok|].
    eapply Permutation_in; [symmetry; exact Hperm|].
    eapply nth_error_In. eapply nth_error_map_pair; eauto.
Qed.

(** ** Suite: the prior and Bayes' rule *)

Lemma fold_Set_keys (hypos : list string) :
  forall (acc : dict string) (h : string),
    In h (keys (fold_left (fun d hypo => DictWrapper.Set_ hypo 1 d) hypos acc))
    <-> In h (keys acc) \/ In h hypos.
Proof.
  induction hypos as [|h0 hypos IH]; intros acc h; simpl.
  - tauto.
  - rewrite IH. unfold DictWrapper.Set_. rewrite In_keys_dict_set. intuition.
Qed.

Lemma fold_Set_ones (hypos : list string) :
  forall acc : dict string,
    dict_ok acc -> Forall (eq 1) (values acc) ->
    let d := fold_left (fun d hypo => DictWrapper.Set_ hypo 1 d) hypos acc in
    dict_ok d /\ Forall (eq 1) (values d).
Proof.
  induction hypos as [|h hypos IH]; intros acc Ha Hb; simpl.
  - now split.
  - apply IH; [now apply dict_set_ok|now apply dict_set_Forall].
Qed.

Lemma py_sum_ones (l : list Qc) :
  Forall (eq 1) l -> py_sum l = Qc_of_Z (Z.of_nat (length l)).
Proof.
  induction 1 as [|x l Hx _ IH].
  - reflexivity.
  - subst x. cbn [length]. rewrite py_sum_cons, IH, Qc_of_Z_S. ring.
Qed.

(** [Suite(hypos)] raises the ValueError of [Normalize] when there is no
    hypothesis; otherwise it stores each distinct hypothesis once, all with
    the same weight, 1 over the number of distinct hypotheses. *)
Theorem Suite_init_uniform (hypos : list string) :
  Suite.init [] = Raise ZeroTotal
  /\ (hypos <> [] ->
      exists d : dict string,
        Suite.init hypos = Ok d
        /\ dict_ok d
        /\ (forall h, In h (DictWrapper.Values d) <-> In h hypos)
        /\ (forall h, In h hypos ->
              Pmf.Prob d h 0
              = 1 / Qc_of_Z (Z.of_nat (length (DictWrapper.Values d))))
        /\ DictWrapper.Total d = 1).
Proof.
  split; [reflexivity|]. intros Hne. unfold Suite.init.
  set (d0 := fold_left (fun d hypo => DictWrapper.Set_ hypo 1 d) hypos []).
  destruct (fold_Set_ones hypos [] (NoDup_nil _) (Forall_nil _)) as [Hok Hones].
  fold d0 in Hok, Hones. cbv zeta in Hok, Hones.
  assert (Hkeys : forall h, In h (keys d0) <-> In h hypos).
  { intros h. unfold d0. rewrite fold_Set_keys. simpl. tauto. }
  assert (Ht : DictWrapper.Total d0 = Qc_of_Z (Z.of_nat (length d0))).
  { unfold DictWrapper.Total. rewrite (py_sum_ones _ Hones).
    unfold values. now rewrite length_map. }
  assert (Hd0 : d0 <> []).
  { intros E. destruct hypos as [|h hypos]; [congruence|].
    assert (Hin : In h (keys d0)) by (apply Hkeys; now left).
    rewrite E in Hin. exact Hin. }
  assert (Hpos : 0 < Qc_of_Z (Z.of_nat (length d0))).
  { apply Qc_of_Z_pos. destruct d0; [congruence|simpl; lia]. }
  assert (Hnz : DictWrapper.Total d0 <> 0).
  { rewrite Ht. intros E. rewrite E in Hpos. exact (Qc_lt_irrefl 0 Hpos). }
  rewrite (Normalize_nonzero 1 d0 Hok Hnz).
  eexists. split; [reflexivity|].
  split; [unfold dict_ok; now rewrite keys_map_entries|].
  split; [intros h; unfold DictWrapper.Values; now rewrite keys_map_entries|].
  split.
  - intros h Hh. unfold DictWrapper.Values.
    rewrite keys_map_entries. unfold keys. rewrite length_map, <- Ht.
    unfold Pmf.Prob, dict_get. rewrite dict_lookup_map_entries.
    apply Hkeys in Hh.
    destruct (dict_lookup d0 h) as [w|] eqn:E.
    + apply dict_lookup_Some_In in E. rewrite Forall_forall in Hones.
      assert (1 = w).
      { apply Hones. change w with (snd (h, w)). now apply in_map. }
      subst w. simpl. ring.
    + exfalso. exact (dict_lookup_None d0 h E Hh).
  - rewrite Total_map_scale. now field.
Qed.


(** On floats the batched update can return as if all were well and leave
    weights that are no distribution.  After [UpdateSet(['B','C']*520)]
    on [Suite(['A','B','C'])] the un-normalised weight of A, and with it
    the total, is a subnormal float; the factor [1.0 / total] overflows to
    infinity, and [Normalize] leaves A: inf, B: nan, C: nan and returns
    the total.  [Update] per datum ends at A: 1.0, B: 0.0, C: 0.0, and so
    does [UpdateSet] on the 1000 data of [['B','C']*500], whose products
    are still normal floats. *)
Theorem UpdateSet_overflow :
  exists prior : Binary64.fdict,
    Binary64.init doors = Ok prior
    /\ (exists total : float,
          snd (Binary64.UpdateSet (BC_pairs 520) prior) = Ok total
          /\ PrimFloat.ltb 0 total = true
          /\ PrimFloat.div 1 total = PrimFloat.infinity)
    /\ Binary64.get (fst (Binary64.UpdateSet (BC_pairs 520) prior)) "A" 0
       = PrimFloat.infinity
    /\ PrimFloat.is_nan
         (Binary64.get (fst (Binary64.UpdateSet (BC_pairs 520) prior)) "B" 0)
       = true
    /\ PrimFloat.is_nan
         (Binary64.get (fst (Binary64.UpdateSet (BC_pairs 520) prior)) "C" 0)
       = true
    /\ Binary64.UpdateEach (BC_pairs 520) prior
       = ([("A"%string, 1%float); ("B"%string, 0%float);
           ("C"%string, 0%float)], Ok tt)
    /\ fst (Binary64.UpdateSet (BC_pairs 500) prior)
       = [("A"%string, 1%float); ("B"%string, 0%float);
          ("C"%string, 0%float)].
Proof.
  eexists. split; [reflexivity|].
  split; [eexists; split; [vm_compute; reflexivity|]|];
    repeat split; vm_compute; reflexivity.
Qed.

(** ** Walks that accumulate weight: Percentile and Pmf.Random *)

Lemma percentile_loop_None_total {K : Type} (items : list (K * Qc)) :
  forall total p,
    percentile_loop items total p = None ->
    items = [] \/ total + py_sum (map snd items) < p.
Proof.
  induction items as [|[x w] items IH]; intros total p; [now left|].
  cbn [percentile_loop map snd]. destruct (Qc_leb p (total + w)) eqn:E;
    [discriminate|].
  intros Hn. right. rewrite py_sum_cons.
  destruct (IH _ _ Hn) as [->|Hlt].
  - cbn [map]. rewrite py_sum_nil.
    replace (total + (w + 0)) with (total + w) by ring.
    apply Qcnot_le_lt. rewrite <- Qc_leb_le. congruence.
  - now replace (total + (w + py_sum (map snd items)))
      with (total + w + py_sum (map snd items)) by ring.
Qed.

Lemma Qc_le_plus_nonneg (a b : Qc) : 0 <= b -> a <= a + b.
Proof. intros Hb. to_Q. lra. Qed.

Lemma percentile_loop_short {K : Type} (items : list (K * Qc)) :
  Forall (Qcle 0) (map snd items) ->
  forall total p,
    total + py_sum (map snd items) < p ->
    percentile_loop items total p = None.
Proof.
  induction items as [|[k w] items IH]; intros Hpos total p Hlt;
    [reflexivity|].
  cbn [map snd] in Hpos, Hlt. inversion Hpos as [|? ? Hw Hrest]; subst.
  cbn [percentile_loop]. rewrite py_sum_cons in Hlt.
  replace (total + (w + py_sum (map snd items)))
    with (total + w + py_sum (map snd items)) in Hlt by ring.
  destruct (Qc_leb p (total + w)) eqn:E.
  - exfalso. apply Qc_leb_le in E.
    apply (Qclt_not_le _ _ Hlt). eapply Qcle_trans; [exact E|].
    apply Qc_le_plus_nonneg. now apply py_sum_nonneg.
  - now apply IH.
Qed.

(** On a non-empty PMF with non-negative weights the free [Percentile]
    falls off its loop and returns None exactly when the weights sum to
    less than [percentage / 100]; whatever it returns otherwise is a stored
    value. *)
Theorem Percentile_None (pmf : dict Z) (percentage : Qc) :
  pmf <> [] -> Forall (Qcle 0) (values pmf) ->
  (Percentile pmf percentage = None
   <-> DictWrapper.Total pmf < percentage / Q2Qc 100)
  /\ (forall v, Percentile pmf percentage = Some v ->
                In v (DictWrapper.Values pmf)).
Proof.
  intros Hne Hpos. unfold Percentile, DictWrapper.Items. split.
  - split.
    + intros Hn. destruct (percentile_loop_None_total _ _ _ Hn) as [E|Hlt];
        [congruence|].
      now rewrite Qcplus_0_l in Hlt.
    + intros Hlt. apply percentile_loop_short; [exact Hpos|].
      now rewrite Qcplus_0_l.
  - intros v Hv. apply percentile_loop_first_reaching in Hv.
    destruct Hv as (pre & w & post & -> & _).
    unfold DictWrapper.Values, keys. rewrite map_app.
    apply in_or_app. right. now left.
Qed.

Lemma random_loop_percentile {K : Type} (items : list (K * Qc)) :
  forall total target,
    Pmf.random_loop items total target
    = match percentile_loop items total target with
      | Some x => Pmf.Drawn x
      | None => Pmf.AssertFalse
      end.
Proof.
  induction items as [|[x w] items IH]; intros total target; [reflexivity|].
  cbn [Pmf.random_loop percentile_loop].
  destruct (Qc_leb target (total + w)); [reflexivity|apply IH].
Qed.

(** [Pmf.Random], for the number [target] that [random.random()] returns:
    an empty Pmf raises ValueError; a Pmf whose weights sum to at least
    [target] yields a stored value; a Pmf with non-negative weights that sum
    to less than [target] runs into [assert False]. *)
Theorem Pmf_Random_spec {K : Type} (d : dict K) (target : Qc) :
  (d = [] ->
   Pmf.Random target d = Pmf.NoValues (ValueError "Pmf contains no values."))
  /\ (d <> [] -> target <= DictWrapper.Total d ->
      exists x, Pmf.Random target d = Pmf.Drawn x
                /\ In x (DictWrapper.Values d))
  /\ (d <> [] -> Forall (Qcle 0) (values d) ->
      DictWrapper.Total d < target ->
      Pmf.Random target d = Pmf.AssertFalse).
Proof.
  split; [intros ->; reflexivity|].
  assert (Hloop : d <> [] ->
            Pmf.Random target d = Pmf.random_loop d 0 target).
  { intros Hne. unfold Pmf.Random, DictWrapper.Items.
    destruct d; [congruence|reflexivity]. }
  split.
  - intros Hne Ht. rewrite (Hloop Hne), random_loop_percentile.
    destruct (percentile_loop d 0 target) as [x|] eqn:E.
    + exists x. split; [reflexivity|].
      apply percentile_loop_first_reaching in E.
      destruct E as (pre & w & post & -> & _).
      unfold DictWrapper.Values, keys. rewrite map_app.
      apply in_or_app. right. now left.
    + exfalso. destruct (percentile_loop_None_total _ _ _ E) as [E'|Hlt];
        [congruence|].
      rewrite Qcplus_0_l in Hlt. exact (Qclt_not_le _ _ Hlt Ht).
  - intros Hne Hpos Hlt. rewrite (Hloop Hne), random_loop_percentile.
    rewrite percentile_loop_short; [reflexivity|exact Hpos|].
    now rewrite Qcplus_0_l.
Qed.

(** ** Cdf.Random, Cdf.Sample *)

(** On a properly constructed non-empty CDF, [Sample], fed numbers from
    [0,1] as [random.random()] gives them, returns one stored value for
    each number. *)
Theorem Cdf_Sample_spec (c : cdf) (targets : list Qc) :
  Cdf_ok c -> xs c <> [] -> Forall (fun t => 0 <= t <= 1) targets ->
  exists vs,
    Cdf.Sample targets c = Ok vs
    /\ length vs = length targets
    /\ Forall (fun v => In v (xs c)) vs.
Proof.
  intros Hok Hne. induction 1 as [|t targets Ht _ IH].
  - exists []. repeat split. constructor.
  - destruct IH as (vs & Hs & Hlen & Hin).
    destruct (Value_stored c t Hok Hne Ht) as (v & Hv & Hvin).
    exists (v :: vs). cbn [Cdf.Sample]. unfold Cdf.Random.
    rewrite Hv, Hs. split; [reflexivity|]. split; [simpl; now rewrite Hlen|].
    now constructor.
Qed.

(** ** The further properties at sample inputs *)

Lemma hist_122333_ok : dict_ok hist_122333.
Proof. nodup_keys. Defined.

Lemma pmf_122333_ok : dict_ok pmf_122333.
Proof. nodup_keys. Defined.

Lemma pmf_122333_total : DictWrapper.Total pmf_122333 = 1.
Proof. qc_compute. Defined.

Lemma pmf_122333_nonneg : Forall (Qcle 0) (values pmf_122333).
Proof. forall_computed. Defined.

Lemma cdf_122333_nonempty : xs cdf_122333 <> [].
Proof. discriminate. Defined.


Lemma Remove_spec_witness :
  dict_ok hist_122333
  /\ dict_lookup hist_122333 2%Z = Some (Qc_of_Z 2)
  /\ snd (DictWrapper.Remove 2%Z hist_122333) = Ok tt
  /\ dict_lookup (fst (DictWrapper.Remove 2%Z hist_122333)) 2%Z = None
  /\ DictWrapper.Total (fst (DictWrapper.Remove 2%Z hist_122333))
     = DictWrapper.Total hist_122333 - Qc_of_Z 2.
Proof.
  split; [exact hist_122333_ok|]. split; [reflexivity|].
  destruct (Remove_spec hist_122333 2%Z hist_122333_ok) as (_ & Hpresent & _).
  destruct (Hpresent (Qc_of_Z 2) eq_refl) as (H1 & H2 & _ & H4).
  split; [exact H1|]. split; [exact H2|exact H4].
Defined.

Lemma Hist_Subtract_spec_witness :
  dict_ok hist_122333
  /\ (forall x, Hist.Freq (Hist.Subtract hist_122333 hist_122333) x
                = Hist.Freq hist_122333 x - Hist.Freq hist_122333 x)
  /\ DictWrapper.Total (Hist.Subtract hist_122333 hist_122333)
     = DictWrapper.Total hist_122333 - DictWrapper.Total hist_122333.
Proof.
  split; [exact hist_122333_ok|].
  destruct (Hist_Subtract_spec hist_122333 hist_122333 hist_122333_ok)
    as (H1 & _ & H3 & _).
  split; [exact H1|exact H3].
Defined.

Lemma two_components_ok : Forall (fun it => dict_ok (fst it)) two_components.
Proof.
  constructor; [nodup_keys|]. constructor; [exact pmf_122333_ok|constructor].
Defined.

Lemma MakeMixture_total_probability_witness :
  Forall (fun it => dict_ok (fst it)) two_components
  /\ dict_ok (MakeMixture two_components)
  /\ DictWrapper.Total (MakeMixture two_components)
     = py_sum (map (fun it => DictWrapper.Total (fst it) * snd it)
                   two_components).
Proof.
  split; [exact two_components_ok|].
  destruct (MakeMixture_total_probability two_components two_components_ok)
    as (H1 & _ & H3).
  split; [exact H1|exact H3].
Defined.

Lemma Mean_through_Cdf_witness :
  dict_ok pmf_122333 /\ DictWrapper.Total pmf_122333 = 1
  /\ exists c, MakeCdfFromPmf pmf_122333 = Ok c
               /\ Cdf.Mean c = Pmf.Mean pmf_122333.
Proof.
  split; [exact pmf_122333_ok|]. split; [exact pmf_122333_total|].
  exact (Mean_through_Cdf pmf_122333 pmf_122333_ok pmf_122333_total).
Defined.

Lemma MakePmfFromList_Mean_witness :
  [1; 2; 2; 3; 3; 3]%Z <> []
  /\ exists pmf : dict Z,
       MakePmfFromList [1; 2; 2; 3; 3; 3]%Z = Ok pmf
       /\ Pmf.Mean pmf
          = Qc_of_Z (fold_left Z.add [1; 2; 2; 3; 3; 3]%Z 0%Z)
            / Qc_of_Z (Z.of_nat (length [1; 2; 2; 3; 3; 3]%Z)).
Proof.
  assert (Hne : [1; 2; 2; 3; 3; 3]%Z <> []) by discriminate.
  split; [exact Hne|].
  exact (MakePmfFromList_Mean [1; 2; 2; 3; 3; 3]%Z Hne).
Defined.

Lemma Pmf_Var_around_mean_witness :
  DictWrapper.Total pmf_122333 = 1 /\ Forall (Qcle 0) (values pmf_122333)
  /\ Pmf.Var None pmf_122333
     = moment2 pmf_122333 - Pmf.Mean pmf_122333 * Pmf.Mean pmf_122333
  /\ 0 <= Pmf.Var None pmf_122333.
Proof.
  split; [exact pmf_122333_total|]. split; [exact pmf_122333_nonneg|].
  destruct (Pmf_Var_around_mean pmf_122333 pmf_122333_total pmf_122333_nonneg)
    as (H1 & H2 & _).
  split; [exact H1|exact H2].
Defined.

Lemma MakePmfFromCdf_normalized_witness :
  Cdf_ok cdf_122333 /\ xs cdf_122333 <> []
  /\ dict_ok (MakePmfFromCdf cdf_122333)
  /\ Forall (Qcle 0) (values (MakePmfFromCdf cdf_122333))
  /\ DictWrapper.Total (MakePmfFromCdf cdf_122333) = 1.
Proof.
  split; [exact cdf_122333_ok|]. split; [exact cdf_122333_nonempty|].
  destruct (MakePmfFromCdf_normalized cdf_122333 cdf_122333_ok
              cdf_122333_nonempty) as (H1 & H2 & H3 & _).
  split; [exact H1|]. split; [exact H2|exact H3].
Defined.

Lemma items_with_zero_nonneg : Forall (Qcle 0) (map snd items_with_zero).
Proof. forall_computed. Defined.

Lemma items_with_zero_total : py_sum (map snd items_with_zero) <> 0.
Proof. intros E. apply Qc_eq_Q in E. vm_compute in E. discriminate. Defined.

Lemma MakeCdfFromItems_nonneg_ok_witness :
  Forall (Qcle 0) (map snd items_with_zero)
  /\ py_sum (map snd items_with_zero) <> 0
  /\ exists c : cdf,
       MakeCdfFromItems items_with_zero = Ok c
       /\ Cdf_ok c
       /\ xs c <> []
       /\ Permutation (xs c) (map fst items_with_zero).
Proof.
  split; [exact items_with_zero_nonneg|]. split; [exact items_with_zero_total|].
  exact (MakeCdfFromItems_nonneg_ok items_with_zero items_with_zero_nonneg
           items_with_zero_total).
Defined.

Lemma Cdf_Prob_monotone_witness :
  Cdf_ok cdf_122333 /\ xs cdf_122333 <> []
  /\ (forall x, exists p, Cdf.Prob cdf_122333 x = Ok p /\ 0 <= p <= 1)
  /\ (forall x, (last (xs cdf_122333) 0 <= x)%Z -> Cdf.Prob cdf_122333 x = Ok 1).
Proof.
  split; [exact cdf_122333_ok|]. split; [exact cdf_122333_nonempty|].
  destruct (Cdf_Prob_monotone cdf_122333 cdf_122333_ok cdf_122333_nonempty)
    as (H1 & _ & H3).
  split; [exact H1|exact H3].
Defined.

Lemma Cdf_Value_monotone_witness :
  Cdf_ok cdf_122333 /\ xs cdf_122333 <> []
  /\ (forall p, 0 <= p <= 1 ->
        exists v, Cdf.Value cdf_122333 p = Ok v /\ In v (xs cdf_122333)).
Proof.
  split; [exact cdf_122333_ok|]. split; [exact cdf_122333_nonempty|].
  exact (proj1 (Cdf_Value_monotone cdf_122333 cdf_122333_ok
                  cdf_122333_nonempty)).
Defined.

Lemma cdf_122333_strict_xs : StronglySorted Z.lt (xs cdf_122333).
Proof. repeat constructor. Defined.

Lemma cdf_122333_strict_ps : StronglySorted Qclt (ps cdf_122333).
Proof. repeat constructor. Defined.

Lemma Value_Prob_roundtrip_witness :
  Cdf_ok cdf_122333
  /\ StronglySorted Z.lt (xs cdf_122333)
  /\ StronglySorted Qclt (ps cdf_122333)
  /\ nth_error (xs cdf_122333) 1 = Some 2%Z
  /\ nth_error (ps cdf_122333) 1 = Some half
  /\ Cdf.Prob cdf_122333 2%Z = Ok half
  /\ Cdf.Value cdf_122333 half = Ok 2%Z.
Proof.
  split; [exact cdf_122333_ok|]. split; [exact cdf_122333_strict_xs|].
  split; [exact cdf_122333_strict_ps|]. split; [reflexivity|].
  split; [reflexivity|].
  exact (Value_Prob_roundtrip cdf_122333 1 2%Z half cdf_122333_ok
           cdf_122333_strict_xs cdf_122333_strict_ps eq_refl eq_refl).
Defined.

Lemma fifty_in_range : 0 <= Q2Qc 50 <= Q2Qc 100.
Proof. split; vm_compute; discriminate. Defined.

Lemma Cdf_Percentile_spec_witness :
  Cdf_ok cdf_122333 /\ xs cdf_122333 <> []
  /\ 0 <= Q2Qc 50 <= Q2Qc 100
  /\ exists v, Cdf.Percentile cdf_122333 (Q2Qc 50) = Ok v
               /\ In v (xs cdf_122333).
Proof.
  split; [exact cdf_122333_ok|]. split; [exact cdf_122333_nonempty|].
  split; [exact fifty_in_range|].
  destruct (Cdf_Percentile_spec cdf_122333 (Q2Qc 50) cdf_122333_ok
              cdf_122333_nonempty) as (_ & Hin & _).
  exact (Hin fifty_in_range).
Defined.

Lemma pmf_122333_total_nonzero : DictWrapper.Total pmf_122333 <> 0.
Proof. intros E. apply Qc_eq_Q in E. vm_compute in E. discriminate. Defined.

Lemma ConfidenceInterval_spec_witness :
  Forall (Qcle 0) (values pmf_122333)
  /\ DictWrapper.Total pmf_122333 <> 0
  /\ 0 <= Q2Qc 50 <= Q2Qc 100
  /\ exists low high,
       ConfidenceInterval pmf_122333 (Q2Qc 50) = Ok (low, high)
       /\ (low <= high)%Z
       /\ In low (DictWrapper.Values pmf_122333)
       /\ In high (DictWrapper.Values pmf_122333).
Proof.
  split; [exact pmf_122333_nonneg|]. split; [exact pmf_122333_total_nonzero|].
  split; [exact fifty_in_range|].
  exact (proj1 (ConfidenceInterval_spec pmf_122333 pmf_122333_nonneg
                  pmf_122333_total_nonzero) (Q2Qc 50) fifty_in_range).
Defined.

Lemma Cdf_Render_steps_witness :
  length (xs cdf_122333) = length (ps cdf_122333) /\ xs cdf_122333 <> []
  /\ exists rxs rps,
       Cdf.Render cdf_122333 = Ok (rxs, rps)
       /\ combine rxs rps = step_points 0 (Cdf.Items cdf_122333)
       /\ length rxs = (2 * length (xs cdf_122333))%nat
       /\ length rps = (2 * length (xs cdf_122333))%nat
       /\ no_slope (combine rxs rps).
Proof.
  split; [reflexivity|]. split; [exact cdf_122333_nonempty|].
  exact (Cdf_Render_steps cdf_122333 eq_refl cdf_122333_nonempty).
Defined.

Lemma DictWrapper_Render_spec_witness :
  dict_ok hist_122333 /\ hist_122333 <> []
  /\ exists vals weights,
       DictWrapper.Render hist_122333 = DictWrapper.Points vals weights
       /\ Sorted Z.le vals
       /\ Permutation vals (DictWrapper.Values hist_122333)
       /\ length weights = length vals
       /\ forall i x w, nth_error vals i = Some x ->
                        nth_error weights i = Some w ->
                        dict_lookup hist_122333 x = Some w.
Proof.
  assert (Hne : hist_122333 <> []) by discriminate.
  split; [exact hist_122333_ok|]. split; [exact Hne|].
  exact (proj2 (DictWrapper_Render_spec hist_122333 hist_122333_ok) Hne).
Defined.



Lemma pmf_8_1_nonneg : Forall (Qcle 0) (values pmf_8_1).
Proof. forall_computed. Defined.

Lemma Percentile_None_witness :
  pmf_8_1 <> [] /\ Forall (Qcle 0) (values pmf_8_1)
  /\ (Percentile pmf_8_1 (Q2Qc 150) = None
      <-> DictWrapper.Total pmf_8_1 < Q2Qc 150 / Q2Qc 100)
  /\ (forall v, Percentile pmf_8_1 (Q2Qc 150) = Some v ->
                In v (DictWrapper.Values pmf_8_1)).
Proof.
  assert (Hne : pmf_8_1 <> []) by discriminate.
  split; [exact Hne|]. split; [exact pmf_8_1_nonneg|].
  exact (Percentile_None pmf_8_1 (Q2Qc 150) Hne pmf_8_1_nonneg).
Defined.

Lemma unit_targets : Forall (fun t => 0 <= t <= 1) [Q2Qc 0; half].
Proof. repeat constructor; vm_compute; discriminate. Defined.

Lemma Cdf_Sample_spec_witness :
  Cdf_ok cdf_122333 /\ xs cdf_122333 <> []
  /\ Forall (fun t => 0 <= t <= 1) [Q2Qc 0; half]
  /\ exists vs,
       Cdf.Sample [Q2Qc 0; half] cdf_122333 = Ok vs
       /\ length vs = length [Q2Qc 0; half]
       /\ Forall (fun v => In v (xs cdf_122333)) vs.
Proof.
  split; [exact cdf_122333_ok|]. split; [exact cdf_122333_nonempty|].
  split; [exact unit_targets|].
  exact (Cdf_Sample_spec cdf_122333 [Q2Qc 0; half] cdf_122333_ok
           cdf_122333_nonempty unit_targets).
Defined.

Lemma MakePmfFromList_spec_witness :
  [1; 2; 2; 3; 3; 3]%Z <> []
  /\ exists pmf : dict Z,
       MakePmfFromList [1; 2; 2; 3; 3; 3]%Z = Ok pmf
       /\ dict_ok pmf
       /\ DictWrapper.Total pmf = 1
       /\ forall x, Pmf.Prob pmf x 0
                    = Qc_of_Z (Z.of_nat (count_key x [1; 2; 2; 3; 3; 3]%Z))
                      / Qc_of_Z (Z.of_nat (length [1; 2; 2; 3; 3; 3]%Z)).
Proof.
  assert (Hne : [1; 2; 2; 3; 3; 3]%Z <> []) by discriminate.
  split; [exact Hne|].
  exact (proj2 (MakePmfFromList_spec [1; 2; 2; 3; 3; 3]%Z) Hne).
Defined.

Lemma MaxLike_spec_witness :
  hist_122333 <> []
  /\ exists m, DictWrapper.MaxLike hist_122333 = Ok m
               /\ In m (values hist_122333)
               /\ Forall (fun w => w <= m) (values hist_122333).
Proof.
  assert (Hne : hist_122333 <> []) by discriminate.
  split; [exact Hne|]. exact (proj2 (MaxLike_spec hist_122333) Hne).
Defined.

(** Two values of the same probability: the larger one is returned. *)
Lemma MaximumLikelihood_spec_witness :
  pmf_8_1 <> []
  /\ MaximumLikelihood pmf_8_1 = Ok 8%Z
  /\ exists v p,
       MaximumLikelihood pmf_8_1 = Ok v
       /\ In (v, p) (DictWrapper.Items pmf_8_1)
       /\ forall val prob, In (val, prob) (DictWrapper.Items pmf_8_1) ->
            prob < p \/ (prob = p /\ (val <= v)%Z).
Proof.
  assert (Hne : pmf_8_1 <> []) by discriminate.
  split; [exact Hne|]. split; [reflexivity|].
  exact (proj2 (MaximumLikelihood_spec pmf_8_1) Hne).
Defined.

Lemma Suite_init_uniform_witness :
  doors <> []
  /\ exists d : dict string,
       Suite.init doors = Ok d
       /\ dict_ok d
       /\ (forall h, In h (DictWrapper.Values d) <-> In h doors)
       /\ (forall h, In h doors ->
             Pmf.Prob d h 0
             = 1 / Qc_of_Z (Z.of_nat (length (DictWrapper.Values d))))
       /\ DictWrapper.Total d = 1.
Proof.
  assert (Hne : doors <> []) by discriminate.
  split; [exact Hne|]. exact (proj2 (Suite_init_uniform doors) Hne).
Defined.

Lemma pmf_8_1_reaches_half : half <= DictWrapper.Total pmf_8_1.
Proof. vm_compute. discriminate. Defined.

Lemma pmf_8_1_below_two : DictWrapper.Total pmf_8_1 < Q2Qc 2.
Proof. vm_compute. reflexivity. Defined.

Lemma Pmf_Random_spec_witness :
  pmf_8_1 <> []
  /\ half <= DictWrapper.Total pmf_8_1
  /\ (exists x, Pmf.Random half pmf_8_1 = Pmf.Drawn x
                /\ In x (DictWrapper.Values pmf_8_1))
  /\ Forall (Qcle 0) (values pmf_8_1)
  /\ DictWrapper.Total pmf_8_1 < Q2Qc 2
  /\ Pmf.Random (Q2Qc 2) pmf_8_1 = Pmf.AssertFalse.
Proof.
  assert (Hne : pmf_8_1 <> []) by discriminate.
  split; [exact Hne|]. split; [exact pmf_8_1_reaches_half|].
  destruct (Pmf_Random_spec pmf_8_1 half) as (_ & Hdraw & _).
  split; [exact (Hdraw Hne pmf_8_1_reaches_half)|].
  split; [exact pmf_8_1_nonneg|]. split; [exact pmf_8_1_below_two|].
  destruct (Pmf_Random_spec pmf_8_1 (Q2Qc 2)) as (_ & _ & Hassert).
  exact (Hassert Hne pmf_8_1_nonneg pmf_8_1_below_two).
Defined.

Lemma MakeCdfFromItems_errors_witness :
  [(1%Z, Q2Qc 0)] <> []
  /\ py_sum (map snd [(1%Z, Q2Qc 0)]) = 0
  /\ MakeCdfFromItems [(1%Z, Q2Qc 0)] = Raise ZeroDivisionError.
Proof.
  assert (Hne : [(1%Z, Q2Qc 0)] <> []) by discriminate.
  split; [exact Hne|]. split; [reflexivity|].
  destruct (MakeCdfFromItems_errors [(1%Z, Q2Qc 0)]) as (_ & Hz & _).
  exact (Hz Hne eq_refl).
Defined.
